(** * A3C (asynchronous advantage actor-critic): a shallow embedding

    The development follows [algorithms/a3c.py] (the base variant) and
    [algorithms/a3c_conv.py] (the richer, convolutional variant).

    Numbers that Python holds in floating point are modelled by exact
    rationals ([Q], compared with [==]); the return estimator is written
    over an arbitrary carrier so that it can also be run on IEEE doubles. *)

From Stdlib Require Import String List ZArith QArith Lia Bool PrimFloat.
Import ListNotations.

Local Open Scope Z_scope.

(** ** Return estimator (the loop at the head of [A3C.sync]) *)

Section ReturnEstimator.
Context {A : Type} (zero : A) (add mul : A -> A -> A).

(** [for r in br[::-1]: R = r + gamma * R; buffer_v_target.append(R)]:
    the loop threads the running return [R] and the output buffer. *)
Fixpoint backup (gamma : A) (rs : list A) (st : A * list A) : A * list A :=
  match rs with
  | [] => st
  | r :: rs' =>
      let R := add r (mul gamma (fst st)) in
      backup gamma rs' (R, snd st ++ [R])
  end.

(** [R = 0. if done else V(s_)] *)
Definition bootstrap (done : bool) (V : A) : A := if done then zero else V.

(** The whole estimator: reversed scan, then [buffer_v_target.reverse()]. *)
Definition v_target (gamma : A) (done : bool) (V : A) (br : list A) : list A :=
  rev (snd (backup gamma (rev br) (bootstrap done V, []))).

(** The same values, computed from the newest reward backwards. *)
Fixpoint returns_from (gamma B : A) (br : list A) : list A :=
  match br with
  | [] => []
  | r :: br' =>
      let tl := returns_from gamma B br' in
      add r (mul gamma (hd B tl)) :: tl
  end.

End ReturnEstimator.

(** The estimator on exact rationals and on IEEE binary64. *)
Definition v_targetQ : Q -> bool -> Q -> list Q -> list Q :=
  v_target 0%Q Qplus Qmult.
Definition v_targetF : float -> bool -> float -> list float -> list float :=
  v_target 0%float PrimFloat.add PrimFloat.mul.

(** [gamma ^ n] for a natural exponent. *)
Fixpoint qpow (g : Q) (n : nat) : Q :=
  match n with
  | O => 1%Q
  | S n' => (g * qpow g n')%Q
  end.

Definition qsum (xs : list Q) : Q := fold_right Qplus 0%Q xs.

(** The closed form of the discounted return:
    [r_i + gamma r_{i+1} + ... + gamma^(k-1-i) r_{k-1} + gamma^(k-i) B]. *)
Definition discounted (gamma B : Q) (br : list Q) (i : nat) : Q :=
  let k := length br in
  (qsum (map (fun j => qpow gamma (j - i) * nth j br 0) (seq i (k - i)))
   + qpow gamma (k - i) * B)%Q.

(** ** Python exceptions *)

Inductive exn : Type :=
| ZeroDivisionError   (* [x / 0], [x % 0] *)
| IndexError          (* [ba[0]] on an empty list *)
| ValueError          (* [np.vstack([])], [np.random.randint(0, 0)] *)
| RuntimeError        (* torch: shapes that do not broadcast, bad index *)
| KeyError            (* [r["mean_loss"]] on a record without that key *)
| TypeError.          (* unpacking [None] into four names *)

Inductive result (A : Type) : Type :=
| Ok (a : A)
| Raise (e : exn).
Arguments Ok {A} a.
Arguments Raise {A} e.

Definition bind {A B} (m : result A) (k : A -> result B) : result B :=
  match m with
  | Ok a => k a
  | Raise e => Raise e
  end.

Notation "x <- m ;; k" := (bind m (fun x => k))
  (at level 61, m at next level, right associativity).
Notation "' pat <- m ;; k" := (bind m (fun x => match x with pat => k end))
  (at level 61, pat pattern, m at next level, right associativity).

(** ** Differentiable scalars and small tensors

    A scalar that takes part in autograd is a value together with its
    derivative along an arbitrary direction of the parameter space.
    [detach] keeps the value and cuts the derivative. *)

Record dual : Type := mkDual { val : Q; tan : Q }.

Definition dual_eq (a b : dual) : Prop :=
  (val a == val b)%Q /\ (tan a == tan b)%Q.

Definition const (q : Q) : dual := mkDual q 0.
Definition dadd (a b : dual) : dual := mkDual (val a + val b) (tan a + tan b).
Definition dsub (a b : dual) : dual := mkDual (val a - val b) (tan a - tan b).
Definition dmul (a b : dual) : dual :=
  mkDual (val a * val b) (tan a * val b + val a * tan b).
Definition dneg (a : dual) : dual := mkDual (- val a) (- tan a).
Definition dpow2 (a : dual) : dual :=
  mkDual (val a * val a) ((2 # 1) * val a * tan a).
Definition ddetach (a : dual) : dual := mkDual (val a) 0.
Definition dsum (xs : list dual) : dual := fold_right dadd (const 0) xs.
Definition ddiv_nat (a : dual) (n : nat) : dual :=
  mkDual (val a / inject_Z (Z.of_nat n)) (tan a / inject_Z (Z.of_nat n)).
(** Mean of a non-empty list (torch gives [nan] on an empty one). *)
Definition dmean (xs : list dual) : dual := ddiv_nat (dsum xs) (length xs).

(** Tensors of rank 0, 1 and 2, the ranks [loss_func] meets. *)
Inductive tensor : Type :=
| T0 (x : dual)
| T1 (xs : list dual)
| T2 (rows : list (list dual)).

Fixpoint zip_with {X Y Z : Type} (f : X -> Y -> result Z)
  (xs : list X) (ys : list Y) : result (list Z) :=
  match xs, ys with
  | [], [] => Ok []
  | x :: xs', y :: ys' =>
      z <- f x y ;; zs <- zip_with f xs' ys' ;; Ok (z :: zs)
  | _, _ => Raise RuntimeError
  end.

(** Broadcasting along one dimension: equal sizes pair up, a size of one
    is expanded, anything else is torch's size-mismatch error. *)
Definition bcast {X Y Z : Type} (f : X -> Y -> result Z)
  (xs : list X) (ys : list Y) : result (list Z) :=
  if (length xs =? length ys)%nat then zip_with f xs ys
  else match xs, ys with
       | [x], _ => zip_with f (repeat x (length ys)) ys
       | _, [y] => zip_with f xs (repeat y (length xs))
       | _, _ => Raise RuntimeError
       end.

Definition rmap {A B} (f : A -> B) (m : result A) : result B :=
  a <- m ;; Ok (f a).

Definition lift2 (f : dual -> dual -> dual) (a b : tensor) : result tensor :=
  let f0 x y := Ok (f x y) in
  match a, b with
  | T0 x, T0 y => Ok (T0 (f x y))
  | T0 x, T1 ys => Ok (T1 (map (f x) ys))
  | T1 xs, T0 y => Ok (T1 (map (fun x => f x y) xs))
  | T0 x, T2 yss => Ok (T2 (map (map (f x)) yss))
  | T2 xss, T0 y => Ok (T2 (map (map (fun x => f x y)) xss))
  | T1 xs, T1 ys => rmap T1 (bcast f0 xs ys)
  | T2 xss, T1 ys => rmap T2 (bcast (bcast f0) xss [ys])
  | T1 xs, T2 yss => rmap T2 (bcast (bcast f0) [xs] yss)
  | T2 xss, T2 yss => rmap T2 (bcast (bcast f0) xss yss)
  end.

Definition lift1 (f : dual -> dual) (a : tensor) : tensor :=
  match a with
  | T0 x => T0 (f x)
  | T1 xs => T1 (map f xs)
  | T2 xss => T2 (map (map f) xss)
  end.

Definition elements (a : tensor) : list dual :=
  match a with
  | T0 x => [x]
  | T1 xs => xs
  | T2 xss => concat xss
  end.

(** [t.mean()]: a scalar (a rank-0 tensor). *)
Definition tmean (a : tensor) : dual := dmean (elements a).

(** [t.squeeze()]: every dimension of size one is dropped.  A rank-2
    tensor without rows is read as shape (0, 1), the only empty shape
    that [loss_func] can build. *)
Definition squeeze (a : tensor) : tensor :=
  match a with
  | T0 x => T0 x
  | T1 [x] => T0 x
  | T1 xs => T1 xs
  | T2 [[x]] => T0 x
  | T2 [row] => T1 row
  | T2 rows =>
      if forallb (fun row => (length row =? 1)%nat) rows
      then T1 (concat rows) else T2 rows
  end.

(** A column [(B, 1)] from a list, as [np.array(xs)[:, None]] builds it. *)
Definition column (xs : list dual) : tensor := T2 (map (fun x => [x]) xs).

(** ** The policy-value model ([class Model]) *)

Section Model.
Variables Net Obs : Type.

(** The layers are opaque: per input row, the policy head gives a row of
    logits and the value head one scalar. *)
Variable policy_head : Net -> Obs -> list dual.
Variable value_head : Net -> Obs -> dual.

(** [Categorical(softmax(row)).log_prob(a)] on one row; torch raises on an
    index outside the row. *)
Variable log_softmax_at : list dual -> Z -> result dual.

(** [forward]: logits of shape (B, a_dim) and values of shape (B, 1). *)
Definition forward (self : Net) (x : list Obs) : tensor * tensor :=
  (T2 (map (policy_head self) x), column (map (value_head self) x)).

(** [m.log_prob(a)] for a rank-1 tensor of actions, broadcast against the
    batch of rows. *)
Definition log_prob (logits : tensor) (a : list Z) : result tensor :=
  match logits with
  | T2 rows => rmap T1 (bcast log_softmax_at rows a)
  | _ => Raise RuntimeError
  end.

(** [Model.loss_func] of a3c.py. *)
Definition loss_func (self : Net) (s : list Obs) (a : list Z) (v_t : tensor)
  : result dual :=
  let '(logits, values) := forward self s in
  td <- lift2 dsub v_t values ;;
  let c_loss := lift1 dpow2 td in
  m_log_prob <- log_prob logits a ;;
  exp_v <- lift2 dmul m_log_prob (squeeze (lift1 ddetach td)) ;;
  let a_loss := lift1 dneg exp_v in
  total <- lift2 dadd c_loss a_loss ;;
  Ok (tmean total).

(** [Model.loss_func] of a3c_conv.py: the same total loss, and three
    detached means for reporting. *)
Definition loss_func_conv (self : Net) (states : list Obs) (actions : list Z)
  (target_values : tensor) : result (dual * dual * dual * dual) :=
  let '(logits, values) := forward self states in
  advantage <- lift2 dsub target_values values ;;
  let value_loss := lift1 dpow2 advantage in
  m_log_prob <- log_prob logits actions ;;
  exp_v <- lift2 dmul m_log_prob (squeeze (lift1 ddetach advantage)) ;;
  let policy_loss := lift1 dneg exp_v in
  total <- lift2 dadd value_loss policy_loss ;;
  Ok (tmean total,
      tmean (lift1 ddetach value_loss),
      tmean (lift1 ddetach policy_loss),
      tmean (lift1 ddetach advantage)).

(** [np_torch_wrap(np.array(buffer_v_target)[:, None])]: a column of
    constants (numpy data carries no gradient). *)
Definition target_column (buffer_v_target : list Q) : tensor :=
  column (map const buffer_v_target).

End Model.

(** *** The loss of one sample, in the words of the specification *)

Definition advantage_of (target : Q) (value : dual) : dual :=
  dsub (const target) value.
Definition value_loss_of (target : Q) (value : dual) : dual :=
  dpow2 (advantage_of target value).
Definition policy_loss_of (target : Q) (value logp : dual) : dual :=
  dneg (dmul logp (ddetach (advantage_of target value))).
Definition sample_loss (target : Q) (value logp : dual) : dual :=
  dadd (value_loss_of target value) (policy_loss_of target value logp).

Definition map2 {X Y Z : Type} (f : X -> Y -> Z) (xs : list X) (ys : list Y)
  : list Z :=
  map (fun p => f (fst p) (snd p)) (combine xs ys).

Definition batch_loss (targets : list Q) (values logps : list dual) : dual :=
  dmean (map2 (fun tv l => sample_loss (fst tv) (snd tv) l)
              (combine targets values) logps).

(** A count as a rational, for means. *)
Definition nQ (n : nat) : Q := inject_Z (Z.of_nat n).

Arguments forward {Net Obs} policy_head value_head self x.
Arguments loss_func {Net Obs} policy_head value_head log_softmax_at self s a v_t.
Arguments loss_func_conv {Net Obs} policy_head value_head log_softmax_at
  self states actions target_values.

(** ** Networks as named parameters *)

(** A parameter tensor (flattened) and its gradient slot ([None] until a
    gradient has been stored). *)
Record param : Type := mkParam { data : list Q; grad : option (list Q) }.

(** [named_parameters()], in registration order; [zip] over
    [parameters()] depends on that order, [load_state_dict] on the names. *)
Definition network : Type := list (string * param).

Definition state_dict (net : network) : list (string * list Q) :=
  map (fun kp => (fst kp, data (snd kp))) net.

Fixpoint lookup {V : Type} (k : string) (d : list (string * V)) : option V :=
  match d with
  | [] => None
  | (k', v) :: d' => if String.eqb k k' then Some v else lookup k d'
  end.

Definition has_key {V : Type} (k : string) (d : list (string * V)) : bool :=
  match lookup k d with Some _ => true | None => false end.

(** One entry of [load_state_dict]: the tensor stored under the same name
    is copied in when its size agrees; otherwise the entry is left as it
    was and an error is noted. *)
Definition load_entry (sd : list (string * list Q)) (kp : string * param)
  : (string * param) * bool :=
  match lookup (fst kp) sd with
  | Some d =>
      if (length d =? length (data (snd kp)))%nat
      then ((fst kp, mkParam d (grad (snd kp))), true)
      else (kp, false)
  | None => (kp, false)
  end.

(** [self.load_state_dict(sd)] (strict): entries that match are copied;
    a missing key, an unexpected key or a size mismatch raises after the
    copying. *)
Definition load_state_dict (self : network) (sd : list (string * list Q))
  : network * result unit :=
  let loaded := map (load_entry sd) self in
  let unexpected := existsb (fun kv => negb (has_key (fst kv) self)) sd in
  (map fst loaded,
   if forallb snd loaded && negb unexpected then Ok tt else Raise RuntimeError).

(** [optimizer.zero_grad()]: gradients that exist are zeroed in place. *)
Definition zero_grad (net : network) : network :=
  map (fun kp =>
         (fst kp, mkParam (data (snd kp))
                          (option_map (map (fun _ => 0%Q)) (grad (snd kp)))))
      net.

(** [loss.backward()] on the local network: each parameter receives its
    gradient.  (The tensor behind [lp.grad] is the one the previous call
    handed to the shared parameter, which [zero_grad] has just cleared,
    so what accumulates is the fresh gradient.) *)
Fixpoint set_grads (net : network) (gs : list (list Q)) : network :=
  match net, gs with
  | (k, p) :: net', g :: gs' => (k, mkParam (data p) (Some g)) :: set_grads net' gs'
  | _, _ => net
  end.

(** [for lp, gp in zip(local.parameters(), global.parameters()):
       gp._grad = lp.grad] *)
Fixpoint transplant (local global : network) : network :=
  match local, global with
  | (_, lp) :: local', (k, gp) :: global' =>
      (k, mkParam (data gp) (grad lp)) :: transplant local' global'
  | _, _ => global
  end.

(** One completed episode, as [checkpoint] puts it on the queue.  The base
    variant sends the episode number and no diagnostics, the richer
    variant the other way round. *)
Record diagnostics : Type := mkDiag {
  mean_loss : dual;
  mean_value_loss : dual;
  mean_policy_loss : dual;
  mean_advantage : dual;
  gradient_updates : Z
}.

Record ResultRecord : Type := mkRecord {
  worker_name : string;
  reward : Q;
  episode_no : option Z;
  episode_length : Z;
  diag : option diagnostics
}.

(** [mp.Value('i')] is a C int: stores wrap around at 32 bits. *)
Definition wrap_int32 (z : Z) : Z := (z + 2 ^ 31) mod 2 ^ 32 - 2 ^ 31.

(** ** The coordinator object ([class A3C]) *)

Section A3C.
Variable Obs : Type.

(** The opaque parts: the layers, autograd and the shared optimiser. *)
Variable policy_head : network -> Obs -> list dual.
Variable value_head : network -> Obs -> dual.
Variable log_softmax_at : list dual -> Z -> result dual.
(** Gradient of the loss with respect to each local parameter, in order. *)
Variable backward : network -> list Obs -> list Z -> list Q -> list (list Q).
(** Per-parameter state of [SharedRMSprop] and its update rule. *)
Variable OptSlot : Type.
Variable rmsprop : OptSlot -> list Q -> list Q -> OptSlot * list Q.

Record A3C : Type := mkA3C {
  gamma : Q;
  global_network : network;
  optimizer : list OptSlot;
  global_ep_counter : Z;
  global_ep_reward : Q;
  res_queue : list (option ResultRecord)   (* oldest first; [None] = sentinel *)
}.

(** [optimizer.step()]: every shared parameter that has a gradient is
    updated; one without is skipped. *)
Fixpoint optimizer_step (opt : list OptSlot) (net : network)
  : list OptSlot * network :=
  match opt, net with
  | slot :: opt', (k, p) :: net' =>
      let '(opt'', net'') := optimizer_step opt' net' in
      match grad p with
      | Some g =>
          let '(slot', d') := rmsprop slot (data p) g in
          (slot' :: opt'', (k, mkParam d' (grad p)) :: net'')
      | None => (slot :: opt'', (k, p) :: net'')
      end
  | _, _ => (opt, net)
  end.

(** Steps 4 to 6 of a synchronisation: clear the shared gradients, run
    backward on the local network, hand its gradients to the shared
    parameters and step the shared optimiser. *)
Definition push_gradients (self : A3C) (local_network : network)
  (bs : list Obs) (ba : list Z) (buffer_v_target : list Q) : A3C * network :=
  let global0 := zero_grad (global_network self) in
  let local1 := set_grads local_network
                  (backward local_network bs ba buffer_v_target) in
  let global1 := transplant local1 global0 in
  let '(opt', global2) := optimizer_step (optimizer self) global1 in
  (mkA3C (gamma self) global2 opt' (global_ep_counter self)
         (global_ep_reward self) (res_queue self),
   local1).

(** The tail shared by both variants: steps 4 to 7, as one transition of
    a call that runs alone.  (What several processes do to the shared
    memory at once is taken apart further down, access by access.) *)
Definition push_and_pull (self : A3C) (local_network : network)
  (bs : list Obs) (ba : list Z) (buffer_v_target : list Q)
  : (A3C * network) * result unit :=
  let '(self', local1) :=
    push_gradients self local_network bs ba buffer_v_target in
  let '(local2, r) := load_state_dict local1 (state_dict (global_network self')) in
  ((self', local2), r).

(** What a synchronisation hands back: Python's [None], or the four
    diagnostics of the richer variant. *)
Definition sync_ret : Type := option (dual * dual * dual * dual).

(** [A3C.sync] of a3c.py.  The function has no [return] statement.  The
    buffered actions are the sampled indices (numpy int64), so of the two
    ways of wrapping [ba] the first is the one taken. *)
Definition sync (self : A3C) (local_network : network) (done : bool)
  (s_ : Obs) (bs : list Obs) (ba : list Z) (br : list Q)
  : (A3C * network) * result sync_ret :=
  let V := val (value_head local_network s_) in
  let buffer_v_target := v_targetQ (gamma self) done V br in
  match bs with
  | [] => ((self, local_network), Raise ValueError)     (* np.vstack([]) *)
  | _ :: _ =>
  match ba with
  | [] => ((self, local_network), Raise IndexError)     (* ba[0] *)
  | _ :: _ =>
  match loss_func policy_head value_head log_softmax_at local_network bs ba
                  (target_column buffer_v_target) with
  | Raise e => ((self, local_network), Raise e)
  | Ok loss =>
      let '(st, r) := push_and_pull self local_network bs ba buffer_v_target in
      (st, _ <- r ;; Ok None)
  end end end.

(** [A3C.sync] of a3c_conv.py: [np.array] accepts an empty list of
    states, and the loss and its three companions are returned. *)
Definition sync_conv (self : A3C) (local_network : network) (done : bool)
  (new_state : Obs) (buffer_state : list Obs) (buffer_action : list Z)
  (buffer_reward : list Q) : (A3C * network) * result sync_ret :=
  let V := val (value_head local_network new_state) in
  let buffer_v_target := v_targetQ (gamma self) done V buffer_reward in
  match buffer_action with
  | [] => ((self, local_network), Raise IndexError)     (* buffer_action[0] *)
  | _ :: _ =>
  match loss_func_conv policy_head value_head log_softmax_at local_network
                       buffer_state buffer_action
                       (target_column buffer_v_target) with
  | Raise e => ((self, local_network), Raise e)
  | Ok (loss, mean_value_loss, mean_policy_loss, mean_advantage) =>
      let '(st, r) :=
        push_and_pull self local_network buffer_state buffer_action
                      buffer_v_target in
      (st, _ <- r ;;
           Ok (Some (ddetach loss, mean_value_loss, mean_policy_loss,
                     mean_advantage)))
  end end.

(** What [checkpoint] is called with.  The base worker passes the first
    three, the richer one all of them. *)
Record report : Type := mkReport {
  rep_name : string;
  rep_reward : Q;
  rep_length : Z;
  rep_diag : option diagnostics
}.

(** [A3C.checkpoint]: count the episode, overwrite the running reward,
    queue the record.  In a3c.py the record carries the episode number,
    in a3c_conv.py the diagnostics. *)
Definition checkpoint (self : A3C) (rep : report) : A3C :=
  let counter := wrap_int32 (global_ep_counter self + 1) in
  let running := rep_reward rep in
  let record :=
    match rep_diag rep with
    | None => mkRecord (rep_name rep) running (Some counter) (rep_length rep) None
    | Some d => mkRecord (rep_name rep) running None (rep_length rep) (Some d)
    end in
  mkA3C (gamma self) (global_network self) (optimizer self)
        counter running (res_queue self ++ [Some record]).

(** [self.res_queue.put(None)] *)
Definition put_sentinel (self : A3C) : A3C :=
  mkA3C (gamma self) (global_network self) (optimizer self)
        (global_ep_counter self) (global_ep_reward self)
        (res_queue self ++ [None]).

End A3C.

Arguments mkA3C {OptSlot}.
Arguments gamma {OptSlot}.
Arguments global_network {OptSlot}.
Arguments optimizer {OptSlot}.
Arguments global_ep_counter {OptSlot}.
Arguments global_ep_reward {OptSlot}.
Arguments res_queue {OptSlot}.
Arguments checkpoint {OptSlot}.
Arguments put_sentinel {OptSlot}.

(** ** The coordinator's collection loop ([A3C.run]) *)

Inductive loop_exit : Type :=
| Broke      (* the loop left through [break] *)
| Blocked.   (* [res_queue.get()] waits on an empty queue *)

Record drained : Type := mkDrained {
  dr_episode : Z;                          (* [self.episode] at the end *)
  dr_recorded : list (Z * ResultRecord);   (* calls of [self.record] *)
  dr_records : nat;                        (* records dequeued *)
  dr_sentinels : nat;                      (* sentinels dequeued *)
  dr_left : list (option ResultRecord);    (* still in the queue *)
  dr_exit : loop_exit
}.

Definition took_record (episode : Z) (r : ResultRecord) (d : drained) : drained :=
  mkDrained (dr_episode d) ((episode, r) :: dr_recorded d) (S (dr_records d))
            (dr_sentinels d) (dr_left d) (dr_exit d).

(** The loop of a3c.py, fed with the items in the order they arrive:
    [while True: r = get(); if r is not None: ... else: break]. *)
Fixpoint run_drain (arrivals : list (option ResultRecord)) (episode : Z)
  : drained :=
  match arrivals with
  | [] => mkDrained episode [] 0 0 [] Blocked
  | Some r :: rest =>
      let episode' := episode + 1 in
      took_record episode' r (run_drain rest episode')
  | None :: rest => mkDrained episode [] 0 1 rest Broke
  end.

(** The loop of a3c_conv.py: the body sits in [try ... except: break], and
    reading [r["mean_loss"]] from a record without diagnostics is the
    [KeyError] that the handler turns into a [break]. *)
Fixpoint run_drain_conv (arrivals : list (option ResultRecord)) (episode : Z)
  : drained :=
  match arrivals with
  | [] => mkDrained episode [] 0 0 [] Blocked
  | Some r :: rest =>
      let episode' := episode + 1 in
      match diag r with
      | Some _ => took_record episode' r (run_drain_conv rest episode')
      | None => mkDrained episode' [] 1 0 rest Broke
      end
  | None :: rest => mkDrained episode [] 0 1 rest Broke
  end.

(** ** The worker process ([class Worker]) *)

Inductive variant : Type := Base | Conv.

(** What a worker does to the outside, in order. *)
Inductive event (Obs : Type) : Type :=
| EvReset
| EvStep (action passed : Z)   (* [env.step(passed)] for the sampled [action] *)
| EvSync (done : bool) (s_ : Obs) (bs : list Obs) (ba : list Z) (br : list Q)
| EvCheckpoint (rep : report)
| EvPutNone.
Arguments EvReset {Obs}.
Arguments EvStep {Obs} action passed.
Arguments EvSync {Obs} done s_ bs ba br.
Arguments EvCheckpoint {Obs} rep.
Arguments EvPutNone {Obs}.

Inductive outcome : Type :=
| Finished
| Crashed (e : exn)
| OutOfFuel.

Inductive ctl : Type :=
| Continue
| Break
| Raised (e : exn).

(** [a % b] on Python integers. *)
Definition pymod (a b : Z) : result Z :=
  if b =? 0 then Raise ZeroDivisionError else Ok (a mod b).

Section Worker.
Variables E Obs Net W R : Type.

Variable v : variant.
Variable name : string.

(** The environment: [reset], [step] (the [info] field is not used) and
    the property [n_actions]. *)
Variable env_reset : E -> E * Obs.
Variable env_step : E -> Z -> E * (Obs * Q * bool).
Variable n_actions : Z.

(** [Categorical(prob).sample()]: an index drawn from the distribution
    over the policy head's outputs, consuming randomness. *)
Variable sample : Net -> Obs -> R -> nat * R.

(** The two callbacks and the shared objects the worker was built with. *)
Variable synchronize :
  W -> Net -> bool -> Obs -> list Obs -> list Z -> list Q ->
  (W * Net) * result sync_ret.
Variable checkpoint_cb : W -> report -> W.
Variable counter_value : W -> Z.        (* [self.global_ep_counter.value] *)
Variable put_none : W -> W.             (* [self.res_queue.put(None)] *)

Variables max_eps max_length update_global_delay : Z.

Record wstate : Type := mkW {
  w_env : E;
  w_net : Net;                 (* [self.local_network] *)
  w_world : W;
  w_rng : R;
  w_thread_step : Z;
  w_log : list (event Obs)
}.

(** The variables of one pass of the outer loop. *)
Record epvars : Type := mkEp {
  buffer_s : list Obs;
  buffer_a : list Z;
  buffer_r : list Q;
  episode_reward : Q;
  episode_step : Z;
  state : Obs;
  total_loss : dual;
  total_value_loss : dual;
  total_policy_loss : dual;
  total_advantage : dual;
  grad_updates : Z
}.

(** [Model.choose_action]: the sampled index, as a number. *)
Definition choose_action (net : Net) (s : Obs) (rng : R) : Z * R :=
  let '(i, rng') := sample net s rng in (Z.of_nat i, rng').

(** After a synchronisation the richer worker unpacks four values and
    adds them to its totals; the base worker ignores what came back. *)
Definition accumulate (ret : sync_ret) (ev : epvars) : result epvars :=
  match v with
  | Base => Ok ev
  | Conv =>
      match ret with
      | None => Raise TypeError
      | Some (loss, mean_value_loss, mean_policy_loss, mean_advantage) =>
          Ok (mkEp (buffer_s ev) (buffer_a ev) (buffer_r ev)
                   (episode_reward ev) (episode_step ev) (state ev)
                   (dadd (total_loss ev) loss)
                   (dadd (total_value_loss ev) mean_value_loss)
                   (dadd (total_policy_loss ev) mean_policy_loss)
                   (dadd (total_advantage ev) mean_advantage)
                   (grad_updates ev + 1))
      end
  end.

Definition clear_buffers (ev : epvars) : epvars :=
  mkEp [] [] [] (episode_reward ev) (episode_step ev) (state ev)
       (total_loss ev) (total_value_loss ev) (total_policy_loss ev)
       (total_advantage ev) (grad_updates ev).

(** [state = new_state; episode_step += 1] *)
Definition advance (new_state : Obs) (ev : epvars) : epvars :=
  mkEp (buffer_s ev) (buffer_a ev) (buffer_r ev) (episode_reward ev)
       (episode_step ev + 1) new_state
       (total_loss ev) (total_value_loss ev) (total_policy_loss ev)
       (total_advantage ev) (grad_updates ev).

(** One pass through the body of the inner [while] loop.  (Rendering,
    which only worker [w0] may do, changes nothing here and is left out.) *)
Definition step_body (ws : wstate) (ev : epvars) : wstate * epvars * ctl :=
  let '(action, rng') := choose_action (w_net ws) (state ev) (w_rng ws) in
  let passed := if action <? n_actions then action else 0 in
  let '(env', (new_state, r0, done)) := env_step (w_env ws) passed in
  let r := if done then (-1)%Q else r0 in
  let ev1 := mkEp (buffer_s ev ++ [state ev]) (buffer_a ev ++ [action])
                  (buffer_r ev ++ [r]) (episode_reward ev + r)%Q
                  (episode_step ev) (state ev)
                  (total_loss ev) (total_value_loss ev) (total_policy_loss ev)
                  (total_advantage ev) (grad_updates ev) in
  let log1 := w_log ws ++ [EvStep action passed] in
  let ws1 := mkW env' (w_net ws) (w_world ws) rng' (w_thread_step ws) log1 in
  match pymod (w_thread_step ws) update_global_delay with
  | Raise e => (ws1, ev1, Raised e)
  | Ok m =>
      if (m =? 0) || done then
        let log2 := log1 ++ [EvSync done new_state (buffer_s ev1)
                                    (buffer_a ev1) (buffer_r ev1)] in
        let '((world', net'), res) :=
          synchronize (w_world ws) (w_net ws) done new_state
                      (buffer_s ev1) (buffer_a ev1) (buffer_r ev1) in
        let ws2 := mkW env' net' world' rng' (w_thread_step ws) log2 in
        match res with
        | Raise e => (ws2, ev1, Raised e)
        | Ok ret =>
            match accumulate ret ev1 with
            | Raise e => (ws2, ev1, Raised e)
            | Ok ev2 =>
                let ev3 := clear_buffers ev2 in
                if done then (ws2, ev3, Break)
                else (mkW env' net' world' rng' (w_thread_step ws + 1) log2,
                      advance new_state ev3, Continue)
            end
        end
      else (mkW env' (w_net ws) (w_world ws) rng' (w_thread_step ws + 1) log1,
            advance new_state ev1, Continue)
  end.

(** [while episode_step < self.max_length: ...]; [n] bounds the number of
    passes, and [Z.to_nat max_length] passes are always enough because
    every pass that continues adds one to [episode_step]. *)
Fixpoint episode_loop (n : nat) (ws : wstate) (ev : epvars)
  : wstate * epvars * outcome :=
  if episode_step ev <? max_length then
    match n with
    | O => (ws, ev, OutOfFuel)
    | S n' =>
        match step_body ws ev with
        | (ws', ev', Continue) => episode_loop n' ws' ev'
        | (ws', ev', Break) => (ws', ev', Finished)
        | (ws', ev', Raised e) => (ws', ev', Crashed e)
        end
    end
  else (ws, ev, Finished).

(** The arguments of the call to [self.checkpoint] that ends an episode.
    The richer worker divides its totals by the number of
    synchronisations, which fails when there was none. *)
Definition checkpoint_args (ev : epvars) : result report :=
  match v with
  | Base => Ok (mkReport name (episode_reward ev) (episode_step ev) None)
  | Conv =>
      if grad_updates ev =? 0 then Raise ZeroDivisionError
      else
        let n := Z.to_nat (grad_updates ev) in
        Ok (mkReport name (episode_reward ev) (episode_step ev)
              (Some (mkDiag (ddiv_nat (total_loss ev) n)
                            (ddiv_nat (total_value_loss ev) n)
                            (ddiv_nat (total_policy_loss ev) n)
                            (ddiv_nat (total_advantage ev) n)
                            (grad_updates ev))))
  end.

(** One pass of the outer loop: fresh buffers, [env.reset()], the inner
    loop, then the call to [self.checkpoint]. *)
Definition run_episode (ws : wstate) : wstate * outcome :=
  let '(env', s0) := env_reset (w_env ws) in
  let ws0 := mkW env' (w_net ws) (w_world ws) (w_rng ws) (w_thread_step ws)
                 (w_log ws ++ [EvReset]) in
  let ev0 := mkEp [] [] [] 0%Q 0 s0 (const 0) (const 0) (const 0) (const 0) 0 in
  match episode_loop (Z.to_nat max_length) ws0 ev0 with
  | (ws', ev', Finished) =>
      match checkpoint_args ev' with
      | Raise e => (ws', Crashed e)
      | Ok rep =>
          (mkW (w_env ws') (w_net ws') (checkpoint_cb (w_world ws') rep)
               (w_rng ws') (w_thread_step ws')
               (w_log ws' ++ [EvCheckpoint rep]),
           Finished)
      end
  | (ws', _, out) => (ws', out)
  end.

(** [while self.global_ep_counter.value < self.max_eps: ...] followed by
    [self.res_queue.put(None)]; [fuel] bounds the number of episodes. *)
Fixpoint run_loop (fuel : nat) (ws : wstate) : wstate * outcome :=
  if counter_value (w_world ws) <? max_eps then
    match fuel with
    | O => (ws, OutOfFuel)
    | S fuel' =>
        match run_episode ws with
        | (ws', Finished) => run_loop fuel' ws'
        | (ws', out) => (ws', out)
        end
    end
  else (mkW (w_env ws) (w_net ws) (put_none (w_world ws)) (w_rng ws)
            (w_thread_step ws) (w_log ws ++ [EvPutNone]),
        Finished).

(** [Worker.run]: [thread_step = 1], then the loop. *)
Definition run (fuel : nat) (env : E) (net : Net) (world : W) (rng : R)
  : wstate * outcome :=
  run_loop fuel (mkW env net world rng 1 []).

End Worker.

Arguments mkW {E Obs Net W R}.
Arguments w_env {E Obs Net W R}.
Arguments w_net {E Obs Net W R}.
Arguments w_world {E Obs Net W R}.
Arguments w_rng {E Obs Net W R}.
Arguments w_thread_step {E Obs Net W R}.
Arguments w_log {E Obs Net W R}.
Arguments mkEp {Obs}.
Arguments buffer_s {Obs}.
Arguments buffer_a {Obs}.
Arguments buffer_r {Obs}.
Arguments episode_reward {Obs}.
Arguments episode_step {Obs}.
Arguments state {Obs}.
Arguments grad_updates {Obs}.

(** ** Workers as [A3C.__init__] builds them

    [f_sync = self.sync], [f_checkpoint = self.checkpoint], the shared
    counter and queue are those of the coordinator, and [max_length] is
    the literal 1000 whatever the coordinator was given. *)

Section Spawn.
Variables E Obs R OptSlot : Type.
Variable v : variant.
Variable policy_head : network -> Obs -> list dual.
Variable value_head : network -> Obs -> dual.
Variable log_softmax_at : list dual -> Z -> result dual.
Variable backward : network -> list Obs -> list Z -> list Q -> list (list Q).
Variable rmsprop : OptSlot -> list Q -> list Q -> OptSlot * list Q.
Variable env_reset : E -> E * Obs.
Variable env_step : E -> Z -> E * (Obs * Q * bool).
Variable n_actions : Z.
Variable sample : network -> Obs -> R -> nat * R.

Definition sync_of : A3C OptSlot -> network -> bool -> Obs -> list Obs ->
                     list Z -> list Q -> (A3C OptSlot * network) * result sync_ret :=
  match v with
  | Base => sync Obs policy_head value_head log_softmax_at backward OptSlot rmsprop
  | Conv => sync_conv Obs policy_head value_head log_softmax_at backward OptSlot rmsprop
  end.

(** One episode of a worker whose callbacks are the coordinator's. *)
Definition wired_episode (name : string) (max_length update_global_delay : Z) :=
  run_episode E Obs network (A3C OptSlot) R v name env_reset env_step
              n_actions sample sync_of checkpoint max_length
              update_global_delay.

Definition spawned_episode (name : string) (update_global_delay : Z) :=
  wired_episode name 1000 update_global_delay.

Definition spawned_run (name : string) (max_eps update_global_delay : Z) :=
  run E Obs network (A3C OptSlot) R v name env_reset env_step n_actions
      sample sync_of checkpoint global_ep_counter put_sentinel
      max_eps 1000 update_global_delay.
End Spawn.

(** ** Choosing an environment factory per worker *)

Definition zrange (lo : Z) (n : Z) : list Z :=
  map (fun i => lo + Z.of_nat i) (seq 0 (Z.to_nat n)).

(** A draw is modelled by the list of its equally likely outcomes. *)

(** [random.randint(a, b)]: both ends included. *)
Definition py_randint (a b : Z) : result (list Z) :=
  if a <=? b then Ok (zrange a (b - a + 1)) else Raise ValueError.

(** [np.random.randint(low, high)]: [high] excluded. *)
Definition np_randint (low high : Z) : result (list Z) :=
  if low <? high then Ok (zrange low (high - low)) else Raise ValueError.

(** [xs[i]] on a Python list. *)
Definition py_index {X : Type} (xs : list X) (i : Z) : result X :=
  let n := Z.of_nat (length xs) in
  let j := if i <? 0 then i + n else i in
  if (0 <=? j) && (j <? n)
  then match nth_error xs (Z.to_nat j) with
       | Some x => Ok x
       | None => Raise IndexError
       end
  else Raise IndexError.

Fixpoint map_result {X Y : Type} (f : X -> result Y) (xs : list X)
  : result (list Y) :=
  match xs with
  | [] => Ok []
  | x :: xs' => y <- f x ;; ys <- map_result f xs' ;; Ok (y :: ys)
  end.

(** The [env_factory] argument: one factory, or a list of them
    ([type(env_factory) is list]). *)
Inductive factories (X : Type) : Type :=
| Single (f : X)
| Several (fs : list X).
Arguments Single {X} f.
Arguments Several {X} fs.

(** The factory handed to one worker, a3c.py:
    [env_factory[random.randint(0, len(env_factory) - 1)]]. *)
Definition worker_factory {X : Type} (env_factory : factories X)
  : result (list X) :=
  match env_factory with
  | Single f => Ok [f]
  | Several fs =>
      idx <- py_randint 0 (Z.of_nat (length fs) - 1) ;;
      map_result (py_index fs) idx
  end.

(** The same place in a3c_conv.py:
    [env_factory[np.random.randint(0, len(env_factory) - 1)]]. *)
Definition worker_factory_conv {X : Type} (env_factory : factories X)
  : result (list X) :=
  match env_factory with
  | Single f => Ok [f]
  | Several fs =>
      idx <- np_randint 0 (Z.of_nat (length fs) - 1) ;;
      map_result (py_index fs) idx
  end.

(** Chance of [x] among equally likely outcomes. *)
Definition chance {X : Type} (eqb : X -> X -> bool) (x : X) (outcomes : list X)
  : Q :=
  (nQ (length (filter (eqb x) outcomes)) / nQ (length outcomes))%Q.

(** ** What a call touches, operation by operation

    For questions of interleaving, a call is the sequence of its
    operations on shared objects, and the workers' sequences are merged
    by a schedule. *)

Inductive lock : Type :=
| CounterLock     (* [self.global_ep_counter.get_lock()] *)
| RewardLock.     (* [self.global_ep_reward.get_lock()] *)

Inductive op : Type :=
| OpForward       (* [local_network.forward(s_)], only when not done *)
| OpLoss          (* [local_network.loss_func(...)] *)
| OpZeroGrad      (* [self.optimizer.zero_grad()] *)
| OpBackward      (* [loss.backward()] *)
| OpSetGrad       (* [gp._grad = lp.grad] over all parameters *)
| OpStep          (* [self.optimizer.step()] *)
| OpLoad          (* [local_network.load_state_dict(...)] *)
| OpAcquire (l : lock)
| OpRelease (l : lock)
| OpIncrCounter   (* [self.global_ep_counter.value += 1] *)
| OpSetReward     (* [self.global_ep_reward.value = episode_reward] *)
| OpPut.          (* [self.res_queue.put(...)] *)

(** [A3C.sync], statement by statement (the same in both files). *)
Definition sync_ops (done : bool) : list op :=
  (if done then [] else [OpForward])
  ++ [OpLoss; OpZeroGrad; OpBackward; OpSetGrad; OpStep; OpLoad].

(** [A3C.checkpoint], statement by statement. *)
Definition checkpoint_ops : list op :=
  [OpAcquire CounterLock; OpIncrCounter; OpRelease CounterLock;
   OpAcquire RewardLock; OpSetReward; OpRelease RewardLock; OpPut].

(** Steps 4 to 6 of the protocol. *)
Definition shared_step (o : op) : bool :=
  match o with
  | OpZeroGrad | OpSetGrad | OpStep => true
  | _ => false
  end.

Definition is_step (o : op) : bool :=
  match o with OpStep => true | _ => false end.

Definition is_acquire (o : op) : bool :=
  match o with OpAcquire _ => true | _ => false end.

Definition lock_eqb (a b : lock) : bool :=
  match a, b with
  | CounterLock, CounterLock | RewardLock, RewardLock => true
  | _, _ => false
  end.

(** Does every operation picked out by [crit] run while [l] is held? *)
Fixpoint guarded_from (held : list lock) (l : lock) (crit : op -> bool)
  (prog : list op) : bool :=
  match prog with
  | [] => true
  | OpAcquire l' :: p => guarded_from (l' :: held) l crit p
  | OpRelease l' :: p =>
      guarded_from (filter (fun h => negb (lock_eqb h l')) held) l crit p
  | o :: p =>
      (negb (crit o) || existsb (lock_eqb l) held)
      && guarded_from held l crit p
  end.

Definition guarded_by (l : lock) (crit : op -> bool) (prog : list op) : bool :=
  guarded_from [] l crit prog.

Fixpoint set_nth {X : Type} (i : nat) (x : X) (xs : list X) : list X :=
  match i, xs with
  | _, [] => []
  | O, _ :: xs' => x :: xs'
  | S i', y :: xs' => y :: set_nth i' x xs'
  end.

(** The effect of an operation of worker [w] on the locks; an acquire of
    a lock that is held cannot run. *)
Definition lock_step (held : list (lock * nat)) (w : nat) (o : op)
  : option (list (lock * nat)) :=
  match o with
  | OpAcquire l =>
      if existsb (fun h => lock_eqb (fst h) l) held then None
      else Some ((l, w) :: held)
  | OpRelease l =>
      Some (filter (fun h => negb (lock_eqb (fst h) l && (snd h =? w)%nat)) held)
  | _ => Some held
  end.

(** Run the workers' programs under a schedule (the worker to move at
    each instant).  The result is the merged trace, if the schedule is
    one the programs and the locks allow and it runs them to the end. *)
Fixpoint run_schedule (held : list (lock * nat)) (progs : list (list op))
  (sched : list nat) : option (list (nat * op)) :=
  match sched with
  | [] => if forallb (fun p => match p with [] => true | _ => false end) progs
          then Some [] else None
  | w :: sched' =>
      match nth_error progs w with
      | Some (o :: p) =>
          match lock_step held w o with
          | Some held' =>
              option_map (cons (w, o))
                         (run_schedule held' (set_nth w p progs) sched')
          | None => None
          end
      | _ => None
      end
  end.

(** Does some worker run one of steps 4 to 6 while another is between its
    [zero_grad] and its [step]? *)
Fixpoint overlaps_from (inside : list nat) (t : list (nat * op)) : bool :=
  match t with
  | [] => false
  | (w, o) :: t' =>
      if shared_step o then
        existsb (fun w' => negb (w' =? w)%nat) inside
        || overlaps_from
             (match o with
              | OpZeroGrad => w :: inside
              | OpStep => filter (fun w' => negb (w' =? w)%nat) inside
              | _ => inside
              end) t'
      else overlaps_from inside t'
  end.

Definition serialized (t : list (nat * op)) : bool := negb (overlaps_from [] t).

Definition count_ops (p : op -> bool) (t : list (nat * op)) : nat :=
  length (filter (fun wo => p (snd wo)) t).

(** The program of a worker that synchronises once per flag in [dones]. *)
Definition sync_program (dones : list bool) : list op :=
  concat (map sync_ops dones).

(** ** A small instance to run the definitions on *)

Definition toy_policy (net : network) (s : Z) : list dual :=
  [const 0; const 0; const 0; const 0].

Definition toy_value (net : network) (s : Z) : dual :=
  match net with
  | (_, p) :: _ => mkDual (hd 0%Q (data p)) 1
  | [] => const 0
  end.

Definition toy_log_softmax (row : list dual) (a : Z) : result dual :=
  if (0 <=? a) && (a <? Z.of_nat (length row))
  then Ok (mkDual (-1) 1) else Raise RuntimeError.

Definition toy_backward (net : network) (bs : list Z) (ba : list Z)
  (targets : list Q) : list (list Q) :=
  map (fun kp => map (fun _ => 1%Q) (data (snd kp))) net.

Definition toy_rmsprop (slot : nat) (d g : list Q) : nat * list Q :=
  (S slot, map2 (fun x y => Qred (x - (1 # 10) * y)) d g).

Definition toy_net : network :=
  [("v"%string, mkParam [1 # 2]%Q None);
   ("pi"%string, mkParam [0; 0]%Q None)].

Definition toy_a3c : A3C nat := mkA3C (9 # 10)%Q toy_net [O; O] 0 0%Q [].

(** An environment that never reports [done], and one whose every
    episode ends on its third step. *)
Definition endless_reset (e : Z) : Z * Z := (0, 0).
Definition endless_step (e : Z) (a : Z) : Z * (Z * Q * bool) :=
  (e + 1, (e + 1, 1%Q, false)).
Definition short_step (e : Z) (a : Z) : Z * (Z * Q * bool) :=
  (e + 1, (e + 1, 1%Q, 3 <=? e + 1)).

(** A sampler that walks through the indices 0, 1, 2, 3. *)
Definition toy_sample (net : network) (s : Z) (rng : nat) : nat * nat :=
  ((rng mod 4)%nat, S rng).

Definition toy_run (v : variant) (step : Z -> Z -> Z * (Z * Q * bool))
  (max_eps update_global_delay : Z) (fuel : nat) :=
  spawned_run Z Z nat nat v toy_policy toy_value toy_log_softmax toy_backward
              toy_rmsprop endless_reset step 3 toy_sample "w0"
              max_eps update_global_delay fuel 0 toy_net toy_a3c O.

(** ** Predicates on the worker's log *)

(** The three buffers grow together. *)
Definition buffers_aligned {Obs : Type} (ev : epvars Obs) : Prop :=
  length (buffer_s ev) = length (buffer_a ev) /\
  length (buffer_a ev) = length (buffer_r ev).

(** Is the newest event a synchronisation? *)
Definition last_is_sync {Obs : Type} (log : list (event Obs)) : bool :=
  match rev log with
  | EvSync _ _ _ _ _ :: _ => true
  | _ => false
  end.

(** An action passed to [env.step] is in range, and is the sampled one
    unless that was too large. *)
Definition step_in_range {Obs : Type} (n_actions : Z) (e : event Obs) : Prop :=
  match e with
  | EvStep action passed =>
      0 <= passed < n_actions /\
      (n_actions <= action -> passed = 0) /\
      (action < n_actions -> passed = action)
  | _ => True
  end.

(** A synchronisation carries at least one triple, in aligned buffers. *)
Definition sync_nonempty {Obs : Type} (e : event Obs) : Prop :=
  match e with
  | EvSync _ _ bs ba br =>
      bs <> [] /\ ba <> [] /\ br <> [] /\
      length bs = length ba /\ length ba = length br
  | _ => True
  end.

(** Was the last thing before the closing [checkpoint] a synchronisation? *)
Definition synced_at_cap {Obs : Type} (log : list (event Obs)) : bool :=
  match rev log with
  | EvCheckpoint _ :: EvSync _ _ _ _ _ :: _ => true
  | _ => false
  end.

(** ** More of the small instance *)

Definition toy_sync (conv : bool) :=
  (if conv
   then sync_conv Z toy_policy toy_value toy_log_softmax toy_backward nat toy_rmsprop
   else sync Z toy_policy toy_value toy_log_softmax toy_backward nat toy_rmsprop)
    toy_a3c toy_net false 2 [0; 1] [0; 1] [1; 1]%Q.

(** A worker as the coordinator builds it (cap 1000), synchronising every
    3 steps, budget of one episode, in the environment that never ends. *)
Definition capped_run := toy_run Base endless_step 1 3 5.

Definition toy_episode (v : variant) (max_length delay : Z) :=
  wired_episode Z Z nat nat v toy_policy toy_value toy_log_softmax
                toy_backward toy_rmsprop endless_reset endless_step 3
                toy_sample "w0" max_length delay
                (mkW 0 toy_net toy_a3c O 1 []).

Definition toy_record : ResultRecord :=
  mkRecord "w0" 1 None 2
           (Some (mkDiag (const 1) (const 1) (const 0) (const 0) 2)).

(** The calls of [self.record] for a run of records: each with the tally
    after its own increment. *)
Fixpoint numbered (episode : Z) (rs : list ResultRecord)
  : list (Z * ResultRecord) :=
  match rs with
  | [] => []
  | r :: rs' => (episode + 1, r) :: numbered (episode + 1) rs'
  end.

(** Two workers that find the episode budget used up: each puts its
    sentinel and ends. *)
Definition two_idle_workers : A3C nat :=
  let first := toy_run Base endless_step 0 20 1 in
  let second :=
    spawned_run Z Z nat nat Base toy_policy toy_value toy_log_softmax
                toy_backward toy_rmsprop endless_reset endless_step 3
                toy_sample "w1" 0 20 1 0 toy_net (w_world (fst first)) O in
  w_world (fst second).

(** How many operations picked out by [p] the programs hold. *)
Definition total_ops (p : op -> bool) (progs : list (list op)) : nat :=
  fold_right (fun prog n => (length (filter p prog) + n)%nat) O progs.

(** ** The pieces of one pass of the worker's loop, by name *)

Arguments total_loss {Obs}.
Arguments total_value_loss {Obs}.
Arguments total_policy_loss {Obs}.
Arguments total_advantage {Obs}.

(** [action if action < self.env.n_actions else 0] *)
Definition clamp (n_actions a : Z) : Z := if a <? n_actions then a else 0.

(** [if done: r = -1] *)
Definition recorded_reward (done : bool) (r0 : Q) : Q :=
  if done then (-1)%Q else r0.

(** The loop variables after the three appends. *)
Definition stepped {Obs : Type} (ev : epvars Obs) (action : Z) (r : Q)
  : epvars Obs :=
  mkEp (buffer_s ev ++ [state ev]) (buffer_a ev ++ [action])
       (buffer_r ev ++ [r]) (episode_reward ev + r)%Q
       (episode_step ev) (state ev)
       (total_loss ev) (total_value_loss ev) (total_policy_loss ev)
       (total_advantage ev) (grad_updates ev).

(** The loop variables at the start of an episode. *)
Definition fresh_episode {Obs : Type} (s0 : Obs) : epvars Obs :=
  mkEp [] [] [] 0%Q 0 s0 (const 0) (const 0) (const 0) (const 0) 0.

(** ** Further predicates on the worker's log *)

(** A synchronisation made on a terminal step ends its rewards with the
    penalty. *)
Definition terminal_reward_overridden {Obs : Type} (e : event Obs) : Prop :=
  match e with
  | EvSync true _ _ _ br => exists br0, br = br0 ++ [(-1)%Q]
  | _ => True
  end.

(** A synchronisation carries at most [d] triples. *)
Definition sync_within {Obs : Type} (d : Z) (e : event Obs) : Prop :=
  match e with
  | EvSync _ _ bs ba br =>
      Z.of_nat (length bs) <= d /\ Z.of_nat (length ba) <= d /\
      Z.of_nat (length br) <= d
  | _ => True
  end.

(** Both of the above, for a delay [d] (the bound only when [d] is
    positive). *)
Definition log_facts_for {Obs : Type} (d : Z) (e : event Obs) : Prop :=
  terminal_reward_overridden e /\ (0 < d -> sync_within d e).

(** At the head of a pass: the log is fine, the buffers are aligned and
    shorter than the distance to the next multiple of the delay. *)
Definition head_ok_for {E Obs Net W R : Type} (d : Z)
  (ws : wstate E Obs Net W R) (ev : epvars Obs) : Prop :=
  Forall (log_facts_for d) (w_log ws) /\
  buffers_aligned ev /\
  (0 < d -> Z.of_nat (length (buffer_a ev)) <= (w_thread_step ws - 1) mod d).

(** Reading a log from the oldest event on: the sampled actions since the
    last synchronisation or reset, provided every synchronisation so far
    carried exactly the actions pending at its time. *)
Definition replay_event {Obs : Type} (st : option (list Z)) (e : event Obs)
  : option (list Z) :=
  match st with
  | None => None
  | Some pending =>
      match e with
      | EvReset => Some []
      | EvStep action _ => Some (pending ++ [action])
      | EvSync _ _ _ ba _ =>
          if list_eq_dec Z.eq_dec ba pending then Some [] else None
      | _ => Some pending
      end
  end.

Definition replay {Obs : Type} (log : list (event Obs)) : option (list Z) :=
  fold_left replay_event log (Some []).

(** The number of environment steps in a log. *)
Definition steps_taken {Obs : Type} (log : list (event Obs)) : nat :=
  length (filter (fun e => match e with EvStep _ _ => true | _ => false end) log).

(** Did the episode that the log ends with stop on a terminal step? *)
Definition ended_by_done {Obs : Type} (log : list (event Obs)) : bool :=
  match rev log with
  | EvCheckpoint _ :: EvSync true _ _ _ _ :: _ => true
  | _ => false
  end.

(** Is the newest event a synchronisation made on a terminal step? *)
Definition last_sync_terminal {Obs : Type} (log : list (event Obs)) : bool :=
  match rev log with
  | EvSync true _ _ _ _ :: _ => true
  | _ => false
  end.

(** At the head of a pass of the inner loop of an episode that began when
    the log held [c0] steps: one step per unit of [episode_step]. *)
Definition steps_counted {E Obs Net W R : Type} (c0 max_length : Z)
  (ws : wstate E Obs Net W R) (ev : epvars Obs) : Prop :=
  Z.of_nat (steps_taken (w_log ws)) = c0 + episode_step ev /\
  0 <= episode_step ev <= Z.max 0 max_length /\
  last_sync_terminal (w_log ws) = false.

(** When the inner loop has ended: a terminal step is the one step that
    [episode_step] does not count. *)
Definition steps_reported {E Obs Net W R : Type} (c0 max_length : Z)
  (ws : wstate E Obs Net W R) (ev : epvars Obs) : Prop :=
  Z.of_nat (steps_taken (w_log ws))
  = c0 + episode_step ev + (if last_sync_terminal (w_log ws) then 1 else 0) /\
  0 <= episode_step ev <= Z.max 0 max_length.

(** ** What a worker leaves on the queue *)

(** A record as worker [name] of variant [v] queues it: the base variant
    numbers the episode and sends no diagnostics, the richer one sends
    diagnostics and no number. *)
Definition record_from (v : variant) (name : string) (r : ResultRecord) : Prop :=
  worker_name r = name /\
  match v with
  | Base => diag r = None /\ episode_no r <> None
  | Conv => diag r <> None /\ episode_no r = None
  end.

(** The sentinel is put only by a worker that ends normally. *)
Definition sentinel_after (out : outcome) : list (option ResultRecord) :=
  match out with
  | Finished => [None]
  | _ => []
  end.

(** One episode of the small richer worker where the third step is
    terminal. *)
Definition toy_short_episode :=
  wired_episode Z Z nat nat Conv toy_policy toy_value toy_log_softmax
                toy_backward toy_rmsprop endless_reset short_step 3
                toy_sample "w0" 1000 2 (mkW 0 toy_net toy_a3c O 1 []).

(** ** Architecture of a network *)

Definition names (net : network) : list string := map fst net.
Definition shapes (net : network) : list nat :=
  map (fun kp => length (data (snd kp))) net.
Definition grads (net : network) : list (option (list Q)) :=
  map (fun kp => grad (snd kp)) net.

(** Two networks built from the same [Model] class with the same
    dimensions: the same parameter names and sizes, in the same order. *)
Definition same_architecture (a b : network) : Prop :=
  names a = names b /\ shapes a = shapes b.

(** The last line of [Worker.__init__]:
    [self.local_network.load_state_dict(global_network.state_dict())]. *)
Definition Worker_init (local_network global_network : network)
  : network * result unit :=
  load_state_dict local_network (state_dict global_network).

(** What the optimiser step makes of the shared parameters when the k-th
    of them is given the k-th gradient. *)
Fixpoint stepped_data {OptSlot : Type}
  (rmsprop : OptSlot -> list Q -> list Q -> OptSlot * list Q)
  (opt : list OptSlot) (global : network) (gs : list (list Q))
  : list (list Q) :=
  match opt, global, gs with
  | slot :: opt', (_, p) :: global', g :: gs' =>
      snd (rmsprop slot (data p) g) :: stepped_data rmsprop opt' global' gs'
  | _, _, _ => []
  end.

(** ** Mutual exclusion on a merged trace *)

(** The locks worker [w] holds. *)
Definition locks_of (w : nat) (held : list (lock * nat)) : list lock :=
  map fst (filter (fun h => (snd h =? w)%nat) held).

(** Replaying a merged trace with the locks: is every operation picked out
    by [crit] run by a worker that holds [l] at that moment, and that is
    the only one to hold it? *)
Fixpoint exclusive_from (held : list (lock * nat)) (l : lock)
  (crit : op -> bool) (t : list (nat * op)) : bool :=
  match t with
  | [] => true
  | (w, o) :: t' =>
      match lock_step held w o with
      | None => false
      | Some held' =>
          match o with
          | OpAcquire _ | OpRelease _ => true
          | _ =>
              negb (crit o)
              || (existsb (fun h => lock_eqb l (fst h) && (snd h =? w)%nat) held
                  && forallb (fun h => negb (lock_eqb l (fst h))
                                       || (snd h =? w)%nat) held)
          end
          && exclusive_from held' l crit t'
      end
  end.

Definition is_incr (o : op) : bool :=
  match o with OpIncrCounter => true | _ => false end.

Definition is_set_reward (o : op) : bool :=
  match o with OpSetReward => true | _ => false end.

(** The program of a worker that reports [n] episodes. *)
Definition checkpoint_program (n : nat) : list op :=
  concat (repeat checkpoint_ops n).

(** ** The factories [A3C.__init__] uses *)

(** [env_factory[0]() if type(env_factory) is list else env_factory()]:
    the factory of the temporary environment. *)
Definition temp_factory {X : Type} (env_factory : factories X) : result X :=
  match env_factory with
  | Single f => Ok f
  | Several fs => py_index fs 0
  end.

(** The list comprehension that builds the workers: one draw per worker
    of [range(n_workers)], in order; the first error ends it. *)
Definition init_workers {X : Type} (v : variant) (env_factory : factories X)
  (n_workers : nat) : result (list (list X)) :=
  map_result (fun _ : nat =>
                match v with
                | Base => worker_factory env_factory
                | Conv => worker_factory_conv env_factory
                end)
             (seq 0 n_workers).

(** What [A3C.__init__] does with [env_factory]: the temporary
    environment first, the workers last.  The calls in between (the
    network, the optimiser, the loading) are taken to return. *)
Definition init_factories {X : Type} (v : variant) (env_factory : factories X)
  (n_workers : nat) : result (X * list (list X)) :=
  temp <- temp_factory env_factory ;;
  ws <- init_workers v env_factory n_workers ;;
  Ok (temp, ws).

(** ** The values behind the operations of [checkpoint] *)

(** The shared counter and reward, and the records queued: who put the
    record, and the reward and the episode number it carries. *)
Record shared_values : Type := mkShared {
  sh_counter : Z;
  sh_reward : Q;
  sh_queue : list (nat * Q * Z)
}.

(** One operation of worker [w], whose call has the argument
    [episode_reward w].  The record is built when it is put: it reads
    [self.global_ep_reward.value] and (in a3c.py)
    [self.global_ep_counter.value] at that moment, outside the locks. *)
Definition exec_op (episode_reward : nat -> Q) (s : shared_values)
  (wo : nat * op) : shared_values :=
  match snd wo with
  | OpIncrCounter =>
      mkShared (wrap_int32 (sh_counter s + 1)) (sh_reward s) (sh_queue s)
  | OpSetReward =>
      mkShared (sh_counter s) (episode_reward (fst wo)) (sh_queue s)
  | OpPut =>
      mkShared (sh_counter s) (sh_reward s)
               (sh_queue s ++ [(fst wo, sh_reward s, sh_counter s)])
  | _ => s
  end.

Definition exec_trace (episode_reward : nat -> Q) (t : list (nat * op))
  (s : shared_values) : shared_values :=
  fold_left (exec_op episode_reward) t s.

(** The queue of a worker's world has only grown since it was [q0], by
    records of the worker [name]. *)
Definition queue_grown_for {E Obs R OptSlot : Type} (v : variant)
  (name : string) (q0 : list (option ResultRecord))
  (ws : wstate E Obs network (A3C OptSlot) R) : Prop :=
  exists recs,
    res_queue (w_world ws) = q0 ++ map Some recs /\
    Forall (record_from v name) recs.

(** ** Episodes that run into the cap *)

(** At the head of a pass of the inner loop of an episode that began at
    thread step [t0]: no terminal step so far, one thread step per unit
    of [episode_step], and the newest event is a synchronisation exactly
    when a step was taken and the thread step of that step was a multiple
    of the delay [d]. *)
Definition cap_counted {E Obs Net W R : Type} (t0 max_length d : Z)
  (ws : wstate E Obs Net W R) (ev : epvars Obs) : Prop :=
  w_thread_step ws = t0 + episode_step ev /\
  0 <= episode_step ev <= Z.max 0 max_length /\
  last_sync_terminal (w_log ws) = false /\
  (last_is_sync (w_log ws) = true <->
   0 < episode_step ev /\ (w_thread_step ws - 1) mod d = 0).

(** When the inner loop has ended: unless it ended on a terminal step,
    it ran [max_length] passes. *)
Definition cap_reached {E Obs Net W R : Type} (t0 max_length d : Z)
  (ws : wstate E Obs Net W R) (ev : epvars Obs) : Prop :=
  last_sync_terminal (w_log ws) = false ->
  episode_step ev = Z.max 0 max_length /\
  w_thread_step ws = t0 + episode_step ev /\
  (last_is_sync (w_log ws) = true <->
   0 < episode_step ev /\ (w_thread_step ws - 1) mod d = 0).

(** One episode of the small richer worker with a cap of two steps, in
    the environment whose third step would be terminal. *)
Definition toy_cut_episode :=
  wired_episode Z Z nat nat Conv toy_policy toy_value toy_log_softmax
                toy_backward toy_rmsprop endless_reset short_step 3
                toy_sample "w0" 2 2 (mkW 0 toy_net toy_a3c O 1 []).

(** ** Several processes synchronising on one shared memory *)

(** Programs of any kind merged under a schedule (the worker to move at
    each instant), when no lock is involved. *)
Fixpoint interleave {X : Type} (progs : list (list X)) (sched : list nat)
  : option (list (nat * X)) :=
  match sched with
  | [] => if forallb (fun p => match p with [] => true | _ => false end) progs
          then Some [] else None
  | w :: sched' =>
      match nth_error progs w with
      | Some (x :: p) =>
          option_map (cons (w, x)) (interleave (set_nth w p progs) sched')
      | _ => None
      end
  end.

Section SharedMemory.
Variable Obs : Type.
Variable backward : network -> list Obs -> list Z -> list Q -> list (list Q).
Variable OptSlot : Type.
Variable rmsprop : OptSlot -> list Q -> list Q -> OptSlot * list Q.

(** Steps 4 to 7 of a call of [sync], as the places where the call
    touches memory.  [zero_grad], [backward] and the transplant work on
    objects of the calling process (its local network and its own
    gradient slots for the shared parameters); [optimizer.step()] reads
    and then writes what the processes share; [load_state_dict] reads
    it. *)
Inductive access : Type :=
| AccGrad (bs : list Obs) (ba : list Z) (buffer_v_target : list Q)
| AccStepRead
| AccStepWrite
| AccLoad.

(** Modelled from the spec: the update counter [mem_updates] of the
    shared optimiser.  The class [SharedRMSprop] belongs to the
    repository's [utils] module, whose source is not at hand; the spec
    has the steps of the shared optimiser counted by "instrumenting the
    update counter".  The other two fields are [self.global_network] and
    the per-parameter state of [self.optimizer], as in [A3C]. *)
Record memory : Type := mkMem {
  mem_net : network;
  mem_opt : list OptSlot;
  mem_updates : Z
}.

(** A worker process while it synchronises. *)
Record process : Type := mkProc {
  p_local : network;          (* [self.local_network] of the worker *)
  p_read : option memory;     (* what a step in progress has read *)
  p_status : result unit      (* [Raise] once a call of the worker raised *)
}.

(** Modelled from the spec: [SharedRMSprop.step] (module [utils], source
    not at hand) as the read-modify-write the spec describes ("the
    optimizer step is not safely interleavable -- concurrent unlocked
    steps can corrupt momentum/second-moment accumulators or produce
    lost updates").  Here the read: the process takes in the shared
    parameters, the optimiser state and the update counter. *)
Definition step_read (m : memory) (p : process) : process :=
  mkProc (p_local p) (Some m) (p_status p).

(** Modelled from the spec: the write that ends [SharedRMSprop.step]
    (module [utils], source not at hand).  From what it has read and
    from the gradients that the transplant took from its local network,
    the process computes the new parameters and optimiser state with
    [optimizer_step], adds one to the update counter it has read, and
    stores all three. *)
Definition step_write (m : memory) (p : process) : memory * process :=
  match p_read p with
  | Some r =>
      let '(opt', net') :=
        optimizer_step OptSlot rmsprop (mem_opt r)
                       (transplant (p_local p) (zero_grad (mem_net r))) in
      (mkMem net' opt' (mem_updates r + 1),
       mkProc (p_local p) None (p_status p))
  | None => (m, p)
  end.

(** One access of a process.  A process whose call has raised has
    stopped: nothing more happens in it. *)
Definition access_step (m : memory) (p : process) (a : access)
  : memory * process :=
  match p_status p with
  | Raise _ => (m, p)
  | Ok _ =>
      match a with
      | AccGrad bs ba buffer_v_target =>
          (m, mkProc (set_grads (p_local p)
                                (backward (p_local p) bs ba buffer_v_target))
                     (p_read p) (p_status p))
      | AccStepRead => (m, step_read m p)
      | AccStepWrite => step_write m p
      | AccLoad =>
          let '(local', r) :=
            load_state_dict (p_local p) (state_dict (mem_net m)) in
          (m, mkProc local' (p_read p) r)
      end
  end.

(** The shared memory and the processes, and one access of process [w]. *)
Definition machine : Type := memory * list process.

Definition access_by (s : machine) (wa : nat * access) : machine :=
  match nth_error (snd s) (fst wa) with
  | Some p =>
      let '(m', p') := access_step (fst s) p (snd wa) in
      (m', set_nth (fst wa) p' (snd s))
  | None => s
  end.

Definition exec_accesses (t : list (nat * access)) (s : machine) : machine :=
  fold_left access_by t s.

(** The accesses of one call, given the trajectory and the targets the
    call has computed on its own, and of a worker that makes several
    calls. *)
Definition call_accesses (c : list Obs * list Z * list Q) : list access :=
  let '(bs, ba, buffer_v_target) := c in
  [AccGrad bs ba buffer_v_target; AccStepRead; AccStepWrite; AccLoad].

Definition calls_program (cs : list (list Obs * list Z * list Q))
  : list access :=
  concat (map call_accesses cs).

Definition is_write (a : access) : bool :=
  match a with AccStepWrite => true | _ => false end.

(** How many steps a trace completes. *)
Definition writes_in (t : list (nat * access)) : nat :=
  length (filter (fun wa => is_write (snd wa)) t).

(** Does every step in the trace run by itself: its write right after
    its read, nothing of another step in between? *)
Fixpoint steps_apart (t : list (nat * access)) : bool :=
  match t with
  | [] => true
  | (w, a) :: t1 =>
      match a with
      | AccStepRead =>
          match t1 with
          | (w', AccStepWrite) :: t2 => (w =? w')%nat && steps_apart t2
          | _ => false
          end
      | AccStepWrite => false
      | _ => steps_apart t1
      end
  end.

(** Every process is still running. *)
Definition all_running (ps : list process) : Prop :=
  Forall (fun p => p_status p = Ok tt) ps.

(** No process is in the middle of a step. *)
Definition none_stepping (ps : list process) : Prop :=
  Forall (fun p => p_read p = None) ps.

End SharedMemory.

Arguments AccGrad {Obs} bs ba buffer_v_target.
Arguments AccStepRead {Obs}.
Arguments AccStepWrite {Obs}.
Arguments AccLoad {Obs}.
Arguments mkMem {OptSlot}.
Arguments mem_net {OptSlot}.
Arguments mem_opt {OptSlot}.
Arguments mem_updates {OptSlot}.
Arguments mkProc {OptSlot}.
Arguments p_local {OptSlot}.
Arguments p_read {OptSlot}.
Arguments p_status {OptSlot}.
Arguments call_accesses {Obs}.
Arguments calls_program {Obs}.
Arguments is_write {Obs}.
Arguments writes_in {Obs}.
Arguments steps_apart {Obs}.
Arguments all_running {OptSlot}.
Arguments none_stepping {OptSlot}.

(** Two small processes on the small shared network, each making the
    same call. *)
Definition toy_mem : memory nat := mkMem toy_net [O; O] 0.
Definition toy_proc : process nat := mkProc toy_net None (Ok tt).
Definition toy_call : list Z * list Z * list Q := ([0; 1], [0; 1], [1; 1]%Q).

Definition toy_exec (t : list (nat * access Z)) : machine nat :=
  exec_accesses Z toy_backward nat toy_rmsprop t (toy_mem, [toy_proc; toy_proc]).

(** Both steps read before either writes. *)
Definition racing_steps : list (nat * access Z) :=
  [(0%nat, AccGrad [0; 1] [0; 1] [1; 1]%Q); (1%nat, AccGrad [0; 1] [0; 1] [1; 1]%Q);
   (0%nat, AccStepRead); (1%nat, AccStepRead); (0%nat, AccStepWrite); (1%nat, AccStepWrite);
   (0%nat, AccLoad); (1%nat, AccLoad)].

(** The steps run one after the other; the first process loads after the
    second has stepped. *)
Definition late_load : list (nat * access Z) :=
  [(0%nat, AccGrad [0; 1] [0; 1] [1; 1]%Q); (0%nat, AccStepRead); (0%nat, AccStepWrite);
   (1%nat, AccGrad [0; 1] [0; 1] [1; 1]%Q); (1%nat, AccStepRead); (1%nat, AccStepWrite);
   (0%nat, AccLoad); (1%nat, AccLoad)].

(** One call after the other. *)
Definition calls_in_turn : list (nat * access Z) :=
  [(0%nat, AccGrad [0; 1] [0; 1] [1; 1]%Q); (0%nat, AccStepRead); (0%nat, AccStepWrite);
   (0%nat, AccLoad);
   (1%nat, AccGrad [0; 1] [0; 1] [1; 1]%Q); (1%nat, AccStepRead); (1%nat, AccStepWrite);
   (1%nat, AccLoad)].

(** How many items picked out by [p] the programs hold, for programs of
    any kind. *)
Definition total_of {X : Type} (p : X -> bool) (progs : list (list X)) : nat :=
  fold_right (fun prog n => (length (filter p prog) + n)%nat) O progs.

(** The update counter that memory and every step in progress have seen
    is at most [c]. *)
Definition updates_below {OptSlot : Type} (c : Z) (s : machine OptSlot) : Prop :=
  mem_updates (fst s) <= c /\
  Forall (fun p => match p_read p with
                   | Some r => mem_updates r <= c
                   | None => True
                   end) (snd s).

(** The first process after a call of its own that ran alone. *)
Definition toy_loaded : process nat :=
  mkProc [("v"%string, mkParam [2 # 5]%Q (Some [1]%Q));
          ("pi"%string, mkParam [-1 # 10; -1 # 10]%Q (Some [1; 1]%Q))]
         None (Ok tt).

(** * Properties *)

(** ** The return estimator *)

Section ReturnEstimatorFacts.
Context {A : Type} (zero : A) (add mul : A -> A -> A).

Lemma backup_snoc gamma xs r st :
  backup add mul gamma (xs ++ [r]) st =
  let st' := backup add mul gamma xs st in
  let R := add r (mul gamma (fst st')) in (R, snd st' ++ [R]).
Proof.
  revert st; induction xs as [|x xs IH]; intros st; simpl; [reflexivity|].
  apply IH.
Qed.

Lemma backup_rev gamma B br :
  let st := backup add mul gamma (rev br) (B, []) in
  rev (snd st) = returns_from add mul gamma B br /\
  fst st = hd B (returns_from add mul gamma B br).
Proof.
  induction br as [|r br IH]; simpl; [split; reflexivity|].
  rewrite backup_snoc; cbn zeta; simpl.
  destruct IH as [IHl IHr].
  rewrite rev_app_distr; simpl.
  rewrite IHl, IHr. split; reflexivity.
Qed.

Lemma v_target_returns_from gamma done V br :
  v_target zero add mul gamma done V br
  = returns_from add mul gamma (bootstrap zero done V) br.
Proof. unfold v_target. apply (backup_rev gamma (bootstrap zero done V) br). Qed.

Lemma returns_from_length gamma B br :
  length (returns_from add mul gamma B br) = length br.
Proof. induction br; simpl; congruence. Qed.
End ReturnEstimatorFacts.

Lemma qsum_scale g xs :
  (qsum (map (Qmult g) xs) == g * qsum xs)%Q.
Proof.
  induction xs as [|x xs IH]; simpl; [ring|]. rewrite IH. ring.
Qed.

Lemma discounted_cons gamma B r br :
  (discounted gamma B (r :: br) 0 == r + gamma * discounted gamma B br 0)%Q.
Proof.
  unfold discounted. simpl length. rewrite !Nat.sub_0_r.
  simpl seq. simpl map. simpl qsum.
  rewrite <- seq_shift, map_map.
  assert (E : (qsum (map (fun j => qpow gamma (S j - 0) * nth (S j) (r :: br) 0)
                       (seq 0 (length br)))
               == gamma * qsum (map (fun j => qpow gamma (j - 0) * nth j br 0)
                                  (seq 0 (length br))))%Q).
  { rewrite <- qsum_scale, map_map.
    induction (seq 0 (length br)) as [|j js IH]; simpl; [reflexivity|].
    rewrite IH. rewrite !Nat.sub_0_r. ring. }
  rewrite E. simpl. ring.
Qed.

Lemma discounted_shift gamma B r br i :
  discounted gamma B (r :: br) (S i) = discounted gamma B br i.
Proof.
  unfold discounted. simpl length. simpl Nat.sub.
  rewrite <- seq_shift, map_map. reflexivity.
Qed.

Lemma returns_from_hd gamma B br :
  (hd B (returns_from Qplus Qmult gamma B br) == discounted gamma B br 0)%Q.
Proof.
  induction br as [|r br IH].
  - unfold discounted; simpl. ring.
  - simpl. rewrite discounted_cons, IH. reflexivity.
Qed.

Lemma returns_from_nth gamma B br i :
  (i < length br)%nat ->
  (nth i (returns_from Qplus Qmult gamma B br) 0 == discounted gamma B br i)%Q.
Proof.
  revert i; induction br as [|r br IH]; intros i Hi; simpl in Hi; [lia|].
  destruct i as [|i].
  - simpl nth. rewrite discounted_cons, returns_from_hd. reflexivity.
  - simpl nth. rewrite discounted_shift. apply IH. lia.
Qed.

(** C1. The return estimator of [A3C.sync] yields as many returns as there
    are rewards, the [i]-th being the discounted sum
    [r_i + gamma r_{i+1} + ... + gamma^(k-1-i) r_{k-1} + gamma^(k-i) B]
    with [B = 0] on a terminal cut and [B = V] otherwise; rewards [1,1,1]
    with [gamma = 0.5] on a terminal cut give [1.75, 1.5, 1.0]. *)
Theorem return_estimator_closed_form :
  (forall (br : list Q) (gamma : Q) (done : bool) (V : Q),
      length (v_targetQ gamma done V br) = length br /\
      forall i, (i < length br)%nat ->
        (nth i (v_targetQ gamma done V br) 0
         == discounted gamma (if done then 0 else V) br i)%Q) /\
  (forall V, Forall2 Qeq (v_targetQ (1 # 2) true V [1; 1; 1]%Q)
                         [7 # 4; 3 # 2; 1]%Q).
Proof.
  split.
  - intros br gamma done V. unfold v_targetQ.
    rewrite v_target_returns_from. split.
    + apply returns_from_length.
    + intros i Hi. rewrite returns_from_nth by exact Hi.
      destruct done; reflexivity.
  - intros V. repeat constructor.
Qed.

(** The same three rewards on IEEE doubles, as Python computes them: no
    rounding occurs. *)
Lemma return_estimator_on_doubles V :
  v_targetF 0.5%float true V [1; 1; 1]%float = [1.75; 1.5; 1]%float.
Proof. vm_compute. reflexivity. Qed.

Lemma return_estimator_closed_form_witness :
  (1 < length [1; 1; 1]%Q)%nat /\
  (nth 1 (v_targetQ (1 # 2) false 4 [1; 1; 1]%Q) 0
   == discounted (1 # 2) 4 [1; 1; 1]%Q 1)%Q.
Proof.
  split; [simpl; lia|].
  apply (proj2 (proj1 return_estimator_closed_form [1; 1; 1]%Q (1 # 2)%Q false 4%Q)).
  simpl; lia.
Defined.

(** ** The loss *)

(** *** Broadcasting lemmas *)

Lemma zip_with_total {X Y Z} (f : X -> Y -> Z) xs ys :
  length xs = length ys ->
  zip_with (fun x y => Ok (f x y)) xs ys = Ok (map2 f xs ys).
Proof.
  revert ys; induction xs as [|x xs IH]; intros [|y ys] H; simpl in *;
    try discriminate; [reflexivity|].
  rewrite IH by congruence. reflexivity.
Qed.

Lemma bcast_same {X Y Z} (f : X -> Y -> result Z) xs ys :
  length xs = length ys -> bcast f xs ys = zip_with f xs ys.
Proof. intros H. unfold bcast. rewrite H, Nat.eqb_refl. reflexivity. Qed.

Lemma zip_with_singletons (f : dual -> dual -> dual) xs ys :
  length xs = length ys ->
  zip_with (bcast (fun x y => Ok (f x y)))
           (map (fun x => [x]) xs) (map (fun y => [y]) ys)
  = Ok (map (fun z => [z]) (map2 f xs ys)).
Proof.
  revert ys; induction xs as [|x xs IH]; intros [|y ys] H; simpl in *;
    try discriminate; [reflexivity|].
  rewrite IH by congruence. reflexivity.
Qed.

Lemma lift2_columns f xs ys :
  length xs = length ys ->
  lift2 f (column xs) (column ys) = Ok (column (map2 f xs ys)).
Proof.
  intros H. unfold column; simpl.
  rewrite bcast_same by (rewrite !length_map; exact H).
  rewrite zip_with_singletons by exact H. reflexivity.
Qed.

Lemma lift1_column f xs : lift1 f (column xs) = column (map f xs).
Proof. unfold column; simpl. rewrite !map_map. reflexivity. Qed.

Lemma concat_singletons {X} (xs : list X) :
  concat (map (fun x => [x]) xs) = xs.
Proof. induction xs; simpl; congruence. Qed.

Lemma forallb_singletons {X} (xs : list X) :
  forallb (fun row => (length row =? 1)%nat) (map (fun x => [x]) xs) = true.
Proof. induction xs; simpl; auto. Qed.

(** [squeeze] turns a column into a vector, and a 1x1 column into a
    scalar; multiplying a vector of the same length by either gives the
    element-wise product. *)
Lemma lift2_vector_squeezed_column f ls tds :
  length ls = length tds ->
  lift2 f (T1 ls) (squeeze (column tds)) = Ok (T1 (map2 f ls tds)).
Proof.
  intros H. destruct tds as [|t1 [|t2 tds]].
  - destruct ls; [reflexivity|discriminate].
  - destruct ls as [|l [|l' ls]]; try discriminate. reflexivity.
  - change (squeeze (column (t1 :: t2 :: tds)))
      with (if forallb (fun row => (length row =? 1)%nat)
                       (map (fun x => [x]) (t1 :: t2 :: tds))
            then T1 (concat (map (fun x => [x]) (t1 :: t2 :: tds)))
            else column (t1 :: t2 :: tds)).
    rewrite forallb_singletons, concat_singletons.
    unfold lift2. rewrite bcast_same by exact H.
    rewrite zip_with_total by exact H. reflexivity.
Qed.

Lemma zip_with_repeat_l (f : dual -> dual -> dual) c ys :
  zip_with (fun x y => Ok (f x y)) (repeat c (length ys)) ys
  = Ok (map (f c) ys).
Proof.
  induction ys as [|y ys IH]; simpl; [reflexivity|].
  rewrite IH. reflexivity.
Qed.

Lemma bcast_singleton_l (f : dual -> dual -> dual) c ys :
  bcast (fun x y => Ok (f x y)) [c] ys = Ok (map (f c) ys).
Proof.
  unfold bcast. destruct (Nat.eqb_spec (length [c]) (length ys)) as [E|E].
  - destruct ys as [|y [|y' ys]]; try discriminate. reflexivity.
  - apply zip_with_repeat_l.
Qed.

Lemma zip_with_rows_repeat (f : dual -> dual -> dual) cs ys :
  zip_with (bcast (fun x y => Ok (f x y)))
           (map (fun c => [c]) cs) (repeat ys (length cs))
  = Ok (map (fun c => map (f c) ys) cs).
Proof.
  induction cs as [|c cs IH]; simpl; [reflexivity|].
  rewrite bcast_singleton_l, IH. reflexivity.
Qed.

Lemma bcast_rows_vector (f : dual -> dual -> dual) cs ys :
  bcast (bcast (fun x y => Ok (f x y))) (map (fun c => [c]) cs) [ys]
  = Ok (map (fun c => map (f c) ys) cs).
Proof.
  destruct cs as [|c [|c' cs]].
  - reflexivity.
  - unfold bcast at 1. simpl. rewrite bcast_singleton_l. reflexivity.
  - unfold bcast at 1.
    replace (length (map (fun c0 => [c0]) (c :: c' :: cs)) =? length [ys])%nat
      with false by reflexivity.
    change (map (fun c0 => [c0]) (c :: c' :: cs))
      with ([c] :: [c'] :: map (fun c0 => [c0]) cs) at 1.
    cbv iota beta.
    rewrite length_map. apply zip_with_rows_repeat.
Qed.

(** A column (B, 1) plus a vector (B,) broadcasts to the B x B table of
    all pairwise sums. *)
Lemma lift2_column_vector f cs ys :
  lift2 f (column cs) (T1 ys) = Ok (T2 (map (fun c => map (f c) ys) cs)).
Proof.
  unfold column, lift2. rewrite bcast_rows_vector. reflexivity.
Qed.

(** *** The mean of the broadcast table *)

Lemma nQ_succ n : (nQ (S n) == 1 + nQ n)%Q.
Proof.
  unfold nQ. rewrite Nat2Z.inj_succ, <- Z.add_1_l, inject_Z_plus. reflexivity.
Qed.

Lemma nQ_mul n m : (nQ (n * m) == nQ n * nQ m)%Q.
Proof. unfold nQ. rewrite Nat2Z.inj_mul, inject_Z_mult. reflexivity. Qed.

Lemma nQ_nonzero n : (0 < n)%nat -> ~ (nQ n == 0)%Q.
Proof.
  intros H E. unfold nQ, Qeq in E. simpl in E. lia.
Qed.

Section Linear.
Variable phi : dual -> Q.
Hypothesis phi_add : forall a b, phi (dadd a b) = (phi a + phi b)%Q.
Hypothesis phi_zero : phi (const 0) = 0%Q.

Lemma phi_dsum xs : phi (dsum xs) = qsum (map phi xs).
Proof.
  induction xs as [|x xs IH]; simpl; [exact phi_zero|].
  rewrite phi_add, IH. reflexivity.
Qed.

Lemma qsum_row c ys :
  (qsum (map phi (map (dadd c) ys)) == nQ (length ys) * phi c + qsum (map phi ys))%Q.
Proof.
  induction ys as [|y ys IH].
  - simpl. unfold nQ; simpl. ring.
  - simpl length. rewrite nQ_succ. simpl. rewrite phi_add, IH. ring.
Qed.

Lemma qsum_app xs ys : (qsum (xs ++ ys) == qsum xs + qsum ys)%Q.
Proof. induction xs as [|x xs IH]; simpl; [ring|]. rewrite IH. ring. Qed.

Lemma qsum_table cs ys :
  (qsum (map phi (concat (map (fun c => map (dadd c) ys) cs)))
   == nQ (length ys) * qsum (map phi cs) + nQ (length cs) * qsum (map phi ys))%Q.
Proof.
  induction cs as [|c cs IH].
  - simpl. unfold nQ; simpl. ring.
  - simpl length. rewrite nQ_succ. simpl.
    rewrite map_app, qsum_app, qsum_row, IH. ring.
Qed.

Lemma qsum_map2 cs ys :
  length cs = length ys ->
  (qsum (map phi (map2 dadd cs ys)) == qsum (map phi cs) + qsum (map phi ys))%Q.
Proof.
  revert ys; induction cs as [|c cs IH]; intros [|y ys] H; simpl in *;
    try discriminate; [ring|].
  unfold map2 in IH. rewrite phi_add, IH by congruence. ring.
Qed.

Lemma phi_mean_table cs ys :
  length cs = length ys -> (0 < length cs)%nat ->
  (phi (dsum (concat (map (fun c => map (dadd c) ys) cs)))
     / nQ (length (concat (map (fun c => map (dadd c) ys) cs)))
   == phi (dsum (map2 dadd cs ys)) / nQ (length (map2 dadd cs ys)))%Q.
Proof.
  intros H Hpos.
  assert (Hlen1 : length (concat (map (fun c => map (dadd c) ys) cs))
                  = (length cs * length ys)%nat).
  { clear. induction cs as [|c cs IH]; simpl; [reflexivity|].
    rewrite length_app, length_map, IH. reflexivity. }
  assert (Hlen2 : length (map2 dadd cs ys) = length cs).
  { unfold map2. rewrite length_map, length_combine. lia. }
  rewrite Hlen1, Hlen2, nQ_mul, !phi_dsum, qsum_table, qsum_map2 by exact H.
  rewrite <- H. pose proof (nQ_nonzero _ Hpos) as Hnz.
  field; repeat split; try exact Hnz;
    intro E; apply Qmult_integral in E; destruct E as [E|E]; exact (Hnz E).
Qed.
End Linear.

Lemma mean_table cs ys :
  length cs = length ys -> (0 < length cs)%nat ->
  dual_eq (dmean (concat (map (fun c => map (dadd c) ys) cs)))
          (dmean (map2 dadd cs ys)).
Proof.
  intros H Hpos. split; unfold dmean, ddiv_nat; simpl.
  - apply (phi_mean_table val); auto.
  - apply (phi_mean_table tan); auto.
Qed.

Lemma zip_with_length {X Y Z} (f : X -> Y -> result Z) xs ys zs :
  zip_with f xs ys = Ok zs -> length zs = length xs.
Proof.
  revert ys zs; induction xs as [|x xs IH]; intros [|y ys] zs H; simpl in H;
    try discriminate.
  - injection H as <-. reflexivity.
  - destruct (f x y); simpl in H; [|discriminate].
    destruct (zip_with f xs ys) eqn:E; simpl in H; [|discriminate].
    injection H as <-. simpl. f_equal. eapply IH; eauto.
Qed.

Lemma sample_losses_unfold targets values logps :
  let tds := map2 dsub (map const targets) values in
  map2 dadd (map dpow2 tds)
            (map dneg (map2 dmul logps (map ddetach tds)))
  = map2 (fun tv l => sample_loss (fst tv) (snd tv) l)
         (combine targets values) logps.
Proof.
  cbv zeta. unfold map2.
  revert values logps; induction targets as [|t ts IH];
    intros [|v vs] [|l ls]; simpl; try reflexivity.
  f_equal. apply IH.
Qed.

Lemma map2_length {X Y Z} (f : X -> Y -> Z) xs ys :
  length (map2 f xs ys) = Nat.min (length xs) (length ys).
Proof. unfold map2. rewrite length_map, length_combine. reflexivity. Qed.

(** The steps shared by both variants of [loss_func], once the lengths of
    the batch agree and every action indexes its row of logits. *)
Ltac loss_steps Ha Ht Hz Hl :=
  unfold forward, target_column; cbv beta iota zeta;
  rewrite lift2_columns by (rewrite !length_map; lia); cbn [bind];
  unfold log_prob; rewrite bcast_same by (rewrite length_map; lia);
  rewrite Hz; cbn [rmap bind];
  rewrite lift1_column;
  rewrite lift2_vector_squeezed_column
    by (rewrite length_map, map2_length, !length_map; lia);
  cbn [bind]; rewrite !lift1_column; cbn [lift1];
  rewrite lift2_column_vector; cbn [bind].

(** C5. On a non-empty batch whose states, actions and target returns have
    the same length, [loss_func] (both variants) returns the mean over the
    batch of value loss plus policy loss, with advantage = target minus
    predicted value, value loss = advantage squared and policy loss =
    minus log-probability times the advantage; the derivative of the
    policy loss treats the advantage as a constant, that of the value loss
    does not. *)
Theorem loss_func_batch_mean
  (Net Obs : Type) (policy_head : Net -> Obs -> list dual)
  (value_head : Net -> Obs -> dual)
  (log_softmax_at : list dual -> Z -> result dual)
  (self : Net) (s : list Obs) (a : list Z) (targets : list Q)
  (logps : list dual) :
  (0 < length s)%nat -> length a = length s -> length targets = length s ->
  zip_with log_softmax_at (map (policy_head self) s) a = Ok logps ->
  (exists L,
      loss_func policy_head value_head log_softmax_at self s a
                (target_column targets) = Ok L /\
      dual_eq L (batch_loss targets (map (value_head self) s) logps)) /\
  (exists L mv mp ma,
      loss_func_conv policy_head value_head log_softmax_at self s a
                     (target_column targets) = Ok (L, mv, mp, ma) /\
      dual_eq L (batch_loss targets (map (value_head self) s) logps)) /\
  (forall t v l,
      (val (advantage_of t v) == t - val v)%Q /\
      (val (value_loss_of t v) == (t - val v) * (t - val v))%Q /\
      (val (policy_loss_of t v l) == - (val l * (t - val v)))%Q /\
      (tan (value_loss_of t v) == (2 # 1) * (t - val v) * (- tan v))%Q /\
      (tan (policy_loss_of t v l) == - (tan l * (t - val v)))%Q).
Proof.
  intros Hpos Ha Ht Hz.
  pose proof (zip_with_length _ _ _ _ Hz) as Hl. rewrite length_map in Hl.
  assert (Hmean :
    let tds := map2 dsub (map const targets) (map (value_head self) s) in
    dual_eq (dmean (concat (map (fun c => map (dadd c)
                       (map dneg (map2 dmul logps (map ddetach tds))))
                     (map dpow2 tds))))
            (batch_loss targets (map (value_head self) s) logps)).
  { cbv zeta. unfold batch_loss. rewrite <- sample_losses_unfold.
    apply mean_table;
      repeat (rewrite length_map || rewrite map2_length); lia. }
  split; [|split].
  - unfold loss_func. loss_steps Ha Ht Hz Hl.
    eexists; split; [reflexivity|]. exact Hmean.
  - unfold loss_func_conv. loss_steps Ha Ht Hz Hl.
    do 4 eexists; split; [reflexivity|]. exact Hmean.
  - intros t v l.
    unfold advantage_of, value_loss_of, policy_loss_of, advantage_of; simpl.
    repeat split; ring.
Qed.


(** ** The worker's loops *)

Section WorkerFacts.
Variables E Obs Net W R : Type.
Variable v : variant.
Variable name : string.
Variable env_reset : E -> E * Obs.
Variable env_step : E -> Z -> E * (Obs * Q * bool).
Variable n_actions : Z.
Variable sample : Net -> Obs -> R -> nat * R.
Variable synchronize :
  W -> Net -> bool -> Obs -> list Obs -> list Z -> list Q ->
  (W * Net) * result sync_ret.
Variable checkpoint_cb : W -> report -> W.
Variable counter_value : W -> Z.
Variable put_none : W -> W.
Variables max_eps max_length update_global_delay : Z.

Local Abbreviation body :=
  (step_body E Obs Net W R v env_step n_actions sample synchronize
             update_global_delay).
Local Abbreviation inner :=
  (episode_loop E Obs Net W R v env_step n_actions sample synchronize
                max_length update_global_delay).
Local Abbreviation episode :=
  (run_episode E Obs Net W R v name env_reset env_step n_actions sample
               synchronize checkpoint_cb max_length update_global_delay).
Local Abbreviation outer :=
  (run_loop E Obs Net W R v name env_reset env_step n_actions sample
            synchronize checkpoint_cb counter_value put_none
            max_eps max_length update_global_delay).

Lemma accumulate_fields ret (ev ev' : epvars Obs) :
  accumulate Obs v ret ev = Ok ev' ->
  buffer_s ev' = buffer_s ev /\ buffer_a ev' = buffer_a ev /\
  buffer_r ev' = buffer_r ev /\ episode_step ev' = episode_step ev /\
  state ev' = state ev /\ episode_reward ev' = episode_reward ev.
Proof.
  unfold accumulate. destruct v.
  - intros [= <-]. repeat split.
  - destruct ret as [[[[l a] b] c]|]; [|discriminate].
    intros [= <-]. repeat split.
Qed.

(** The shape of everything a pass of the body can add to the log. *)
Section LogInvariant.
Variable P : event Obs -> Prop.
Hypothesis P_step :
  forall i, P (EvStep (Z.of_nat i)
                      (if Z.of_nat i <? n_actions then Z.of_nat i else 0)).
Hypothesis P_sync :
  forall done s_ bs ba br,
    bs <> [] -> length bs = length ba -> length ba = length br ->
    P (EvSync done s_ bs ba br).
Hypothesis P_reset : P EvReset.
Hypothesis P_checkpoint : forall rep, P (EvCheckpoint rep).
Hypothesis P_put : P EvPutNone.

Lemma body_log ws ev :
  Forall P (w_log ws) -> buffers_aligned ev ->
  Forall P (w_log (fst (fst (body ws ev)))) /\
  buffers_aligned (snd (fst (body ws ev))).
Proof.
  intros Hlog [Hsa Har]. unfold step_body, choose_action.
  destruct (sample (w_net ws) (state ev) (w_rng ws)) as [i rng'].
  destruct (env_step (w_env ws) _) as [env' [[new_state r0] done]].
  assert (Hlog1 : Forall P (w_log ws ++
            [EvStep (Z.of_nat i)
                    (if Z.of_nat i <? n_actions then Z.of_nat i else 0)])).
  { apply Forall_app; split; [exact Hlog|]. constructor; [apply P_step|constructor]. }
  assert (Hal1 : length (buffer_s ev ++ [state ev]) = length (buffer_a ev ++ [Z.of_nat i])
                 /\ length (buffer_a ev ++ [Z.of_nat i])
                    = length (buffer_r ev ++ [if done then (-1)%Q else r0])).
  { rewrite !length_app; simpl; lia. }
  destruct (pymod (w_thread_step ws) update_global_delay) as [m|e]; simpl.
  2:{ split; [exact Hlog1|exact Hal1]. }
  destruct ((m =? 0) || done); simpl.
  2:{ split; [exact Hlog1|exact Hal1]. }
  destruct (synchronize _ _ _ _ _ _ _) as [[world' net'] res].
  assert (Hlog2 : Forall P ((w_log ws ++
            [EvStep (Z.of_nat i)
                    (if Z.of_nat i <? n_actions then Z.of_nat i else 0)])
            ++ [EvSync done new_state (buffer_s ev ++ [state ev])
                       (buffer_a ev ++ [Z.of_nat i])
                       (buffer_r ev ++ [if done then (-1)%Q else r0])])).
  { apply Forall_app; split; [exact Hlog1|]. constructor; [|constructor].
    apply P_sync; try apply Hal1.
    destruct (buffer_s ev); discriminate. }
  destruct res as [ret|e]; simpl.
  2:{ split; [exact Hlog2|exact Hal1]. }
  destruct (accumulate Obs v ret _) as [ev2|e] eqn:Hacc; simpl.
  2:{ split; [exact Hlog2|exact Hal1]. }
  destruct done; simpl; (split; [exact Hlog2|]);
    unfold buffers_aligned; simpl; split; reflexivity.
Qed.

Lemma inner_log n ws ev :
  Forall P (w_log ws) -> buffers_aligned ev ->
  Forall P (w_log (fst (fst (inner n ws ev)))).
Proof.
  revert ws ev; induction n as [|n IH]; intros ws ev Hlog Hal; simpl.
  - destruct (episode_step ev <? max_length); exact Hlog.
  - destruct (episode_step ev <? max_length); [|exact Hlog].
    pose proof (body_log ws ev Hlog Hal) as [H1 H2].
    destruct (body ws ev) as [[ws' ev'] c]. simpl in H1, H2.
    destruct c; simpl; auto.
Qed.

Lemma episode_log ws :
  Forall P (w_log ws) -> Forall P (w_log (fst (episode ws))).
Proof.
  intros Hlog. unfold run_episode.
  destruct (env_reset (w_env ws)) as [env' s0].
  match goal with
  | |- context [inner ?n ?ws0 ?ev0] =>
      pose proof (inner_log n ws0 ev0) as H;
      destruct (inner n ws0 ev0) as [[ws' ev'] out]
  end.
  simpl in H.
  assert (H' : Forall P (w_log ws')).
  { apply H.
    - apply Forall_app; split; [exact Hlog|]. constructor; [apply P_reset|constructor].
    - split; reflexivity. }
  destruct out; simpl; try exact H'.
  destruct (checkpoint_args Obs v name ev'); simpl; [|exact H'].
  apply Forall_app; split; [exact H'|].
  constructor; [apply P_checkpoint|constructor].
Qed.

Lemma outer_log fuel ws :
  Forall P (w_log ws) -> Forall P (w_log (fst (outer fuel ws))).
Proof.
  revert ws; induction fuel as [|fuel IH]; intros ws Hlog; simpl.
  - destruct (counter_value (w_world ws) <? max_eps); simpl; [exact Hlog|].
    apply Forall_app; split; [exact Hlog|]. constructor; [apply P_put|constructor].
  - destruct (counter_value (w_world ws) <? max_eps); simpl.
    + pose proof (episode_log ws Hlog) as H.
      destruct (episode ws) as [ws' out]. simpl in H.
      destruct out; simpl; auto.
    + apply Forall_app; split; [exact Hlog|]. constructor; [apply P_put|constructor].
Qed.
End LogInvariant.

(** Every pass that continues moves both step counters by one. *)
Lemma body_continue ws ev ws' ev' :
  body ws ev = (ws', ev', Continue) ->
  episode_step ev' = episode_step ev + 1 /\
  w_thread_step ws' = w_thread_step ws + 1.
Proof.
  unfold step_body, choose_action.
  destruct (sample (w_net ws) (state ev) (w_rng ws)) as [i rng'].
  destruct (env_step (w_env ws) _) as [env' [[new_state r0] done]].
  destruct (pymod (w_thread_step ws) update_global_delay) as [m|e];
    [|discriminate].
  destruct ((m =? 0) || done).
  - destruct (synchronize _ _ _ _ _ _ _) as [[world' net'] res].
    destruct res as [ret|e]; [|discriminate].
    destruct (accumulate Obs v ret _) as [ev2|e] eqn:Hacc; [|discriminate].
    apply accumulate_fields in Hacc. simpl in Hacc.
    destruct done; [discriminate|].
    intros [= <- <-]. simpl. split; [|reflexivity].
    destruct Hacc as (_ & _ & _ & -> & _). reflexivity.
  - intros [= <- <-]. simpl. split; reflexivity.
Qed.

(** The inner loop never runs out of passes: [max_length - episode_step]
    of them are enough. *)
Lemma inner_total n ws ev :
  (Z.to_nat (max_length - episode_step ev) <= n)%nat ->
  snd (inner n ws ev) <> OutOfFuel.
Proof.
  revert ws ev; induction n as [|n IH]; intros ws ev Hn; simpl.
  - destruct (Z.ltb_spec (episode_step ev) max_length); simpl; [lia|discriminate].
  - destruct (Z.ltb_spec (episode_step ev) max_length); simpl; [|discriminate].
    destruct (body ws ev) as [[ws' ev'] c] eqn:Hb.
    destruct c; simpl; try discriminate.
    apply body_continue in Hb as [Hs _]. apply IH. lia.
Qed.

(** Hence an episode ends normally or with an exception, never for lack
    of passes. *)
Lemma episode_total ws : snd (episode ws) <> OutOfFuel.
Proof.
  unfold run_episode.
  destruct (env_reset (w_env ws)) as [env' s0].
  match goal with
  | |- context [inner ?n ?ws0 ?ev0] =>
      pose proof (inner_total n ws0 ev0) as H;
      destruct (inner n ws0 ev0) as [[ws' ev'] out]
  end.
  simpl in H. specialize (H ltac:(rewrite Z.sub_0_r; lia)).
  destruct out; simpl; try discriminate; [|contradiction].
  destruct (checkpoint_args Obs v name ev'); discriminate.
Qed.

(** A part of the shared state that the synchronisation callback leaves
    alone is left alone by the whole inner loop. *)
Section WorldPart.
Variable X : Type.
Variable part : W -> X.
Hypothesis sync_keeps :
  forall w net done s_ bs ba br,
    part (fst (fst (synchronize w net done s_ bs ba br))) = part w.

Lemma body_world ws ev :
  part (w_world (fst (fst (body ws ev)))) = part (w_world ws).
Proof.
  unfold step_body, choose_action.
  destruct (sample (w_net ws) (state ev) (w_rng ws)) as [i rng'].
  destruct (env_step (w_env ws) _) as [env' [[new_state r0] done]].
  destruct (pymod (w_thread_step ws) update_global_delay) as [m|e];
    [|reflexivity].
  destruct ((m =? 0) || done); [|reflexivity].
  match goal with
  | |- context [synchronize ?w ?n ?d ?s ?a ?b ?c] =>
      pose proof (sync_keeps w n d s a b c) as H;
      destruct (synchronize w n d s a b c) as [[world' net'] res]
  end.
  simpl in H.
  destruct res as [ret|e]; [|exact H].
  destruct (accumulate Obs v ret _); [|exact H].
  destruct done; exact H.
Qed.

Lemma inner_world n ws ev :
  part (w_world (fst (fst (inner n ws ev)))) = part (w_world ws).
Proof.
  revert ws ev; induction n as [|n IH]; intros ws ev; simpl.
  - destruct (episode_step ev <? max_length); reflexivity.
  - destruct (episode_step ev <? max_length); [|reflexivity].
    pose proof (body_world ws ev) as H.
    destruct (body ws ev) as [[ws' ev'] c]. simpl in H.
    destruct c; simpl; try exact H.
    rewrite IH. exact H.
Qed.
End WorldPart.

(** With an environment that never reports [done], the inner loop runs
    to the cap, and its last pass synchronises exactly when the thread's
    step counter is a multiple of the delay, as on any other pass. *)
Section NeverDone.
Hypothesis never_done : forall e a, snd (snd (env_step e a)) = false.

Lemma body_never ws ev ws' ev' c :
  body ws ev = (ws', ev', c) ->
  c <> Break /\
  (c = Continue ->
   (last_is_sync (w_log ws') = true <->
    w_thread_step ws mod update_global_delay = 0)).
Proof.
  unfold step_body, choose_action.
  destruct (sample (w_net ws) (state ev) (w_rng ws)) as [i rng'].
  match goal with
  | |- context [env_step ?e ?a] =>
      pose proof (never_done e a) as Hd;
      destruct (env_step e a) as [env' [[new_state r0] done]]
  end.
  simpl in Hd. subst done.
  unfold pymod.
  destruct (update_global_delay =? 0); [intros [= <- <- <-]; split; discriminate|].
  rewrite orb_false_r.
  destruct (Z.eqb_spec (w_thread_step ws mod update_global_delay) 0) as [Hm|Hm].
  - destruct (synchronize _ _ _ _ _ _ _) as [[world' net'] res].
    destruct res as [ret|e]; [|intros [= <- <- <-]; split; discriminate].
    destruct (accumulate Obs v ret _) as [ev2|e];
      [|intros [= <- <- <-]; split; discriminate].
    intros [= <- <- <-]. split; [discriminate|]. intros _.
    unfold last_is_sync; simpl. rewrite rev_app_distr; simpl.
    split; auto.
  - intros [= <- <- <-]. split; [discriminate|]. intros _.
    unfold last_is_sync; simpl. rewrite rev_app_distr; simpl.
    split; [discriminate|]. intros; contradiction.
Qed.

Lemma inner_never n ws ev ws' ev' :
  inner n ws ev = (ws', ev', Finished) ->
  episode_step ev < max_length ->
  episode_step ev' = max_length /\
  w_thread_step ws' = w_thread_step ws + (max_length - episode_step ev) /\
  (last_is_sync (w_log ws') = true <->
   (w_thread_step ws' - 1) mod update_global_delay = 0).
Proof.
  revert ws ev; induction n as [|n IH]; intros ws ev; simpl.
  - destruct (Z.ltb_spec (episode_step ev) max_length); [discriminate|lia].
  - destruct (Z.ltb_spec (episode_step ev) max_length); [|lia].
    destruct (body ws ev) as [[ws1 ev1] c] eqn:Hb.
    pose proof (body_never _ _ _ _ _ Hb) as [Hnb Hsync].
    destruct c; [|contradiction|discriminate].
    pose proof (body_continue _ _ _ _ Hb) as [Hes Hts].
    specialize (Hsync eq_refl).
    intros Hin _.
    destruct (Z.ltb_spec (episode_step ev1) max_length) as [Hlt|Hge].
    + destruct (IH _ _ Hin Hlt) as (A1 & A2 & A3).
      split; [exact A1|]. split; [lia|exact A3].
    + assert (Heq : (ws', ev') = (ws1, ev1)).
      { destruct n; simpl in Hin;
          destruct (Z.ltb_spec (episode_step ev1) max_length); try lia;
          congruence. }
      injection Heq as -> ->.
      split; [lia|]. split; [lia|].
      replace (w_thread_step ws1 - 1) with (w_thread_step ws) by lia.
      exact Hsync.
Qed.
End NeverDone.

End WorkerFacts.

(** ** Actions handed to the environment *)

(** C8. Whatever the environment, the sampler, the callbacks and the
    budgets, every [env.step] of a worker whose environment has at least
    one action receives an index in [0, n_actions): a sampled index of
    [n_actions] or more is replaced by 0, a smaller one is passed on. *)
Theorem env_step_action_in_range
  (E Obs Net W R : Type) (v : variant) (name : string)
  (env_reset : E -> E * Obs) (env_step : E -> Z -> E * (Obs * Q * bool))
  (n_actions : Z) (sample : Net -> Obs -> R -> nat * R)
  (synchronize : W -> Net -> bool -> Obs -> list Obs -> list Z -> list Q ->
                 (W * Net) * result sync_ret)
  (checkpoint_cb : W -> report -> W) (counter_value : W -> Z)
  (put_none : W -> W) (max_eps max_length update_global_delay : Z)
  (fuel : nat) (env : E) (net : Net) (world : W) (rng : R) :
  0 < n_actions ->
  Forall (step_in_range n_actions)
    (w_log (fst (run E Obs Net W R v name env_reset env_step n_actions sample
                     synchronize checkpoint_cb counter_value put_none
                     max_eps max_length update_global_delay
                     fuel env net world rng))).
Proof.
  intros Hn. unfold run. apply outer_log; simpl; try exact I; auto.
  intros i. destruct (Z.ltb_spec (Z.of_nat i) n_actions); lia.
Qed.

Lemma env_step_action_in_range_witness :
  Forall (step_in_range 3) (w_log (fst (toy_run Base short_step 2 2 5))).
Proof.
  unfold toy_run, spawned_run.
  apply env_step_action_in_range. lia.
Defined.

(** ** Trajectories handed to the synchronisation *)

(** C10. Every call of the synchronisation callback made by a worker
    carries at least one (state, action, reward) triple, the three
    buffers having the same length; so [np.vstack(bs)] and [ba[0]] in
    [A3C.sync], which raise on empty buffers, never meet one. *)
Theorem sync_trajectory_nonempty :
  (forall (E Obs Net W R : Type) (v : variant) (name : string)
     (env_reset : E -> E * Obs) (env_step : E -> Z -> E * (Obs * Q * bool))
     (n_actions : Z) (sample : Net -> Obs -> R -> nat * R)
     (synchronize : W -> Net -> bool -> Obs -> list Obs -> list Z -> list Q ->
                    (W * Net) * result sync_ret)
     (checkpoint_cb : W -> report -> W) (counter_value : W -> Z)
     (put_none : W -> W) (max_eps max_length update_global_delay : Z)
     (fuel : nat) (env : E) (net : Net) (world : W) (rng : R),
     Forall sync_nonempty
       (w_log (fst (run E Obs Net W R v name env_reset env_step n_actions
                        sample synchronize checkpoint_cb counter_value
                        put_none max_eps max_length update_global_delay
                        fuel env net world rng)))) /\
  (forall (Obs OptSlot : Type) policy_head value_head log_softmax_at backward
     rmsprop (self : A3C OptSlot) local_network done (s_ : Obs) bs ba br,
     snd (sync Obs policy_head value_head log_softmax_at backward OptSlot
               rmsprop self local_network done s_ [] ba br)
     = Raise ValueError /\
     snd (sync Obs policy_head value_head log_softmax_at backward OptSlot
               rmsprop self local_network done s_ (s_ :: bs) [] br)
     = Raise IndexError /\
     snd (sync_conv Obs policy_head value_head log_softmax_at backward OptSlot
                    rmsprop self local_network done s_ bs [] br)
     = Raise IndexError).
Proof.
  split.
  - intros. unfold run. apply outer_log; simpl; try exact I; auto.
    intros done s_ bs ba br Hbs H1 H2. repeat split; auto.
    + destruct ba; [destruct bs; [contradiction|discriminate]|discriminate].
    + destruct br; [|discriminate].
      destruct bs; [contradiction|]. simpl in *. lia.
  - intros. repeat split; reflexivity.
Qed.

(** ** Loading a state dictionary *)

Lemma loaded_lookup sd (self : network) k :
  forallb snd (map (load_entry sd) self) = true ->
  lookup k (state_dict (map fst (map (load_entry sd) self)))
  = if has_key k self then lookup k sd else None.
Proof.
  induction self as [|[k' p] self IH]; simpl; intros H; [reflexivity|].
  apply andb_true_iff in H as [H1 H2].
  unfold load_entry in H1 |- *. simpl in H1 |- *.
  unfold has_key; simpl.
  destruct (lookup k' sd) as [d|] eqn:Ek'; [|discriminate].
  destruct (length d =? length (data p))%nat; [|discriminate].
  simpl. destruct (String.eqb_spec k k') as [->|Hne].
  - rewrite Ek'. reflexivity.
  - specialize (IH H2). unfold has_key, load_entry in IH. exact IH.
Qed.

Lemma no_unexpected_key sd (self : network) k :
  existsb (fun kv : string * list Q => negb (has_key (fst kv) self)) sd = false ->
  has_key k self = false -> lookup k sd = None.
Proof.
  induction sd as [|[k' d] sd IH]; simpl; intros H Hk; [reflexivity|].
  apply orb_false_iff in H as [H1 H2].
  destruct (String.eqb_spec k k') as [->|Hne].
  - rewrite Hk in H1. discriminate.
  - apply IH; assumption.
Qed.

(** A load that does not raise leaves, under every name, the tensor that
    the dictionary holds under that name. *)
Lemma load_state_dict_ok self sd self' :
  load_state_dict self sd = (self', Ok tt) ->
  forall k, lookup k (state_dict self') = lookup k sd.
Proof.
  unfold load_state_dict. intros H k.
  destruct (forallb snd (map (load_entry sd) self)) eqn:Hall;
    simpl in H; [|discriminate].
  destruct (existsb _ sd) eqn:Hun; simpl in H; [discriminate|].
  injection H as <-.
  rewrite loaded_lookup by exact Hall.
  destruct (has_key k self) eqn:Hk; [reflexivity|].
  symmetry. eapply no_unexpected_key; eauto.
Qed.

Section SyncFacts.
Variable Obs : Type.
Variable policy_head : network -> Obs -> list dual.
Variable value_head : network -> Obs -> dual.
Variable log_softmax_at : list dual -> Z -> result dual.
Variable backward : network -> list Obs -> list Z -> list Q -> list (list Q).
Variable OptSlot : Type.
Variable rmsprop : OptSlot -> list Q -> list Q -> OptSlot * list Q.

Local Abbreviation sync' :=
  (sync Obs policy_head value_head log_softmax_at backward OptSlot rmsprop).
Local Abbreviation sync_conv' :=
  (sync_conv Obs policy_head value_head log_softmax_at backward OptSlot rmsprop).
Local Abbreviation push' := (push_gradients Obs backward OptSlot rmsprop).
Local Abbreviation pull' := (push_and_pull Obs backward OptSlot rmsprop).

Lemma push_and_pull_ok self local bs ba targets self' local' :
  pull' self local bs ba targets = ((self', local'), Ok tt) ->
  self' = fst (push' self local bs ba targets) /\
  forall k, lookup k (state_dict local')
            = lookup k (state_dict (global_network self')).
Proof.
  unfold push_and_pull.
  destruct (push' self local bs ba targets) as [self1 local1].
  destruct (load_state_dict local1 _) as [local2 r] eqn:Hl.
  intros [= <- <- ->]. split; [reflexivity|].
  eapply load_state_dict_ok; eauto.
Qed.

Lemma push_keeps_counter_queue self local bs ba targets :
  global_ep_counter (fst (fst (pull' self local bs ba targets)))
  = global_ep_counter self /\
  res_queue (fst (fst (pull' self local bs ba targets))) = res_queue self.
Proof.
  unfold push_and_pull, push_gradients.
  destruct (optimizer_step OptSlot rmsprop _ _) as [opt' g2].
  destruct (load_state_dict _ _) as [l2 r]. simpl. split; reflexivity.
Qed.

Lemma sync_ok_inv self local done s_ bs ba br st ret :
  sync' self local done s_ bs ba br = (st, Ok ret) ->
  ret = None /\
  pull' self local bs ba
        (v_targetQ (gamma self) done (val (value_head local s_)) br)
  = (st, Ok tt).
Proof.
  unfold sync. destruct bs as [|b bs]; [discriminate|].
  destruct ba as [|a ba]; [discriminate|].
  destruct (loss_func _ _ _ _ _ _ _) as [loss|e]; [|discriminate].
  destruct (pull' _ _ _ _ _) as [st' [[]|e]]; simpl; [|discriminate].
  intros [= <- <-]. split; reflexivity.
Qed.

Lemma sync_conv_ok_inv self local done s_ bs ba br st ret :
  sync_conv' self local done s_ bs ba br = (st, Ok ret) ->
  (exists loss mv mp ma,
      loss_func_conv policy_head value_head log_softmax_at local bs ba
        (target_column
           (v_targetQ (gamma self) done (val (value_head local s_)) br))
      = Ok (loss, mv, mp, ma) /\
      ret = Some (ddetach loss, mv, mp, ma)) /\
  pull' self local bs ba
        (v_targetQ (gamma self) done (val (value_head local s_)) br)
  = (st, Ok tt).
Proof.
  unfold sync_conv. destruct ba as [|a ba]; [discriminate|].
  destruct (loss_func_conv _ _ _ _ _ _ _) as [[[[loss mv] mp] ma]|e];
    [|discriminate].
  destruct (pull' _ _ _ _ _) as [st' [[]|e]]; simpl; [|discriminate].
  intros [= <- <-]. split; [|reflexivity].
  do 4 eexists. split; reflexivity.
Qed.

Lemma sync_keeps_counter_queue (conv : bool) self local done s_ bs ba br :
  let r := if conv then sync_conv' self local done s_ bs ba br
           else sync' self local done s_ bs ba br in
  global_ep_counter (fst (fst r)) = global_ep_counter self /\
  res_queue (fst (fst r)) = res_queue self.
Proof.
  pose proof (push_keeps_counter_queue self local bs ba
                (v_targetQ (gamma self) done (val (value_head local s_)) br)) as H.
  destruct conv; cbv zeta.
  - unfold sync_conv. destruct ba; [split; reflexivity|].
    destruct (loss_func_conv _ _ _ _ _ _ _) as [[[[loss mv] mp] ma]|e];
      [|split; reflexivity].
    destruct (pull' _ _ _ _ _) as [st' r]. exact H.
  - unfold sync. destruct bs; [split; reflexivity|].
    destruct ba; [split; reflexivity|].
    destruct (loss_func _ _ _ _ _ _ _); [|split; reflexivity].
    destruct (pull' _ _ _ _ _) as [st' r]. exact H.
Qed.
End SyncFacts.

(** A synchronisation that runs alone, with no other process touching
    the shared memory meanwhile, and returns normally (either variant):
    the shared network is the one the optimiser step of that call left,
    and the worker's local network holds, under every parameter name,
    the value the shared network holds under that name. *)
Lemma lone_sync_local_equals_shared
  (Obs : Type) (policy_head : network -> Obs -> list dual)
  (value_head : network -> Obs -> dual)
  (log_softmax_at : list dual -> Z -> result dual)
  (backward : network -> list Obs -> list Z -> list Q -> list (list Q))
  (OptSlot : Type) (rmsprop : OptSlot -> list Q -> list Q -> OptSlot * list Q)
  (self : A3C OptSlot) (local_network : network) (done : bool) (s_ : Obs)
  (bs : list Obs) (ba : list Z) (br : list Q)
  (self' : A3C OptSlot) (local' : network) (ret : sync_ret) :
  sync Obs policy_head value_head log_softmax_at backward OptSlot rmsprop
       self local_network done s_ bs ba br = ((self', local'), Ok ret) \/
  sync_conv Obs policy_head value_head log_softmax_at backward OptSlot rmsprop
       self local_network done s_ bs ba br = ((self', local'), Ok ret) ->
  self' = fst (push_gradients Obs backward OptSlot rmsprop self local_network
                 bs ba (v_targetQ (gamma self) done
                                  (val (value_head local_network s_)) br)) /\
  forall k, lookup k (state_dict local')
            = lookup k (state_dict (global_network self')).
Proof.
  intros [H|H].
  - apply sync_ok_inv in H as [_ H]. eapply push_and_pull_ok; eauto.
  - apply sync_conv_ok_inv in H as [_ H]. eapply push_and_pull_ok; eauto.
Qed.

(** C7, as stated, fails on the base variant: the call computes a loss
    and hands back [None]. *)
Lemma sync_base_returns_nothing :
  (exists loss,
      loss_func toy_policy toy_value toy_log_softmax toy_net [0; 1] [0; 1]
        (target_column (v_targetQ (9 # 10) false (val (toy_value toy_net 2))
                                  [1; 1]%Q)) = Ok loss) /\
  snd (toy_sync false) = Ok None /\
  ~ (exists d, snd (toy_sync false) = Ok (Some d)).
Proof.
  split; [eexists; vm_compute; reflexivity|].
  split; [vm_compute; reflexivity|].
  intros [d H]. vm_compute in H. discriminate.
Qed.

(** C7, amended. A synchronisation of the richer variant that returns
    normally hands back the detached loss of the trajectory together with
    the mean value loss, mean policy loss and mean advantage that
    [loss_func] computed; one of the base variant hands back nothing. *)
Theorem sync_return_values
  (Obs : Type) (policy_head : network -> Obs -> list dual)
  (value_head : network -> Obs -> dual)
  (log_softmax_at : list dual -> Z -> result dual)
  (backward : network -> list Obs -> list Z -> list Q -> list (list Q))
  (OptSlot : Type) (rmsprop : OptSlot -> list Q -> list Q -> OptSlot * list Q)
  (self : A3C OptSlot) (local_network : network) (done : bool) (s_ : Obs)
  (bs : list Obs) (ba : list Z) (br : list Q) :
  (forall st ret,
      sync_conv Obs policy_head value_head log_softmax_at backward OptSlot
                rmsprop self local_network done s_ bs ba br = (st, Ok ret) ->
      exists loss mv mp ma,
        loss_func_conv policy_head value_head log_softmax_at local_network
          bs ba (target_column
                   (v_targetQ (gamma self) done
                              (val (value_head local_network s_)) br))
        = Ok (loss, mv, mp, ma) /\
        ret = Some (ddetach loss, mv, mp, ma)) /\
  (forall st ret,
      sync Obs policy_head value_head log_softmax_at backward OptSlot
           rmsprop self local_network done s_ bs ba br = (st, Ok ret) ->
      ret = None).
Proof.
  split; intros st ret H.
  - apply sync_conv_ok_inv in H as [H _]. exact H.
  - apply sync_ok_inv in H as [H _]. exact H.
Qed.

Lemma sync_return_values_witness :
  exists loss mv mp ma,
    loss_func_conv toy_policy toy_value toy_log_softmax toy_net [0; 1] [0; 1]
      (target_column (v_targetQ (gamma toy_a3c) false
                                (val (toy_value toy_net 2)) [1; 1]%Q))
    = Ok (loss, mv, mp, ma) /\
    snd (toy_sync true) = Ok (Some (ddetach loss, mv, mp, ma)).
Proof.
  destruct (proj1 (sync_return_values Z toy_policy toy_value toy_log_softmax
                     toy_backward nat toy_rmsprop toy_a3c toy_net false 2
                     [0; 1] [0; 1] [1; 1]%Q)
                  (fst (toy_sync true))
                  (match snd (toy_sync true) with Ok r => r | Raise _ => None end))
    as (loss & mv & mp & ma & H1 & H2).
  { vm_compute. reflexivity. }
  exists loss, mv, mp, ma. split; [exact H1|].
  rewrite <- H2. vm_compute. reflexivity.
Defined.

Lemma loss_func_batch_mean_witness :
  exists L,
    loss_func toy_policy toy_value toy_log_softmax toy_net [0; 1] [0; 1]
              (target_column [3; 4]%Q) = Ok L /\
    dual_eq L (batch_loss [3; 4]%Q (map (toy_value toy_net) [0; 1])
                          [mkDual (-1) 1; mkDual (-1) 1]).
Proof.
  apply (proj1 (loss_func_batch_mean network Z toy_policy toy_value
                  toy_log_softmax toy_net [0; 1] [0; 1] [3; 4]%Q
                  [mkDual (-1) 1; mkDual (-1) 1]
                  ltac:(simpl; lia) eq_refl eq_refl eq_refl)).
Defined.

(** ** Episodes that end at the cap *)

Section CapFacts.
Variables E Obs R OptSlot : Type.
Variable v : variant.
Variable policy_head : network -> Obs -> list dual.
Variable value_head : network -> Obs -> dual.
Variable log_softmax_at : list dual -> Z -> result dual.
Variable backward : network -> list Obs -> list Z -> list Q -> list (list Q).
Variable rmsprop : OptSlot -> list Q -> list Q -> OptSlot * list Q.
Variable env_reset : E -> E * Obs.
Variable env_step : E -> Z -> E * (Obs * Q * bool).
Variable n_actions : Z.
Variable sample : network -> Obs -> R -> nat * R.

Local Abbreviation sync_cb :=
  (sync_of Obs OptSlot v policy_head value_head log_softmax_at backward rmsprop).

Lemma sync_of_keeps self local done s_ bs ba br :
  global_ep_counter (fst (fst (sync_cb self local done s_ bs ba br)))
  = global_ep_counter self /\
  res_queue (fst (fst (sync_cb self local done s_ bs ba br))) = res_queue self.
Proof.
  unfold sync_of. destruct v.
  - apply (sync_keeps_counter_queue Obs policy_head value_head log_softmax_at
             backward OptSlot rmsprop false).
  - apply (sync_keeps_counter_queue Obs policy_head value_head log_softmax_at
             backward OptSlot rmsprop true).
Qed.

Lemma checkpoint_args_length name (ev : epvars Obs) rep :
  checkpoint_args Obs v name ev = Ok rep -> rep_length rep = episode_step ev.
Proof.
  unfold checkpoint_args. destruct v.
  - intros [= <-]. reflexivity.
  - destruct (grad_updates ev =? 0); [discriminate|].
    intros [= <-]. reflexivity.
Qed.

Lemma checkpoint_effect (self : A3C OptSlot) rep :
  global_ep_counter (checkpoint self rep)
  = wrap_int32 (global_ep_counter self + 1) /\
  exists record,
    res_queue (checkpoint self rep) = res_queue self ++ [Some record] /\
    episode_length record = rep_length rep.
Proof.
  unfold checkpoint; simpl. split; [reflexivity|].
  destruct (rep_diag rep); eexists; split; reflexivity.
Qed.

Lemma wired_episode_counts name max_length delay ws ws' :
  wired_episode E Obs R OptSlot v policy_head value_head log_softmax_at
                backward rmsprop env_reset env_step n_actions sample
                name max_length delay ws = (ws', Finished) ->
  global_ep_counter (w_world ws')
  = wrap_int32 (global_ep_counter (w_world ws) + 1) /\
  exists record,
    res_queue (w_world ws') = res_queue (w_world ws) ++ [Some record].
Proof.
  unfold wired_episode, run_episode.
  destruct (env_reset (w_env ws)) as [env' s0].
  match goal with
  | |- context [episode_loop ?E ?O ?N ?W ?R ?v ?es ?na ?sa ?sy ?ml ?d ?n ?ws0 ?ev0] =>
      pose proof (inner_world E O N W R v es na sa sy ml d Z
                    global_ep_counter
                    (fun w net dn s a b c => proj1 (sync_of_keeps w net dn s a b c))
                    n ws0 ev0) as Hc;
      pose proof (inner_world E O N W R v es na sa sy ml d _
                    res_queue
                    (fun w net dn s a b c => proj2 (sync_of_keeps w net dn s a b c))
                    n ws0 ev0) as Hq;
      destruct (episode_loop E O N W R v es na sa sy ml d n ws0 ev0)
        as [[ws1 ev1] out]
  end.
  simpl in Hc, Hq.
  destruct out; try discriminate.
  destruct (checkpoint_args Obs v name ev1) as [rep|e]; [|discriminate].
  intros [= <-]. cbn [w_world].
  pose proof (checkpoint_effect (w_world ws1) rep) as [Hc' (record & Hq' & _)].
  split; [rewrite Hc', Hc; reflexivity|].
  exists record. rewrite Hq', Hq. reflexivity.
Qed.

End CapFacts.

(** C4, as stated, fails: a worker built by the coordinator (cap 1000),
    synchronising every 3 steps in an environment that never reports
    [done], takes its 1000th step without synchronising, and the episode
    is counted: the counter goes from 0 to 1 and a record is queued. *)
Lemma capped_episode_counted_without_sync :
  snd capped_run = Finished /\
  global_ep_counter toy_a3c = 0 /\
  global_ep_counter (w_world (fst capped_run)) = 1 /\
  res_queue (w_world (fst capped_run))
  = [Some (mkRecord "w0" 1000 (Some 1) 1000 None); None] /\
  skipn 1333 (w_log (fst capped_run))
  = [EvStep 3 0; EvCheckpoint (mkReport "w0" 1000 1000 None); EvPutNone] /\
  synced_at_cap (removelast (w_log (fst capped_run))) = false.
Proof.
  vm_compute. repeat split; reflexivity.
Qed.

(** ** The collection loop *)

(** C3, as stated, fails for two workers: the loop leaves at the first
    sentinel, with the second one (and any record that arrives after the
    first sentinel) still in the queue. *)
Lemma drain_leaves_second_sentinel :
  res_queue two_idle_workers = [None; None] /\
  dr_sentinels (run_drain (res_queue two_idle_workers) 0) = 1%nat /\
  dr_sentinels (run_drain (res_queue two_idle_workers) 0) <> 2%nat /\
  dr_exit (run_drain (res_queue two_idle_workers) 0) = Broke /\
  dr_left (run_drain (res_queue two_idle_workers) 0) = [None] /\
  dr_sentinels (run_drain_conv (res_queue two_idle_workers) 0) = 1%nat /\
  run_drain [None; Some toy_record; None] 0
  = mkDrained 0 [] 0 1 [Some toy_record; None] Broke.
Proof.
  vm_compute. repeat split; try reflexivity. discriminate.
Qed.

Lemma run_drain_prefix pre post episode :
  run_drain (map Some pre ++ None :: post) episode
  = mkDrained (episode + Z.of_nat (length pre)) (numbered episode pre)
              (length pre) 1 post Broke.
Proof.
  revert episode; induction pre as [|r pre IH]; intros episode.
  - simpl. rewrite Z.add_0_r. reflexivity.
  - cbn [map app run_drain]. rewrite IH. unfold took_record.
    cbn [dr_episode dr_recorded dr_records dr_sentinels dr_left dr_exit
         numbered length].
    f_equal. lia.
Qed.

Lemma run_drain_conv_prefix pre post episode :
  Forall (fun r => diag r <> None) pre ->
  run_drain_conv (map Some pre ++ None :: post) episode
  = mkDrained (episode + Z.of_nat (length pre)) (numbered episode pre)
              (length pre) 1 post Broke.
Proof.
  intros H; revert episode; induction H as [|r pre Hr _ IH]; intros episode.
  - simpl. rewrite Z.add_0_r. reflexivity.
  - cbn [map app run_drain_conv].
    destruct (diag r) eqn:Hd; [|contradiction].
    rewrite IH. unfold took_record.
    cbn [dr_episode dr_recorded dr_records dr_sentinels dr_left dr_exit
         numbered length].
    f_equal. lia.
Qed.

Lemma run_drain_sentinels arrivals episode :
  (dr_sentinels (run_drain arrivals episode) <= 1)%nat /\
  (dr_sentinels (run_drain_conv arrivals episode) <= 1)%nat.
Proof.
  revert episode; induction arrivals as [|[r|] rest IH]; intros episode;
    simpl; try (split; lia).
  destruct (IH (episode + 1)) as [H1 H2]. split; [exact H1|].
  destruct (diag r); simpl; [exact H2|lia].
Qed.

(** C3, amended. Whatever the number of workers, the collection loop
    leaves after dequeuing exactly one sentinel, the first to arrive: it
    records every result that arrived before it, one tally step each, and
    leaves what arrives later in the queue.  (In the richer variant the
    records must carry their diagnostics.) *)
Theorem drain_stops_at_first_sentinel :
  (forall pre post episode,
      run_drain (map Some pre ++ None :: post) episode
      = mkDrained (episode + Z.of_nat (length pre)) (numbered episode pre)
                  (length pre) 1 post Broke) /\
  (forall pre post episode,
      Forall (fun r => diag r <> None) pre ->
      run_drain_conv (map Some pre ++ None :: post) episode
      = mkDrained (episode + Z.of_nat (length pre)) (numbered episode pre)
                  (length pre) 1 post Broke) /\
  (forall arrivals episode,
      (dr_sentinels (run_drain arrivals episode) <= 1)%nat /\
      (dr_sentinels (run_drain_conv arrivals episode) <= 1)%nat).
Proof.
  split; [exact run_drain_prefix|].
  split; [exact run_drain_conv_prefix|exact run_drain_sentinels].
Qed.

Lemma drain_stops_at_first_sentinel_witness :
  Forall (fun r => diag r <> None) [toy_record] /\
  run_drain_conv (map Some [toy_record] ++ None :: [None]) 0
  = mkDrained (0 + Z.of_nat (length [toy_record])) (numbered 0 [toy_record])
              (length [toy_record]) 1 [None] Broke.
Proof.
  assert (H : Forall (fun r => diag r <> None) [toy_record]).
  { repeat constructor. discriminate. }
  split; [exact H|].
  exact (proj1 (proj2 drain_stops_at_first_sentinel) [toy_record] [None] 0 H).
Defined.

(** ** The factory each worker is given *)

Lemma py_index_nth {X : Type} (fs : list X) k x :
  nth_error fs k = Some x -> py_index fs (0 + Z.of_nat k) = Ok x.
Proof.
  intros H. unfold py_index.
  assert (Hk : (k < length fs)%nat) by (apply nth_error_Some; congruence).
  destruct (Z.ltb_spec (0 + Z.of_nat k) 0); [lia|].
  destruct (Z.leb_spec 0 (0 + Z.of_nat k)); [|lia].
  destruct (Z.ltb_spec (0 + Z.of_nat k) (Z.of_nat (length fs))); [|lia].
  simpl. rewrite Nat2Z.id, H. reflexivity.
Qed.

Lemma map_result_indices {X : Type} (fs : list X) m k :
  (k + m <= length fs)%nat ->
  map_result (py_index fs) (map (fun i => 0 + Z.of_nat i) (seq k m))
  = Ok (firstn m (skipn k fs)).
Proof.
  revert k; induction m as [|m IH]; intros k Hk; [reflexivity|].
  cbn [seq map map_result].
  destruct (nth_error fs k) as [x|] eqn:Hx.
  2:{ apply nth_error_None in Hx. lia. }
  rewrite (py_index_nth fs k x Hx). cbn [bind].
  rewrite IH by lia. cbn [bind].
  assert (Hs : skipn k fs = x :: skipn (S k) fs).
  { clear -Hx. revert k Hx; induction fs as [|y fs IHf]; intros [|k] Hx;
      simpl in *; try discriminate.
    - injection Hx as ->. reflexivity.
    - apply IHf. exact Hx. }
  rewrite Hs. reflexivity.
Qed.

(** a3c.py: the outcomes of the draw are the factories of the list, each
    once; the draw is uniform over the whole list. *)
Lemma worker_factory_uniform {X : Type} (fs : list X) :
  fs <> [] -> worker_factory (Several fs) = Ok fs.
Proof.
  intros Hne. unfold worker_factory, py_randint.
  assert (Hl : (0 < length fs)%nat) by (destruct fs; [contradiction|simpl; lia]).
  destruct (Z.leb_spec 0 (Z.of_nat (length fs) - 1)); [|lia].
  cbn [bind]. unfold zrange.
  rewrite map_result_indices by (rewrite Z2Nat.inj_add by lia; simpl; lia).
  replace (Z.to_nat (Z.of_nat (length fs) - 1 - 0 + 1)) with (length fs) by lia.
  simpl. rewrite firstn_all. reflexivity.
Qed.

(** a3c_conv.py: the outcomes are the factories but the last. *)
Lemma worker_factory_conv_drops_last {X : Type} (fs : list X) :
  (2 <= length fs)%nat ->
  worker_factory_conv (Several fs) = Ok (removelast fs).
Proof.
  intros Hl. unfold worker_factory_conv, np_randint.
  destruct (Z.ltb_spec 0 (Z.of_nat (length fs) - 1)); [|lia].
  cbn [bind]. unfold zrange.
  rewrite map_result_indices by lia.
  replace (Z.to_nat (Z.of_nat (length fs) - 1 - 0)) with (pred (length fs)) by lia.
  simpl. rewrite removelast_firstn_len. reflexivity.
Qed.

(** C9 on the code. With three factories the base variant draws each of
    them with chance one third; the richer variant draws only from the
    first two, never hands out the last, and raises on a list of one. *)
Theorem conv_never_draws_last_factory :
  worker_factory (Several ["a"; "b"; "c"]%string)
  = Ok ["a"; "b"; "c"]%string /\
  (chance String.eqb "c"%string ["a"; "b"; "c"]%string == 1 # 3)%Q /\
  worker_factory_conv (Several ["a"; "b"; "c"]%string)
  = Ok ["a"; "b"]%string /\
  (chance String.eqb "c"%string ["a"; "b"]%string == 0)%Q /\
  worker_factory_conv (Several ["a"]%string) = Raise ValueError.
Proof.
  repeat split; vm_compute; reflexivity.
Qed.

(** ** Interleaved synchronisations *)

Lemma total_ops_finished p progs :
  forallb (fun pr : list op => match pr with [] => true | _ => false end) progs
  = true ->
  total_ops p progs = O.
Proof.
  induction progs as [|[|o pr] progs IH]; simpl; intros H;
    [reflexivity| |discriminate].
  apply IH. exact H.
Qed.

Lemma total_ops_set_nth p progs w o pr :
  nth_error progs w = Some (o :: pr) ->
  total_ops p progs
  = ((if p o then 1 else 0) + total_ops p (set_nth w pr progs))%nat.
Proof.
  revert w; induction progs as [|q progs IH]; intros [|w] H; simpl in *;
    try discriminate.
  - injection H as ->. simpl. destruct (p o); simpl; lia.
  - rewrite (IH w H). lia.
Qed.

(** Whatever the schedule, the merged trace holds each operation of each
    program once. *)
Lemma run_schedule_count p sched :
  forall held progs t,
    run_schedule held progs sched = Some t ->
    count_ops p t = total_ops p progs.
Proof.
  induction sched as [|w sched IH]; intros held progs t; simpl.
  - destruct (forallb _ progs) eqn:Hf; [|discriminate].
    intros [= <-]. rewrite total_ops_finished by exact Hf. reflexivity.
  - destruct (nth_error progs w) as [[|o pr]|] eqn:Hw; try discriminate.
    destruct (lock_step held w o) as [held'|]; [|discriminate].
    destruct (run_schedule held' (set_nth w pr progs) sched) as [t'|] eqn:Hr;
      [|discriminate].
    intros [= <-]. rewrite (total_ops_set_nth p progs w o pr Hw).
    rewrite <- (IH _ _ _ Hr). unfold count_ops. simpl.
    destruct (p o); reflexivity.
Qed.

Lemma sync_program_steps dones :
  length (filter is_step (sync_program dones)) = length dones /\
  length (filter is_acquire (sync_program dones)) = O.
Proof.
  unfold sync_program.
  induction dones as [|d dones [IH1 IH2]]; [split; reflexivity|].
  cbn [map concat]. rewrite !filter_app, !length_app, IH1, IH2.
  destruct d; split; reflexivity.
Qed.

Lemma total_sync_programs M doness :
  Forall (fun ds : list bool => length ds = M) doness ->
  total_ops is_step (map sync_program doness) = (length doness * M)%nat /\
  total_ops is_acquire (map sync_program doness) = O.
Proof.
  induction 1 as [|ds doness Hd _ [IH1 IH2]]; [split; reflexivity|].
  cbn [map total_ops fold_right].
  destruct (sync_program_steps ds) as [-> ->].
  fold (total_ops is_step (map sync_program doness)).
  fold (total_ops is_acquire (map sync_program doness)).
  rewrite IH1, IH2, Hd. split; simpl; lia.
Qed.

(** ** Invariants of the worker's loops, in general *)

Section WorkerInvariants.
Variables E Obs Net W R : Type.
Variable v : variant.
Variable name : string.
Variable env_reset : E -> E * Obs.
Variable env_step : E -> Z -> E * (Obs * Q * bool).
Variable n_actions : Z.
Variable sample : Net -> Obs -> R -> nat * R.
Variable synchronize :
  W -> Net -> bool -> Obs -> list Obs -> list Z -> list Q ->
  (W * Net) * result sync_ret.
Variable checkpoint_cb : W -> report -> W.
Variable counter_value : W -> Z.
Variable put_none : W -> W.
Variables max_eps max_length update_global_delay : Z.

Local Abbreviation body :=
  (step_body E Obs Net W R v env_step n_actions sample synchronize
             update_global_delay).
Local Abbreviation inner :=
  (episode_loop E Obs Net W R v env_step n_actions sample synchronize
                max_length update_global_delay).
Local Abbreviation episode :=
  (run_episode E Obs Net W R v name env_reset env_step n_actions sample
               synchronize checkpoint_cb max_length update_global_delay).
Local Abbreviation outer :=
  (run_loop E Obs Net W R v name env_reset env_step n_actions sample
            synchronize checkpoint_cb counter_value put_none
            max_eps max_length update_global_delay).

(** Every way a pass of the body can go. *)
Lemma body_cases (ws : wstate E Obs Net W R) (ev : epvars Obs) :
  exists i rng' env' s' r0 done,
    sample (w_net ws) (state ev) (w_rng ws) = (i, rng') /\
    env_step (w_env ws) (clamp n_actions (Z.of_nat i)) = (env', (s', r0, done)) /\
    let ev1 := stepped ev (Z.of_nat i) (recorded_reward done r0) in
    let log1 := w_log ws
                ++ [EvStep (Z.of_nat i) (clamp n_actions (Z.of_nat i))] in
    let log2 := log1 ++ [EvSync done s' (buffer_s ev1) (buffer_a ev1)
                                (buffer_r ev1)] in
    (update_global_delay = 0 /\
     body ws ev = (mkW env' (w_net ws) (w_world ws) rng' (w_thread_step ws) log1,
                   ev1, Raised ZeroDivisionError))
    \/
    (update_global_delay <> 0 /\
     w_thread_step ws mod update_global_delay <> 0 /\ done = false /\
     body ws ev = (mkW env' (w_net ws) (w_world ws) rng'
                       (w_thread_step ws + 1) log1,
                   advance Obs s' ev1, Continue))
    \/
    (update_global_delay <> 0 /\
     (w_thread_step ws mod update_global_delay = 0 \/ done = true) /\
     exists world' net' res,
       synchronize (w_world ws) (w_net ws) done s' (buffer_s ev1)
                   (buffer_a ev1) (buffer_r ev1) = ((world', net'), res) /\
       let ws2 := mkW env' net' world' rng' (w_thread_step ws) log2 in
       match res with
       | Raise e => body ws ev = (ws2, ev1, Raised e)
       | Ok ret =>
           match accumulate Obs v ret ev1 with
           | Raise e => body ws ev = (ws2, ev1, Raised e)
           | Ok ev2 =>
               if done
               then body ws ev = (ws2, clear_buffers Obs ev2, Break)
               else body ws ev
                    = (mkW env' net' world' rng' (w_thread_step ws + 1) log2,
                       advance Obs s' (clear_buffers Obs ev2), Continue)
           end
       end).
Proof.
  unfold step_body, choose_action.
  destruct (sample (w_net ws) (state ev) (w_rng ws)) as [i rng'] eqn:Hs.
  fold (clamp n_actions (Z.of_nat i)).
  destruct (env_step (w_env ws) (clamp n_actions (Z.of_nat i)))
    as [env' [[s' r0] done]] eqn:He.
  exists i, rng', env', s', r0, done.
  split; [reflexivity|]. split; [first [reflexivity|exact He]|]. cbv zeta.
  fold (recorded_reward done r0).
  fold (stepped ev (Z.of_nat i) (recorded_reward done r0)).
  unfold pymod.
  destruct (Z.eqb_spec update_global_delay 0) as [Hd|Hd].
  { left. split; [exact Hd|reflexivity]. }
  destruct (Z.eqb_spec (w_thread_step ws mod update_global_delay) 0) as [Hm|Hm].
  - right; right. split; [exact Hd|]. split; [left; exact Hm|].
    cbn [orb].
    destruct (synchronize _ _ _ _ _ _ _) as [[world' net'] res].
    exists world', net', res. split; [reflexivity|].
    destruct res as [ret|e]; [|reflexivity].
    destruct (accumulate Obs v ret _) as [ev2|e]; [|reflexivity].
    destruct done; reflexivity.
  - destruct done; cbn [orb].
    + right; right. split; [exact Hd|]. split; [right; reflexivity|].
      destruct (synchronize _ _ _ _ _ _ _) as [[world' net'] res].
      exists world', net', res. split; [reflexivity|].
      destruct res as [ret|e]; [|reflexivity].
      destruct (accumulate Obs v ret _) as [ev2|e]; reflexivity.
    + right; left. repeat split; auto.
Qed.

Section Invariant.
(** [I] holds at the head of every pass of the inner loop, [Ix] when the
    inner loop has ended normally, [J] between episodes and whenever the
    worker stops. *)
Variable I : wstate E Obs Net W R -> epvars Obs -> Prop.
Variable Ix : wstate E Obs Net W R -> epvars Obs -> Prop.
Variable J : wstate E Obs Net W R -> Prop.

Hypothesis body_keeps :
  forall ws ev, I ws ev -> episode_step ev < max_length ->
    match body ws ev with
    | (ws', ev', Continue) => I ws' ev'
    | (ws', ev', Break) => Ix ws' ev'
    | (ws', _, Raised _) => J ws'
    end.
Hypothesis cap_exit :
  forall ws ev, I ws ev -> max_length <= episode_step ev -> Ix ws ev.
Hypothesis I_J : forall ws ev, I ws ev -> J ws.
Hypothesis reset_I :
  forall ws, J ws -> counter_value (w_world ws) < max_eps ->
    I (mkW (fst (env_reset (w_env ws))) (w_net ws) (w_world ws) (w_rng ws)
           (w_thread_step ws) (w_log ws ++ [EvReset]))
      (fresh_episode (snd (env_reset (w_env ws)))).
Hypothesis checkpoint_J :
  forall ws ev rep, Ix ws ev -> checkpoint_args Obs v name ev = Ok rep ->
    J (mkW (w_env ws) (w_net ws) (checkpoint_cb (w_world ws) rep) (w_rng ws)
           (w_thread_step ws) (w_log ws ++ [EvCheckpoint rep])).
Hypothesis crash_J :
  forall ws ev e, Ix ws ev -> checkpoint_args Obs v name ev = Raise e -> J ws.

Lemma inner_inv n ws ev :
  I ws ev ->
  match inner n ws ev with
  | (ws', ev', Finished) => Ix ws' ev'
  | (ws', _, _) => J ws'
  end.
Proof.
  revert ws ev; induction n as [|n IH]; intros ws ev HI; simpl.
  - destruct (Z.ltb_spec (episode_step ev) max_length).
    + exact (I_J ws ev HI).
    + apply cap_exit; assumption.
  - destruct (Z.ltb_spec (episode_step ev) max_length) as [Hlt|Hge].
    2:{ apply cap_exit; assumption. }
    pose proof (body_keeps ws ev HI Hlt) as Hb.
    destruct (body ws ev) as [[ws' ev'] c].
    destruct c; [apply IH; exact Hb|exact Hb|exact Hb].
Qed.

Lemma episode_inv ws :
  J ws -> counter_value (w_world ws) < max_eps -> J (fst (episode ws)).
Proof.
  intros HJ Hc. pose proof (reset_I ws HJ Hc) as H0.
  unfold run_episode. destruct (env_reset (w_env ws)) as [env' s0].
  cbn [fst snd] in H0.
  match goal with
  | |- context [inner ?n ?ws0 ?ev0] =>
      pose proof (inner_inv n ws0 ev0 H0) as H;
      destruct (inner n ws0 ev0) as [[ws' ev'] out]
  end.
  destruct out; cbn [fst]; try exact H.
  destruct (checkpoint_args Obs v name ev') as [rep|e] eqn:Ha; cbn [fst]; eauto.
Qed.

(** A worker that ends normally has met the budget and then put its
    sentinel; one that stops otherwise stops in a state where [J] holds. *)
Lemma outer_inv fuel ws :
  J ws ->
  match outer fuel ws with
  | (ws', Finished) =>
      exists ws1, J ws1 /\ max_eps <= counter_value (w_world ws1) /\
                  ws' = mkW (w_env ws1) (w_net ws1) (put_none (w_world ws1))
                            (w_rng ws1) (w_thread_step ws1)
                            (w_log ws1 ++ [EvPutNone])
  | (ws', _) => J ws'
  end.
Proof.
  revert ws; induction fuel as [|fuel IH]; intros ws HJ; simpl.
  - destruct (Z.ltb_spec (counter_value (w_world ws)) max_eps); [exact HJ|].
    exists ws. repeat split; auto.
  - destruct (Z.ltb_spec (counter_value (w_world ws)) max_eps) as [Hlt|Hge].
    + pose proof (episode_inv ws HJ Hlt) as He.
      destruct (episode ws) as [ws' out]. cbn [fst] in He.
      destruct out; [apply IH; exact He|exact He|exact He].
    + exists ws. repeat split; auto.
Qed.
End Invariant.

End WorkerInvariants.

(** ** What the log of a worker always looks like *)

Lemma mod_succ_nonzero t d :
  0 < d -> t mod d <> 0 -> (t - 1) mod d + 1 = t mod d.
Proof.
  intros Hd Hm. pose proof (Z.mod_pos_bound t d Hd) as Hb.
  pose proof (Z.div_mod t d ltac:(lia)) as Ht.
  assert (H : (t - 1) mod d = t mod d - 1).
  { symmetry. apply (Z.mod_unique (t - 1) d (t / d)); lia. }
  lia.
Qed.

Section WorkerLog.
Variables E Obs Net W R : Type.
Variable v : variant.
Variable name : string.
Variable env_reset : E -> E * Obs.
Variable env_step : E -> Z -> E * (Obs * Q * bool).
Variable n_actions : Z.
Variable sample : Net -> Obs -> R -> nat * R.
Variable synchronize :
  W -> Net -> bool -> Obs -> list Obs -> list Z -> list Q ->
  (W * Net) * result sync_ret.
Variable checkpoint_cb : W -> report -> W.
Variable counter_value : W -> Z.
Variable put_none : W -> W.
Variables max_eps max_length update_global_delay : Z.

Local Abbreviation body :=
  (step_body E Obs Net W R v env_step n_actions sample synchronize
             update_global_delay).
Local Abbreviation cases :=
  (body_cases E Obs Net W R v env_step n_actions sample synchronize
              update_global_delay).
Local Abbreviation outer :=
  (run_loop E Obs Net W R v name env_reset env_step n_actions sample
            synchronize checkpoint_cb counter_value put_none
            max_eps max_length update_global_delay).

(** Split a goal about one pass of the body into the ways it can go. *)
Ltac split_body ws ev :=
  let i := fresh "i" in let rng' := fresh "rng'" in
  let env' := fresh "env'" in let s' := fresh "s'" in
  let r0 := fresh "r0" in let done := fresh "done" in
  let Hs := fresh "Hs" in let He := fresh "He" in
  let Hc := fresh "Hc" in let Hd := fresh "Hd" in
  let Hm := fresh "Hm" in let Hb := fresh "Hb" in
  let Hdn := fresh "Hdn" in let Hsy := fresh "Hsy" in
  let Hacc := fresh "Hacc" in
  let world' := fresh "world'" in let net' := fresh "net'" in
  let res := fresh "res" in let ret := fresh "ret" in
  let ev2 := fresh "ev2" in let e := fresh "e" in
  destruct (cases ws ev)
    as (i & rng' & env' & s' & r0 & done & Hs & He & Hc);
  cbv zeta in Hc;
  destruct Hc as [[Hd Hb]|[(Hd & Hm & Hdn & Hb)
                          |(Hd & Hm & world' & net' & res & Hsy & Hb)]];
  [ rewrite Hb
  | rewrite Hb
  | destruct res as [ret|e];
    [ destruct (accumulate Obs v ret
                  (stepped ev (Z.of_nat i) (recorded_reward done r0)))
        as [ev2|e] eqn:Hacc;
      [ destruct done; rewrite Hb | rewrite Hb ]
    | rewrite Hb ] ].

Local Abbreviation log_facts := (log_facts_for (Obs:=Obs) update_global_delay).
Local Abbreviation head_ok :=
  (head_ok_for (E:=E) (Obs:=Obs) (Net:=Net) (W:=W) (R:=R) update_global_delay).

Lemma log_facts_snoc log e :
  Forall log_facts log -> log_facts e -> Forall log_facts (log ++ [e]).
Proof.
  intros H1 H2. apply Forall_app; split; [exact H1|]. constructor; [exact H2|constructor].
Qed.

Lemma sync_event_facts ws ev done s' action r0 :
  head_ok ws ev ->
  log_facts (EvSync done s' (buffer_s ev ++ [state ev])
                    (buffer_a ev ++ [action])
                    (buffer_r ev ++ [recorded_reward done r0])).
Proof.
  intros (_ & [Ha Hr] & Hb). split.
  - destruct done; simpl; [|exact I]. eexists; reflexivity.
  - intros Hd. specialize (Hb Hd).
    pose proof (Z.mod_pos_bound (w_thread_step ws - 1) update_global_delay Hd).
    simpl. rewrite !length_app; simpl. lia.
Qed.

Lemma body_head_ok ws ev :
  head_ok ws ev ->
  match body ws ev with
  | (ws', ev', Continue) => head_ok ws' ev'
  | (ws', _, _) => Forall log_facts (w_log ws')
  end.
Proof.
  intros Hh. pose proof Hh as (Hlog & [Ha Hr] & Hbound).
  assert (Hstep : forall a p, Forall log_facts (w_log ws ++ [EvStep a p])).
  { intros. apply log_facts_snoc; [exact Hlog|]. split; [exact I|intros _; exact I]. }
  assert (Hsync : forall a p done s' r0,
             Forall log_facts
               ((w_log ws ++ [EvStep a p])
                ++ [EvSync done s' (buffer_s ev ++ [state ev])
                           (buffer_a ev ++ [a])
                           (buffer_r ev ++ [recorded_reward done r0])])).
  { intros. apply log_facts_snoc; [apply Hstep|].
    apply (sync_event_facts ws). exact Hh. }
  split_body ws ev; cbn [w_log]; try apply Hstep; try apply Hsync.
  - (* no synchronisation on this pass *)
    split; [apply Hstep|]. split.
    + split; simpl; rewrite !length_app; simpl; lia.
    + intros Hpos. specialize (Hbound Hpos). simpl.
      rewrite length_app; simpl.
      replace (w_thread_step ws + 1 - 1) with (w_thread_step ws) by lia.
      pose proof (mod_succ_nonzero _ _ Hpos Hm). lia.
  - (* synchronised, not terminal *)
    split; [apply Hsync|]. split.
    + split; reflexivity.
    + intros Hpos. simpl.
      pose proof (Z.mod_pos_bound (w_thread_step ws + 1 - 1)
                    update_global_delay Hpos). lia.
Qed.

Lemma outer_log_facts fuel ws :
  Forall log_facts (w_log ws) ->
  Forall log_facts (w_log (fst (outer fuel ws))).
Proof.
  intros H.
  pose proof (outer_inv E Obs Net W R v name env_reset env_step n_actions
                sample synchronize checkpoint_cb counter_value put_none
                max_eps max_length update_global_delay
                head_ok (fun ws _ => Forall log_facts (w_log ws))
                (fun ws => Forall log_facts (w_log ws))) as Hinv.
  specialize (Hinv ltac:(intros ws0 ev0 H0 _; apply body_head_ok; exact H0)
                   ltac:(intros ws0 ev0 H0 _; apply H0)
                   ltac:(intros ws0 ev0 H0; apply H0)).
  specialize (Hinv
    ltac:(intros ws0 H0 _; split;
          [cbn [w_log]; apply log_facts_snoc;
             [exact H0|split; [exact I|intros _; exact I]]
          |split; [split; reflexivity
                  |intros Hpos; simpl;
                   pose proof (Z.mod_pos_bound (w_thread_step ws0 - 1)
                                 update_global_delay Hpos); lia]])
    ltac:(intros ws0 ev0 rep H0 _; cbn [w_log]; apply log_facts_snoc;
          [exact H0|split; [exact I|intros _; exact I]])
    ltac:(intros ws0 ev0 e0 H0 _; exact H0)
    fuel ws H).
  destruct (outer fuel ws) as [ws' out]. cbn [fst].
  destruct out; try exact Hinv.
  destruct Hinv as (ws1 & H1 & _ & ->). cbn [w_log].
  apply log_facts_snoc; [exact H1|split; [exact I|intros _; exact I]].
Qed.

Lemma replay_snoc (log : list (event Obs)) e :
  replay (log ++ [e]) = replay_event (replay log) e.
Proof. unfold replay. rewrite fold_left_app. reflexivity. Qed.

Lemma replay_sync log pending (done : bool) (s' : Obs) bs br :
  replay log = Some pending ->
  replay (log ++ [EvSync done s' bs pending br]) = Some [].
Proof.
  intros H. rewrite replay_snoc, H. simpl.
  destruct (list_eq_dec Z.eq_dec pending pending); [reflexivity|contradiction].
Qed.

Lemma body_replay ws ev :
  replay (w_log ws) = Some (buffer_a ev) ->
  match body ws ev with
  | (ws', ev', Continue) => replay (w_log ws') = Some (buffer_a ev')
  | (ws', _, _) => exists pending, replay (w_log ws') = Some pending
  end.
Proof.
  intros H.
  assert (Hstep : forall a p,
             replay (w_log ws ++ [EvStep a p]) = Some (buffer_a ev ++ [a])).
  { intros. rewrite replay_snoc, H. reflexivity. }
  assert (Hsync : forall a p done s' bs br,
             replay ((w_log ws ++ [EvStep a p])
                     ++ [EvSync done s' bs (buffer_a ev ++ [a]) br]) = Some []).
  { intros. apply replay_sync. apply Hstep. }
  split_body ws ev; cbn [w_log]; simpl buffer_a;
    try (eexists; apply Hstep); try (eexists; apply Hsync).
  - apply Hstep.
  - apply accumulate_fields in Hacc as (_ & _ & _ & _). apply Hsync.
Qed.

Lemma outer_replay fuel ws :
  (exists pending, replay (w_log ws) = Some pending) ->
  exists pending, replay (w_log (fst (outer fuel ws))) = Some pending.
Proof.
  intros H.
  pose proof (outer_inv E Obs Net W R v name env_reset env_step n_actions
                sample synchronize checkpoint_cb counter_value put_none
                max_eps max_length update_global_delay
                (fun ws ev => replay (w_log ws) = Some (buffer_a ev))
                (fun ws _ => exists pending, replay (w_log ws) = Some pending)
                (fun ws => exists pending, replay (w_log ws) = Some pending))
    as Hinv.
  specialize (Hinv ltac:(intros ws0 ev0 H0 _; apply body_replay; exact H0)
                   ltac:(intros ws0 ev0 H0 _; eexists; exact H0)
                   ltac:(intros ws0 ev0 H0; eexists; exact H0)).
  specialize (Hinv
    ltac:(intros ws0 [pend H0] _; cbn [w_log]; rewrite replay_snoc, H0;
          reflexivity)
    ltac:(intros ws0 ev0 rep [pend H0] _; cbn [w_log]; exists pend;
          rewrite replay_snoc, H0; reflexivity)
    ltac:(intros ws0 ev0 e0 H0 _; exact H0)
    fuel ws H).
  destruct (outer fuel ws) as [ws' out]. cbn [fst].
  destruct out; try exact Hinv.
  destruct Hinv as (ws1 & [pend H1] & _ & ->). cbn [w_log].
  exists pend. rewrite replay_snoc, H1. reflexivity.
Qed.

Lemma steps_taken_snoc (log : list (event Obs)) e :
  steps_taken (log ++ [e])
  = (steps_taken log
     + match e with EvStep _ _ => 1 | _ => 0 end)%nat.
Proof.
  unfold steps_taken. rewrite filter_app, length_app.
  destruct e; reflexivity.
Qed.

Lemma last_sync_terminal_snoc (log : list (event Obs)) e :
  last_sync_terminal (log ++ [e])
  = match e with EvSync true _ _ _ _ => true | _ => false end.
Proof. unfold last_sync_terminal. rewrite rev_app_distr. reflexivity. Qed.

Lemma body_steps c0 ws ev :
  steps_counted c0 max_length ws ev -> episode_step ev < max_length ->
  match body ws ev with
  | (ws', ev', Continue) => steps_counted c0 max_length ws' ev'
  | (ws', ev', Break) => steps_reported c0 max_length ws' ev'
  | (_, _, Raised _) => True
  end.
Proof.
  intros (Hc & Hr & Hl) Hlt.
  split_body ws ev; try exact I.
  - (* no synchronisation *)
    unfold steps_counted, advance; cbn [w_log episode_step stepped].
    rewrite steps_taken_snoc, last_sync_terminal_snoc.
    repeat split; lia.
  - (* terminal step *)
    apply accumulate_fields in Hacc as (_ & _ & _ & Hes & _).
    unfold steps_reported, clear_buffers; cbn [w_log episode_step].
    rewrite !steps_taken_snoc, last_sync_terminal_snoc, Hes.
    cbn [stepped episode_step]. split; lia.
  - (* synchronised, not terminal *)
    apply accumulate_fields in Hacc as (_ & _ & _ & Hes & _).
    unfold steps_counted, advance, clear_buffers; cbn [w_log episode_step].
    rewrite !steps_taken_snoc, last_sync_terminal_snoc, Hes.
    cbn [stepped episode_step]. repeat split; lia.
Qed.

Lemma episode_steps ws ws' :
  run_episode E Obs Net W R v name env_reset env_step n_actions sample
              synchronize checkpoint_cb max_length update_global_delay ws
  = (ws', Finished) ->
  exists rep prefix,
    w_log ws' = prefix ++ [EvCheckpoint rep] /\
    Z.of_nat (steps_taken (w_log ws'))
    = Z.of_nat (steps_taken (w_log ws)) + rep_length rep
      + (if ended_by_done (w_log ws') then 1 else 0) /\
    0 <= rep_length rep <= Z.max 0 max_length.
Proof.
  unfold run_episode.
  destruct (env_reset (w_env ws)) as [env' s0].
  match goal with
  | |- context [episode_loop ?E ?O ?N ?W ?R ?v ?es ?na ?sa ?sy ?ml ?d ?n ?ws0 ?ev0] =>
      pose proof (inner_inv E O N W R v es na sa sy ml d
                    (steps_counted (Z.of_nat (steps_taken (w_log ws))) ml)
                    (steps_reported (Z.of_nat (steps_taken (w_log ws))) ml)
                    (fun _ => True)) as Hinv;
      specialize (Hinv (body_steps (Z.of_nat (steps_taken (w_log ws)))));
      specialize (Hinv
        ltac:(intros ws1 ev1 (H1 & H2 & H3) _; split;
              [rewrite H3; lia|exact H2])
        ltac:(intros; exact I) n ws0 ev0);
      destruct (episode_loop E O N W R v es na sa sy ml d n ws0 ev0)
        as [[ws1 ev1] out]
  end.
  destruct out; try discriminate.
  destruct (checkpoint_args Obs v name ev1) as [rep|e] eqn:Ha; [|discriminate].
  intros [= <-]. cbn [w_log].
  destruct Hinv as [H1 H2].
  { unfold steps_counted; cbn [w_log episode_step fresh_episode].
    rewrite steps_taken_snoc, last_sync_terminal_snoc.
    repeat split; lia. }
  apply checkpoint_args_length in Ha.
  exists rep, (w_log ws1). split; [reflexivity|].
  rewrite steps_taken_snoc, Ha.
  replace (ended_by_done (w_log ws1 ++ [EvCheckpoint rep]))
    with (last_sync_terminal (w_log ws1)).
  2:{ unfold ended_by_done, last_sync_terminal. rewrite rev_app_distr.
      simpl. destruct (rev (w_log ws1)) as [|[] ?]; reflexivity. }
  split; lia.
Qed.

Lemma last_is_sync_snoc (log : list (event Obs)) e :
  last_is_sync (log ++ [e])
  = match e with EvSync _ _ _ _ _ => true | _ => false end.
Proof. unfold last_is_sync. rewrite rev_app_distr. reflexivity. Qed.

Lemma body_cap t0 ws ev :
  cap_counted t0 max_length update_global_delay ws ev ->
  episode_step ev < max_length ->
  match body ws ev with
  | (ws', ev', Continue) => cap_counted t0 max_length update_global_delay ws' ev'
  | (ws', ev', Break) => cap_reached t0 max_length update_global_delay ws' ev'
  | (_, _, Raised _) => True
  end.
Proof.
  intros (Ht & Hr & Hl & Hs) Hlt.
  split_body ws ev; try exact I.
  - (* no synchronisation *)
    unfold cap_counted, advance;
      cbn [w_log w_thread_step episode_step stepped].
    rewrite last_sync_terminal_snoc, last_is_sync_snoc.
    replace (w_thread_step ws + 1 - 1) with (w_thread_step ws) by lia.
    repeat split; try lia; try discriminate.
  - (* terminal step *)
    unfold cap_reached; cbn [w_log].
    rewrite last_sync_terminal_snoc. discriminate.
  - (* synchronised, not terminal *)
    apply accumulate_fields in Hacc as (_ & _ & _ & Hes & _).
    destruct Hm as [Hm|Hm]; [|discriminate].
    unfold cap_counted, advance, clear_buffers;
      cbn [w_log w_thread_step episode_step].
    rewrite last_sync_terminal_snoc, last_is_sync_snoc, Hes.
    cbn [stepped episode_step].
    replace (w_thread_step ws + 1 - 1) with (w_thread_step ws) by lia.
    repeat split; try lia; try reflexivity.
Qed.

End WorkerLog.

(** X1. Whenever the environment reports [done], the reward that goes
    into the trajectory is the penalty -1, whatever the environment
    returned: a synchronisation made on a terminal step ends its rewards
    with -1. *)
Theorem terminal_reward_is_penalty
  (E Obs Net W R : Type) (v : variant) (name : string)
  (env_reset : E -> E * Obs) (env_step : E -> Z -> E * (Obs * Q * bool))
  (n_actions : Z) (sample : Net -> Obs -> R -> nat * R)
  (synchronize : W -> Net -> bool -> Obs -> list Obs -> list Z -> list Q ->
                 (W * Net) * result sync_ret)
  (checkpoint_cb : W -> report -> W) (counter_value : W -> Z)
  (put_none : W -> W) (max_eps max_length update_global_delay : Z)
  (fuel : nat) (env : E) (net : Net) (world : W) (rng : R) :
  Forall terminal_reward_overridden
    (w_log (fst (run E Obs Net W R v name env_reset env_step n_actions sample
                     synchronize checkpoint_cb counter_value put_none
                     max_eps max_length update_global_delay
                     fuel env net world rng))).
Proof.
  unfold run.
  eapply Forall_impl;
    [|apply (outer_log_facts E Obs Net W R v name env_reset env_step
               n_actions sample synchronize checkpoint_cb counter_value
               put_none max_eps max_length update_global_delay);
      constructor].
  intros e [H _]. exact H.
Qed.

(** X2. With a positive [update_global_delay], no synchronisation carries
    more than that many triples. *)
Theorem trajectory_bounded_by_delay
  (E Obs Net W R : Type) (v : variant) (name : string)
  (env_reset : E -> E * Obs) (env_step : E -> Z -> E * (Obs * Q * bool))
  (n_actions : Z) (sample : Net -> Obs -> R -> nat * R)
  (synchronize : W -> Net -> bool -> Obs -> list Obs -> list Z -> list Q ->
                 (W * Net) * result sync_ret)
  (checkpoint_cb : W -> report -> W) (counter_value : W -> Z)
  (put_none : W -> W) (max_eps max_length update_global_delay : Z)
  (fuel : nat) (env : E) (net : Net) (world : W) (rng : R) :
  0 < update_global_delay ->
  Forall (sync_within update_global_delay)
    (w_log (fst (run E Obs Net W R v name env_reset env_step n_actions sample
                     synchronize checkpoint_cb counter_value put_none
                     max_eps max_length update_global_delay
                     fuel env net world rng))).
Proof.
  intros Hd. unfold run.
  eapply Forall_impl;
    [|apply (outer_log_facts E Obs Net W R v name env_reset env_step
               n_actions sample synchronize checkpoint_cb counter_value
               put_none max_eps max_length update_global_delay);
      constructor].
  intros e [_ H]. exact (H Hd).
Qed.

Lemma trajectory_bounded_by_delay_witness :
  Forall (sync_within 2) (w_log (fst (toy_run Conv short_step 2 2 5))).
Proof.
  unfold toy_run, spawned_run.
  apply trajectory_bounded_by_delay. lia.
Defined.

(** X3. Every synchronisation receives exactly the actions sampled since
    the previous synchronisation (or since the reset that began the
    episode), in order and as sampled, also where the environment was
    given the default index instead. *)
Theorem trajectory_is_steps_since_last_sync
  (E Obs Net W R : Type) (v : variant) (name : string)
  (env_reset : E -> E * Obs) (env_step : E -> Z -> E * (Obs * Q * bool))
  (n_actions : Z) (sample : Net -> Obs -> R -> nat * R)
  (synchronize : W -> Net -> bool -> Obs -> list Obs -> list Z -> list Q ->
                 (W * Net) * result sync_ret)
  (checkpoint_cb : W -> report -> W) (counter_value : W -> Z)
  (put_none : W -> W) (max_eps max_length update_global_delay : Z)
  (fuel : nat) (env : E) (net : Net) (world : W) (rng : R) :
  replay (w_log (fst (run E Obs Net W R v name env_reset env_step n_actions
                          sample synchronize checkpoint_cb counter_value
                          put_none max_eps max_length update_global_delay
                          fuel env net world rng))) <> None.
Proof.
  unfold run.
  destruct (outer_replay E Obs Net W R v name env_reset env_step n_actions
              sample synchronize checkpoint_cb counter_value put_none
              max_eps max_length update_global_delay fuel
              (mkW env net world rng 1 [])) as [pending H].
  - exists []. reflexivity.
  - rewrite H. discriminate.
Qed.

(** ** Workers wired to the coordinator: queue and counter *)

Lemma wrap_int32_range z : - 2 ^ 31 <= wrap_int32 z < 2 ^ 31.
Proof.
  unfold wrap_int32.
  pose proof (Z.mod_pos_bound (z + 2 ^ 31) (2 ^ 32) ltac:(lia)). lia.
Qed.

Lemma wrap_int32_small z : - 2 ^ 31 <= z < 2 ^ 31 -> wrap_int32 z = z.
Proof.
  intros H. unfold wrap_int32. rewrite Z.mod_small by lia. lia.
Qed.

Section SpawnFacts.
Variables E Obs R OptSlot : Type.
Variable v : variant.
Variable policy_head : network -> Obs -> list dual.
Variable value_head : network -> Obs -> dual.
Variable log_softmax_at : list dual -> Z -> result dual.
Variable backward : network -> list Obs -> list Z -> list Q -> list (list Q).
Variable rmsprop : OptSlot -> list Q -> list Q -> OptSlot * list Q.
Variable env_reset : E -> E * Obs.
Variable env_step : E -> Z -> E * (Obs * Q * bool).
Variable n_actions : Z.
Variable sample : network -> Obs -> R -> nat * R.
Variable name : string.
Variables max_eps update_global_delay : Z.

Local Abbreviation sync_cb :=
  (sync_of Obs OptSlot v policy_head value_head log_softmax_at backward rmsprop).
Local Abbreviation body :=
  (step_body E Obs network (A3C OptSlot) R v env_step n_actions sample sync_cb
             update_global_delay).
Local Abbreviation episode :=
  (run_episode E Obs network (A3C OptSlot) R v name env_reset env_step
               n_actions sample sync_cb checkpoint 1000 update_global_delay).
Local Abbreviation outer :=
  (run_loop E Obs network (A3C OptSlot) R v name env_reset env_step n_actions
            sample sync_cb checkpoint global_ep_counter put_sentinel
            max_eps 1000 update_global_delay).
Local Abbreviation keeps :=
  (sync_of_keeps Obs OptSlot v policy_head value_head log_softmax_at backward
                 rmsprop).

Lemma checkpoint_record (self : A3C OptSlot) ev rep :
  checkpoint_args Obs v name ev = Ok rep ->
  exists record,
    res_queue (checkpoint self rep) = res_queue self ++ [Some record] /\
    record_from v name record.
Proof.
  unfold checkpoint_args, checkpoint, record_from. destruct v.
  - intros [= <-]. simpl. eexists; split; [reflexivity|].
    simpl. repeat split. discriminate.
  - destruct (grad_updates ev =? 0); [discriminate|].
    intros [= <-]. simpl. eexists; split; [reflexivity|].
    simpl. repeat split. discriminate.
Qed.

Local Abbreviation queue_grown :=
  (queue_grown_for (E:=E) (Obs:=Obs) (R:=R) (OptSlot:=OptSlot) v name).

Lemma outer_queue q0 fuel ws :
  queue_grown q0 ws ->
  exists recs,
    res_queue (w_world (fst (outer fuel ws)))
    = q0 ++ map Some recs ++ sentinel_after (snd (outer fuel ws)) /\
    Forall (record_from v name) recs.
Proof.
  intros H.
  pose proof (outer_inv E Obs network (A3C OptSlot) R v name env_reset env_step
                n_actions sample sync_cb checkpoint global_ep_counter
                put_sentinel max_eps 1000 update_global_delay
                (fun ws _ => queue_grown q0 ws)
                (fun ws _ => queue_grown q0 ws)
                (queue_grown q0)) as Hinv.
  assert (Hbody : forall ws0 ev0, queue_grown q0 ws0 ->
                    queue_grown q0 (fst (fst (body ws0 ev0)))).
  { intros ws0 ev0 (recs & Hq & Hr). exists recs. split; [|exact Hr].
    rewrite <- Hq.
    apply (body_world E Obs network (A3C OptSlot) R v env_step n_actions
             sample sync_cb update_global_delay _ res_queue
             (fun w net dn s a b c => proj2 (keeps w net dn s a b c))). }
  specialize (Hinv
    ltac:(intros ws0 ev0 H0 _; specialize (Hbody ws0 ev0 H0);
          destruct (body ws0 ev0) as [[ws1 ev1] c]; destruct c; exact Hbody)
    ltac:(intros ws0 ev0 H0 _; exact H0)
    ltac:(intros ws0 ev0 H0; exact H0)
    ltac:(intros ws0 H0 _; exact H0)).
  assert (Hcp : forall (ws0 : wstate E Obs network (A3C OptSlot) R)
                   (ev0 : epvars Obs) rep,
             queue_grown q0 ws0 ->
             checkpoint_args Obs v name ev0 = Ok rep ->
             queue_grown q0
               (mkW (w_env ws0) (w_net ws0) (checkpoint (w_world ws0) rep)
                    (w_rng ws0) (w_thread_step ws0)
                    (w_log ws0 ++ [EvCheckpoint rep]))).
  { intros ws0 ev0 rep (recs & Hq & Hr) Ha.
    destruct (checkpoint_record (w_world ws0) ev0 rep Ha)
      as (record & Hq' & Hrec).
    exists (recs ++ [record]). cbn [w_world]. split.
    - rewrite Hq', Hq, map_app, <- app_assoc. reflexivity.
    - apply Forall_app; split; [exact Hr|]. constructor; [exact Hrec|constructor]. }
  specialize (Hinv Hcp ltac:(intros ws0 ev0 e0 H0 _; exact H0) fuel ws H).
  destruct (outer fuel ws) as [ws' out]. cbn [fst snd].
  destruct out.
  - destruct Hinv as (ws1 & (recs & Hq & Hr) & _ & ->).
    exists recs. split; [|exact Hr]. cbn [w_world sentinel_after].
    unfold put_sentinel; simpl. rewrite Hq, app_assoc. reflexivity.
  - destruct Hinv as (recs & Hq & Hr). exists recs. split; [|exact Hr].
    cbn [sentinel_after]. rewrite app_nil_r. exact Hq.
  - destruct Hinv as (recs & Hq & Hr). exists recs. split; [|exact Hr].
    cbn [sentinel_after]. rewrite app_nil_r. exact Hq.
Qed.

(** While the budget fits the 32-bit counter, every episode that ends
    moves the counter one closer to it, so the loop ends. *)
Lemma outer_total fuel ws :
  - 2 ^ 31 <= global_ep_counter (w_world ws) ->
  max_eps <= 2 ^ 31 - 1 ->
  (Z.to_nat (max_eps - global_ep_counter (w_world ws)) <= fuel)%nat ->
  snd (outer fuel ws) <> OutOfFuel.
Proof.
  revert ws; induction fuel as [|fuel IH]; intros ws Hlo Hmax Hfuel; simpl.
  - destruct (Z.ltb_spec (global_ep_counter (w_world ws)) max_eps);
      simpl; [lia|discriminate].
  - destruct (Z.ltb_spec (global_ep_counter (w_world ws)) max_eps) as [Hlt|Hge];
      simpl; [|discriminate].
    pose proof (episode_total E Obs network (A3C OptSlot) R v name env_reset
                  env_step n_actions sample sync_cb checkpoint 1000
                  update_global_delay ws) as Htot.
    destruct (episode ws) as [ws' out] eqn:Hep. simpl in Htot.
    destruct out; simpl; [|discriminate|contradiction].
    pose proof (wired_episode_counts E Obs R OptSlot v policy_head value_head
                  log_softmax_at backward rmsprop env_reset env_step n_actions
                  sample name 1000 update_global_delay ws ws' Hep) as [Hc _].
    rewrite wrap_int32_small in Hc by lia.
    apply IH; lia.
Qed.

(** With a budget beyond the 32-bit counter the loop test never fails. *)
Lemma outer_never_finishes fuel ws :
  - 2 ^ 31 <= global_ep_counter (w_world ws) < 2 ^ 31 ->
  2 ^ 31 <= max_eps ->
  snd (outer fuel ws) <> Finished.
Proof.
  revert ws; induction fuel as [|fuel IH]; intros ws Hr Hmax; simpl.
  - destruct (Z.ltb_spec (global_ep_counter (w_world ws)) max_eps);
      simpl; [discriminate|lia].
  - destruct (Z.ltb_spec (global_ep_counter (w_world ws)) max_eps) as [Hlt|Hge];
      simpl; [|lia].
    destruct (episode ws) as [ws' out] eqn:Hep.
    destruct out; simpl; [|discriminate|discriminate].
    pose proof (wired_episode_counts E Obs R OptSlot v policy_head value_head
                  log_softmax_at backward rmsprop env_reset env_step n_actions
                  sample name 1000 update_global_delay ws ws' Hep) as [Hc _].
    apply IH; [|exact Hmax]. rewrite Hc. apply wrap_int32_range.
Qed.

End SpawnFacts.

Lemma run_drain_no_sentinel recs episode :
  run_drain (map Some recs) episode
  = mkDrained (episode + Z.of_nat (length recs)) (numbered episode recs)
              (length recs) 0 [] Blocked.
Proof.
  revert episode; induction recs as [|r recs IH]; intros episode.
  - simpl. rewrite Z.add_0_r. reflexivity.
  - cbn [map run_drain]. rewrite IH. unfold took_record.
    cbn [dr_episode dr_recorded dr_records dr_sentinels dr_left dr_exit
         numbered length].
    f_equal. lia.
Qed.

Lemma worker_queue_shape_lemma
  (E Obs R OptSlot : Type) (v : variant)
  (policy_head : network -> Obs -> list dual)
  (value_head : network -> Obs -> dual)
  (log_softmax_at : list dual -> Z -> result dual)
  (backward : network -> list Obs -> list Z -> list Q -> list (list Q))
  (rmsprop : OptSlot -> list Q -> list Q -> OptSlot * list Q)
  (env_reset : E -> E * Obs) (env_step : E -> Z -> E * (Obs * Q * bool))
  (n_actions : Z) (sample : network -> Obs -> R -> nat * R)
  (name : string) (max_eps update_global_delay : Z)
  (fuel : nat) (env : E) (net : network) (world : A3C OptSlot) (rng : R) :
  exists recs,
    res_queue (w_world (fst (spawned_run E Obs R OptSlot v policy_head
                               value_head log_softmax_at backward rmsprop
                               env_reset env_step n_actions sample name
                               max_eps update_global_delay
                               fuel env net world rng)))
    = res_queue world ++ map Some recs
      ++ sentinel_after (snd (spawned_run E Obs R OptSlot v policy_head
                                value_head log_softmax_at backward rmsprop
                                env_reset env_step n_actions sample name
                                max_eps update_global_delay
                                fuel env net world rng)) /\
    Forall (record_from v name) recs.
Proof.
  unfold spawned_run, run. apply outer_queue.
  exists []. simpl. rewrite app_nil_r. split; [reflexivity|constructor].
Qed.

(** X4. Whatever happens, a worker built by the coordinator only appends
    to the result queue: records of its own episodes (numbered and without
    diagnostics in the base variant, with diagnostics in the richer one),
    followed by one sentinel exactly when it ends normally.  A worker
    stopped by an exception leaves no sentinel. *)
Theorem worker_queue_shape
  (E Obs R OptSlot : Type) (v : variant)
  (policy_head : network -> Obs -> list dual)
  (value_head : network -> Obs -> dual)
  (log_softmax_at : list dual -> Z -> result dual)
  (backward : network -> list Obs -> list Z -> list Q -> list (list Q))
  (rmsprop : OptSlot -> list Q -> list Q -> OptSlot * list Q)
  (env_reset : E -> E * Obs) (env_step : E -> Z -> E * (Obs * Q * bool))
  (n_actions : Z) (sample : network -> Obs -> R -> nat * R)
  (name : string) (max_eps update_global_delay : Z)
  (fuel : nat) (env : E) (net : network) (world : A3C OptSlot) (rng : R) :
  exists recs,
    res_queue (w_world (fst (spawned_run E Obs R OptSlot v policy_head
                               value_head log_softmax_at backward rmsprop
                               env_reset env_step n_actions sample name
                               max_eps update_global_delay
                               fuel env net world rng)))
    = res_queue world ++ map Some recs
      ++ sentinel_after (snd (spawned_run E Obs R OptSlot v policy_head
                                value_head log_softmax_at backward rmsprop
                                env_reset env_step n_actions sample name
                                max_eps update_global_delay
                                fuel env net world rng)) /\
    Forall (record_from v name) recs.
Proof. apply worker_queue_shape_lemma. Qed.

(** X5. When the episode budget fits the 32-bit counter, a worker needs at
    most [max_eps - counter] passes of its outer loop: it then has ended
    normally or by an exception. *)
Theorem worker_ends_within_budget
  (E Obs R OptSlot : Type) (v : variant)
  (policy_head : network -> Obs -> list dual)
  (value_head : network -> Obs -> dual)
  (log_softmax_at : list dual -> Z -> result dual)
  (backward : network -> list Obs -> list Z -> list Q -> list (list Q))
  (rmsprop : OptSlot -> list Q -> list Q -> OptSlot * list Q)
  (env_reset : E -> E * Obs) (env_step : E -> Z -> E * (Obs * Q * bool))
  (n_actions : Z) (sample : network -> Obs -> R -> nat * R)
  (name : string) (max_eps update_global_delay : Z)
  (fuel : nat) (env : E) (net : network) (world : A3C OptSlot) (rng : R) :
  - 2 ^ 31 <= global_ep_counter world ->
  max_eps <= 2 ^ 31 - 1 ->
  (Z.to_nat (max_eps - global_ep_counter world) <= fuel)%nat ->
  snd (spawned_run E Obs R OptSlot v policy_head value_head log_softmax_at
                   backward rmsprop env_reset env_step n_actions sample name
                   max_eps update_global_delay fuel env net world rng)
  <> OutOfFuel.
Proof.
  intros. unfold spawned_run, run. apply outer_total; assumption.
Qed.

Lemma worker_ends_within_budget_witness :
  snd (toy_run Base short_step 2 2 2) <> OutOfFuel.
Proof.
  unfold toy_run.
  apply worker_ends_within_budget; simpl; lia.
Defined.

(** X6. The shared counter is a 32-bit integer that wraps around, so a
    budget of 2^31 episodes or more is never met: such a worker never
    leaves its outer loop normally, however long it runs. *)
Theorem budget_beyond_counter_never_met
  (E Obs R OptSlot : Type) (v : variant)
  (policy_head : network -> Obs -> list dual)
  (value_head : network -> Obs -> dual)
  (log_softmax_at : list dual -> Z -> result dual)
  (backward : network -> list Obs -> list Z -> list Q -> list (list Q))
  (rmsprop : OptSlot -> list Q -> list Q -> OptSlot * list Q)
  (env_reset : E -> E * Obs) (env_step : E -> Z -> E * (Obs * Q * bool))
  (n_actions : Z) (sample : network -> Obs -> R -> nat * R)
  (name : string) (max_eps update_global_delay : Z)
  (fuel : nat) (env : E) (net : network) (world : A3C OptSlot) (rng : R) :
  - 2 ^ 31 <= global_ep_counter world < 2 ^ 31 ->
  2 ^ 31 <= max_eps ->
  snd (spawned_run E Obs R OptSlot v policy_head value_head log_softmax_at
                   backward rmsprop env_reset env_step n_actions sample name
                   max_eps update_global_delay fuel env net world rng)
  <> Finished.
Proof.
  intros. unfold spawned_run, run. apply outer_never_finishes; assumption.
Qed.

Lemma budget_beyond_counter_never_met_witness :
  snd (toy_run Base short_step (2 ^ 31) 2 3) <> Finished.
Proof.
  unfold toy_run.
  apply budget_beyond_counter_never_met; simpl; lia.
Defined.

(** X7. One worker and the coordinator's loop fit together: when the
    worker ends normally on a queue that was empty, the loop records every
    episode of the worker, in order, adds one to its tally for each, takes
    the sentinel, leaves the queue empty and ends.  The same holds for
    the richer variant's loop on a richer worker. *)
Theorem finished_worker_is_drained
  (E Obs R OptSlot : Type) (v : variant)
  (policy_head : network -> Obs -> list dual)
  (value_head : network -> Obs -> dual)
  (log_softmax_at : list dual -> Z -> result dual)
  (backward : network -> list Obs -> list Z -> list Q -> list (list Q))
  (rmsprop : OptSlot -> list Q -> list Q -> OptSlot * list Q)
  (env_reset : E -> E * Obs) (env_step : E -> Z -> E * (Obs * Q * bool))
  (n_actions : Z) (sample : network -> Obs -> R -> nat * R)
  (name : string) (max_eps update_global_delay : Z)
  (fuel : nat) (env : E) (net : network) (world : A3C OptSlot) (rng : R)
  (episode : Z) :
  res_queue world = [] ->
  snd (spawned_run E Obs R OptSlot v policy_head value_head log_softmax_at
                   backward rmsprop env_reset env_step n_actions sample name
                   max_eps update_global_delay fuel env net world rng)
  = Finished ->
  exists recs,
    Forall (record_from v name) recs /\
    run_drain
      (res_queue (w_world (fst (spawned_run E Obs R OptSlot v policy_head
                                  value_head log_softmax_at backward rmsprop
                                  env_reset env_step n_actions sample name
                                  max_eps update_global_delay
                                  fuel env net world rng)))) episode
    = mkDrained (episode + Z.of_nat (length recs)) (numbered episode recs)
                (length recs) 1 [] Broke /\
    (v = Conv ->
     run_drain_conv
       (res_queue (w_world (fst (spawned_run E Obs R OptSlot v policy_head
                                   value_head log_softmax_at backward rmsprop
                                   env_reset env_step n_actions sample name
                                   max_eps update_global_delay
                                   fuel env net world rng)))) episode
     = mkDrained (episode + Z.of_nat (length recs)) (numbered episode recs)
                 (length recs) 1 [] Broke).
Proof.
  intros Hq Hfin.
  destruct (worker_queue_shape_lemma E Obs R OptSlot v policy_head value_head
              log_softmax_at backward rmsprop env_reset env_step n_actions
              sample name max_eps update_global_delay fuel env net world rng)
    as (recs & Hshape & Hrecs).
  exists recs. split; [exact Hrecs|].
  rewrite Hshape, Hq, Hfin. cbn [sentinel_after app].
  split; [apply run_drain_prefix|].
  intros ->. apply run_drain_conv_prefix.
  eapply Forall_impl; [|exact Hrecs].
  intros r [_ [H _]]. exact H.
Qed.

Lemma finished_worker_is_drained_witness :
  exists recs,
    run_drain (res_queue (w_world (fst (toy_run Conv short_step 2 2 2)))) 7
    = mkDrained (7 + Z.of_nat (length recs)) (numbered 7 recs)
                (length recs) 1 [] Broke.
Proof.
  destruct (finished_worker_is_drained Z Z nat nat Conv toy_policy toy_value
              toy_log_softmax toy_backward toy_rmsprop endless_reset
              short_step 3 toy_sample "w0" 2 2 2%nat 0 toy_net toy_a3c O 7
              eq_refl ltac:(vm_compute; reflexivity))
    as (recs & _ & H & _).
  exists recs. exact H.
Defined.

(** X8. A worker stopped by an exception leaves no sentinel, so a
    coordinator's loop that waits on that worker alone records what
    arrived and then blocks in [get()]. *)
Theorem crashed_worker_blocks_drain
  (E Obs R OptSlot : Type) (v : variant)
  (policy_head : network -> Obs -> list dual)
  (value_head : network -> Obs -> dual)
  (log_softmax_at : list dual -> Z -> result dual)
  (backward : network -> list Obs -> list Z -> list Q -> list (list Q))
  (rmsprop : OptSlot -> list Q -> list Q -> OptSlot * list Q)
  (env_reset : E -> E * Obs) (env_step : E -> Z -> E * (Obs * Q * bool))
  (n_actions : Z) (sample : network -> Obs -> R -> nat * R)
  (name : string) (max_eps update_global_delay : Z)
  (fuel : nat) (env : E) (net : network) (world : A3C OptSlot) (rng : R)
  (episode : Z) (e : exn) :
  res_queue world = [] ->
  snd (spawned_run E Obs R OptSlot v policy_head value_head log_softmax_at
                   backward rmsprop env_reset env_step n_actions sample name
                   max_eps update_global_delay fuel env net world rng)
  = Crashed e ->
  exists recs,
    run_drain
      (res_queue (w_world (fst (spawned_run E Obs R OptSlot v policy_head
                                  value_head log_softmax_at backward rmsprop
                                  env_reset env_step n_actions sample name
                                  max_eps update_global_delay
                                  fuel env net world rng)))) episode
    = mkDrained (episode + Z.of_nat (length recs)) (numbered episode recs)
                (length recs) 0 [] Blocked.
Proof.
  intros Hq Hcr.
  destruct (worker_queue_shape_lemma E Obs R OptSlot v policy_head value_head
              log_softmax_at backward rmsprop env_reset env_step n_actions
              sample name max_eps update_global_delay fuel env net world rng)
    as (recs & Hshape & Hrecs).
  exists recs.
  rewrite Hshape, Hq, Hcr. cbn [sentinel_after app]. rewrite app_nil_r.
  apply run_drain_no_sentinel.
Qed.

Lemma crashed_worker_blocks_drain_witness :
  exists recs,
    run_drain (res_queue (w_world (fst (toy_run Base short_step 2 0 2)))) 0
    = mkDrained (0 + Z.of_nat (length recs)) (numbered 0 recs)
                (length recs) 0 [] Blocked.
Proof.
  apply (crashed_worker_blocks_drain Z Z nat nat Base toy_policy toy_value
           toy_log_softmax toy_backward toy_rmsprop endless_reset
           short_step 3 toy_sample "w0" 2 0 2%nat 0 toy_net toy_a3c O 0
           ZeroDivisionError eq_refl).
  vm_compute. reflexivity.
Defined.

(** X9. The length a worker reports for an episode is the number of
    environment steps it took, except that a terminal step is not
    counted ([break] comes before the increment): an episode ended by
    [done] after k steps is reported with length k - 1, one ended by the
    cap with its full number of steps.  The reported length never exceeds
    the cap. *)
Theorem reported_length_skips_terminal_step
  (E Obs Net W R : Type) (v : variant) (name : string)
  (env_reset : E -> E * Obs) (env_step : E -> Z -> E * (Obs * Q * bool))
  (n_actions : Z) (sample : Net -> Obs -> R -> nat * R)
  (synchronize : W -> Net -> bool -> Obs -> list Obs -> list Z -> list Q ->
                 (W * Net) * result sync_ret)
  (checkpoint_cb : W -> report -> W)
  (max_length update_global_delay : Z)
  (ws ws' : wstate E Obs Net W R) :
  run_episode E Obs Net W R v name env_reset env_step n_actions sample
              synchronize checkpoint_cb max_length update_global_delay ws
  = (ws', Finished) ->
  exists rep prefix,
    w_log ws' = prefix ++ [EvCheckpoint rep] /\
    Z.of_nat (steps_taken (w_log ws'))
    = Z.of_nat (steps_taken (w_log ws)) + rep_length rep
      + (if ended_by_done (w_log ws') then 1 else 0) /\
    0 <= rep_length rep <= Z.max 0 max_length.
Proof. apply episode_steps. Qed.

Lemma reported_length_skips_terminal_step_witness :
  snd toy_short_episode = Finished /\
  steps_taken (w_log (fst toy_short_episode)) = 3%nat /\
  ended_by_done (w_log (fst toy_short_episode)) = true /\
  exists rep prefix,
    w_log (fst toy_short_episode) = prefix ++ [EvCheckpoint rep] /\
    Z.of_nat (steps_taken (w_log (fst toy_short_episode)))
    = 0 + rep_length rep
      + (if ended_by_done (w_log (fst toy_short_episode)) then 1 else 0) /\
    0 <= rep_length rep <= Z.max 0 1000.
Proof.
  split; [vm_compute; reflexivity|].
  split; [vm_compute; reflexivity|].
  split; [vm_compute; reflexivity|].
  apply (reported_length_skips_terminal_step Z Z network (A3C nat) nat Conv
           "w0" endless_reset short_step 3 toy_sample
           (sync_of Z nat Conv toy_policy toy_value toy_log_softmax
                    toy_backward toy_rmsprop)
           checkpoint 1000 2 (mkW 0 toy_net toy_a3c O 1 [])
           (fst toy_short_episode)).
  vm_compute. reflexivity.
Defined.

(** ** Networks: loading, gradients, the optimiser step *)

Lemma lookup_in_nodup {V : Type} (l : list (string * V)) k x :
  NoDup (map fst l) -> In (k, x) l -> lookup k l = Some x.
Proof.
  induction l as [|[k' x'] l IH]; simpl; intros Hnd Hin; [contradiction|].
  inversion Hnd as [|? ? Hnot Hnd']; subst.
  destruct Hin as [[= -> ->]|Hin].
  - rewrite String.eqb_refl. reflexivity.
  - destruct (String.eqb_spec k k') as [->|Hne].
    + exfalso. apply Hnot. apply in_map_iff. exists (k', x). auto.
    + apply IH; assumption.
Qed.

Lemma has_key_in {V : Type} (l : list (string * V)) k :
  has_key k l = true <-> In k (map fst l).
Proof.
  unfold has_key. induction l as [|[k' x'] l IH]; simpl.
  - split; [discriminate|contradiction].
  - destruct (String.eqb_spec k k') as [->|Hne].
    + split; auto.
    + rewrite IH. split; [auto|]. intros [Heq|H]; [congruence|exact H].
Qed.

Lemma lookup_some_in {V : Type} (l : list (string * V)) k x :
  lookup k l = Some x -> In (k, x) l.
Proof.
  induction l as [|[k' x'] l IH]; simpl; [discriminate|].
  destruct (String.eqb_spec k k') as [->|Hne].
  - intros [= ->]. left; reflexivity.
  - intros H. right. apply IH. exact H.
Qed.

Lemma state_dict_names net : map fst (state_dict net) = names net.
Proof. unfold state_dict, names. rewrite map_map. reflexivity. Qed.

Lemma shapes_state_dict net :
  shapes net = map (fun kd : string * list Q => length (snd kd)) (state_dict net).
Proof. unfold shapes, state_dict. rewrite map_map. reflexivity. Qed.

Lemma loaded_entries sd (a b : network) :
  names a = names b -> shapes a = shapes b ->
  (forall kp, In kp b -> lookup (fst kp) sd = Some (data (snd kp))) ->
  forallb snd (map (load_entry sd) a) = true /\
  state_dict (map fst (map (load_entry sd) a)) = state_dict b /\
  grads (map fst (map (load_entry sd) a)) = grads a.
Proof.
  revert b; induction a as [|[k p] a IH]; intros [|[k' p'] b] Hn Hs Hl;
    simpl in Hn, Hs; try discriminate; [repeat split|].
  injection Hn as <- Hn. injection Hs as Hlen Hs.
  destruct (IH b Hn Hs) as (I1 & I2 & I3).
  { intros kp Hin. apply Hl. right. exact Hin. }
  pose proof (Hl (k, p') (or_introl eq_refl)) as Hk. simpl in Hk.
  cbn [map]. unfold load_entry at 1 3 5. cbn [fst snd]. rewrite Hk.
  rewrite Hlen, Nat.eqb_refl. cbn [forallb map fst snd state_dict grads data grad].
  split; [exact I1|]. split.
  - unfold state_dict in I2. rewrite I2. reflexivity.
  - unfold grads in I3. rewrite I3. reflexivity.
Qed.

(** Loading the state of a network of the same architecture succeeds and
    copies every value, leaving the gradients alone. *)
Lemma load_same_architecture (a b : network) :
  same_architecture a b -> NoDup (names b) ->
  exists a', load_state_dict a (state_dict b) = (a', Ok tt) /\
             state_dict a' = state_dict b /\ grads a' = grads a /\
             same_architecture a' b.
Proof.
  intros [Hn Hs] Hnd. unfold load_state_dict.
  destruct (loaded_entries (state_dict b) a b Hn Hs) as (H1 & H2 & H3).
  { intros [k p] Hin. simpl. apply lookup_in_nodup.
    - rewrite state_dict_names. exact Hnd.
    - unfold state_dict. apply in_map_iff. exists (k, p). auto. }
  rewrite H1.
  assert (Hun : existsb (fun kv : string * list Q => negb (has_key (fst kv) a))
                        (state_dict b) = false).
  { destruct (existsb _ (state_dict b)) eqn:Hex; [|reflexivity].
    apply existsb_exists in Hex as ([k d] & Hin & Hneg). simpl in Hneg.
    assert (Hk : has_key k a = true).
    { apply has_key_in. fold (names a). rewrite Hn, <- state_dict_names.
      apply in_map_iff. exists (k, d). auto. }
    rewrite Hk in Hneg. discriminate. }
  rewrite Hun. simpl. eexists. split; [reflexivity|].
  split; [exact H2|]. split; [exact H3|].
  split.
  - rewrite <- !state_dict_names, H2. reflexivity.
  - rewrite !shapes_state_dict, H2. reflexivity.
Qed.

Lemma forallb_loaded sd (self : network) :
  forallb snd (map (load_entry sd) self) = true <->
  forall k p, In (k, p) self ->
    exists d, lookup k sd = Some d /\ length d = length (data p).
Proof.
  rewrite forallb_forall. split.
  - intros H k p Hin.
    specialize (H (load_entry sd (k, p)) (in_map _ _ _ Hin)).
    unfold load_entry in H. simpl in H.
    destruct (lookup k sd) as [d|]; [|discriminate].
    exists d. split; [reflexivity|].
    destruct (Nat.eqb_spec (length d) (length (data p))); [assumption|discriminate].
  - intros H x Hin. apply in_map_iff in Hin as ([k p] & <- & Hin).
    destruct (H k p Hin) as (d & Hd & Hl).
    unfold load_entry. simpl. rewrite Hd, Hl, Nat.eqb_refl. reflexivity.
Qed.

Lemma no_unexpected_iff sd (self : network) :
  existsb (fun kv : string * list Q => negb (has_key (fst kv) self)) sd = false <->
  forall k d, In (k, d) sd -> has_key k self = true.
Proof.
  split.
  - intros H k d Hin. destruct (has_key k self) eqn:Hk; [reflexivity|].
    assert (Hex : existsb (fun kv : string * list Q => negb (has_key (fst kv) self)) sd
                  = true).
    { apply existsb_exists. exists (k, d). simpl. rewrite Hk. auto. }
    congruence.
  - intros H. destruct (existsb _ sd) eqn:Hex; [|reflexivity].
    apply existsb_exists in Hex as ([k d] & Hin & Hneg). simpl in Hneg.
    rewrite (H k d Hin) in Hneg. discriminate.
Qed.

(** X10. [load_state_dict] returns normally exactly when every parameter
    of the network finds a tensor of its size under its name and the
    dictionary holds no name the network lacks; otherwise it raises
    RuntimeError.  On success the network holds, under every name, the
    dictionary's tensor. *)
Theorem load_state_dict_succeeds_iff (self : network)
  (sd : list (string * list Q)) :
  (snd (load_state_dict self sd) = Ok tt <->
   (forall k p, In (k, p) self ->
      exists d, lookup k sd = Some d /\ length d = length (data p)) /\
   (forall k d, In (k, d) sd -> has_key k self = true)) /\
  (snd (load_state_dict self sd) = Ok tt \/
   snd (load_state_dict self sd) = Raise RuntimeError) /\
  (snd (load_state_dict self sd) = Ok tt ->
   forall k, lookup k (state_dict (fst (load_state_dict self sd)))
             = lookup k sd).
Proof.
  split; [|split].
  - unfold load_state_dict; cbn [snd].
    rewrite <- forallb_loaded, <- no_unexpected_iff.
    destruct (forallb snd (map (load_entry sd) self)); simpl.
    + destruct (existsb _ sd); simpl; split; try discriminate; auto.
      * intros [_ H]; discriminate.
    + split; [discriminate|]. intros [H _]; discriminate.
  - unfold load_state_dict; cbn [snd].
    destruct (forallb snd _ && negb _); auto.
  - intros H k. apply (load_state_dict_ok self sd).
    destruct (load_state_dict self sd) as [a r]. simpl in *. subst r.
    reflexivity.
Qed.

Lemma load_state_dict_succeeds_iff_witness :
  snd (load_state_dict toy_net (state_dict toy_net)) = Ok tt /\
  lookup "pi" (state_dict (fst (load_state_dict toy_net (state_dict toy_net))))
  = lookup "pi" (state_dict toy_net).
Proof.
  split; [reflexivity|].
  exact (proj2 (proj2 (load_state_dict_succeeds_iff toy_net (state_dict toy_net)))
               eq_refl "pi"%string).
Defined.

(** X11. A worker's local network, created from the same architecture as
    the shared one (unique parameter names), starts as a copy of it:
    the load in [Worker.__init__] succeeds, every value is the shared
    value, and gradients are untouched. *)
Theorem worker_starts_as_copy (local_network global : network) :
  same_architecture local_network global -> NoDup (names global) ->
  exists local',
    Worker_init local_network global = (local', Ok tt) /\
    state_dict local' = state_dict global /\
    grads local' = grads local_network.
Proof.
  intros Ha Hnd. unfold Worker_init.
  destruct (load_same_architecture local_network global Ha Hnd)
    as (a' & H1 & H2 & H3 & _).
  exists a'. auto.
Qed.

Lemma worker_starts_as_copy_witness :
  exists local',
    Worker_init [("v"%string, mkParam [7]%Q None);
                 ("pi"%string, mkParam [8; 9]%Q (Some [1; 1]%Q))] toy_net
    = (local', Ok tt) /\
    state_dict local' = state_dict toy_net /\
    grads local' = [None; Some [1; 1]%Q].
Proof.
  apply (worker_starts_as_copy
           [("v"%string, mkParam [7]%Q None);
            ("pi"%string, mkParam [8; 9]%Q (Some [1; 1]%Q))] toy_net).
  - split; reflexivity.
  - repeat constructor; simpl; intuition discriminate.
Defined.

Lemma set_grads_state_dict net gs : state_dict (set_grads net gs) = state_dict net.
Proof.
  revert gs; induction net as [|[k p] net IH]; intros [|g gs]; simpl;
    try reflexivity.
  rewrite IH. reflexivity.
Qed.

Lemma set_grads_grads net gs :
  length gs = length net -> grads (set_grads net gs) = map Some gs.
Proof.
  revert gs; induction net as [|[k p] net IH]; intros [|g gs] H; simpl in *;
    try discriminate; [reflexivity|].
  unfold grads in IH |- *. simpl. rewrite IH by congruence. reflexivity.
Qed.

Lemma zero_grad_state_dict net : state_dict (zero_grad net) = state_dict net.
Proof. unfold zero_grad, state_dict. rewrite map_map. reflexivity. Qed.

Lemma transplant_state_dict local global :
  state_dict (transplant local global) = state_dict global.
Proof.
  revert global; induction local as [|[k p] local IH]; intros [|[k' p'] global];
    simpl; try reflexivity.
  rewrite IH. reflexivity.
Qed.

Lemma transplant_grads local global :
  length local = length global ->
  grads (transplant local global) = grads local.
Proof.
  revert global; induction local as [|[k p] local IH]; intros [|[k' p'] global] H;
    simpl in *; try discriminate; [reflexivity|].
  unfold grads in IH |- *. simpl. rewrite IH by congruence. reflexivity.
Qed.

Lemma state_dict_length net : length (state_dict net) = length net.
Proof. unfold state_dict. apply length_map. Qed.

Section OptimizerFacts.
Variable OptSlot : Type.
Variable rmsprop : OptSlot -> list Q -> list Q -> OptSlot * list Q.

Lemma optimizer_step_names opt net :
  names (snd (optimizer_step OptSlot rmsprop opt net)) = names net.
Proof.
  revert net; induction opt as [|slot opt IH]; intros [|[k p] net]; simpl;
    try reflexivity.
  specialize (IH net).
  destruct (optimizer_step OptSlot rmsprop opt net) as [opt' net'].
  destruct (grad p) as [g|].
  - destruct (rmsprop slot (data p) g) as [slot' d']. simpl in *.
    unfold names in *. simpl. rewrite IH. reflexivity.
  - simpl in *. unfold names in *. simpl. rewrite IH. reflexivity.
Qed.

Lemma optimizer_step_shapes opt net gs :
  (forall slot d g, length g = length d ->
                    length (snd (rmsprop slot d g)) = length d) ->
  grads net = map Some gs -> map (@length Q) gs = shapes net ->
  shapes (snd (optimizer_step OptSlot rmsprop opt net)) = shapes net.
Proof.
  intros Hlen.
  revert net gs; induction opt as [|slot opt IH]; intros [|[k p] net] gs;
    simpl; try reflexivity.
  destruct gs as [|g gs]; [discriminate|].
  unfold grads, shapes. simpl. intros [= Hgp Hg] [= Hlg Hs].
  specialize (IH net gs Hg Hs).
  destruct (optimizer_step OptSlot rmsprop opt net) as [opt' net'].
  rewrite Hgp.
  pose proof (Hlen slot (data p) g Hlg) as Hl.
  destruct (rmsprop slot (data p) g) as [slot' d']. simpl in *.
  unfold shapes in IH. rewrite IH, Hl. reflexivity.
Qed.

Lemma optimizer_step_data opt net gs :
  length opt = length net -> grads net = map Some gs ->
  map snd (state_dict (snd (optimizer_step OptSlot rmsprop opt net)))
  = stepped_data rmsprop opt net gs.
Proof.
  revert net gs; induction opt as [|slot opt IH]; intros [|[k p] net] [|g gs];
    simpl; intros Hl Hg; try discriminate; try reflexivity.
  unfold grads in Hg. simpl in Hg. injection Hg as Hgp Hg.
  specialize (IH net gs ltac:(congruence) Hg).
  destruct (optimizer_step OptSlot rmsprop opt net) as [opt' net'].
  rewrite Hgp.
  destruct (rmsprop slot (data p) g) as [slot' d']. simpl in *.
  rewrite IH. reflexivity.
Qed.
Lemma stepped_data_state_dict opt (g1 g0 : network) gs :
  state_dict g1 = state_dict g0 ->
  stepped_data rmsprop opt g1 gs = stepped_data rmsprop opt g0 gs.
Proof.
  revert opt gs g0; induction g1 as [|[k p] g1 IH];
    intros opt gs [|[k0 p0] g0] H; simpl in H; try discriminate.
  - reflexivity.
  - injection H as _ Hd H. destruct opt as [|slot opt]; [reflexivity|].
    destruct gs as [|g gs]; [reflexivity|].
    simpl. rewrite Hd. f_equal. apply IH. exact H.
Qed.
End OptimizerFacts.

Section SyncSucceeds.
Variable Obs : Type.
Variable policy_head : network -> Obs -> list dual.
Variable value_head : network -> Obs -> dual.
Variable log_softmax_at : list dual -> Z -> result dual.
Variable backward : network -> list Obs -> list Z -> list Q -> list (list Q).
Variable OptSlot : Type.
Variable rmsprop : OptSlot -> list Q -> list Q -> OptSlot * list Q.

Lemma state_dict_same_architecture a b :
  state_dict a = state_dict b -> same_architecture a b.
Proof.
  intros H. split.
  - rewrite <- !state_dict_names, H. reflexivity.
  - rewrite !shapes_state_dict, H. reflexivity.
Qed.

Lemma same_architecture_trans a b c :
  same_architecture a b -> same_architecture b c -> same_architecture a c.
Proof. intros [H1 H2] [H3 H4]. split; congruence. Qed.

Lemma same_architecture_sym a b :
  same_architecture a b -> same_architecture b a.
Proof. intros [H1 H2]. split; congruence. Qed.

(** What steps 4 to 6 do to the two networks. *)
Lemma push_gradients_effect (self : A3C OptSlot) local bs ba targets :
  length (optimizer self) = length (global_network self) ->
  length local = length (global_network self) ->
  length (backward local bs ba targets) = length local ->
  let r := push_gradients Obs backward OptSlot rmsprop self local bs ba targets in
  map snd (state_dict (global_network (fst r)))
  = stepped_data rmsprop (optimizer self) (global_network self)
                 (backward local bs ba targets) /\
  names (global_network (fst r)) = names (global_network self) /\
  state_dict (snd r) = state_dict local /\
  grads (snd r) = map Some (backward local bs ba targets).
Proof.
  intros Ho Hl Hb. unfold push_gradients.
  set (gs := backward local bs ba targets) in *.
  set (g1 := transplant (set_grads local gs) (zero_grad (global_network self))).
  assert (Hlen1 : length (set_grads local gs) = length (zero_grad (global_network self))).
  { rewrite <- (state_dict_length (set_grads local gs)), set_grads_state_dict,
      state_dict_length. unfold zero_grad. rewrite length_map. exact Hl. }
  assert (Hg1 : grads g1 = map Some gs).
  { unfold g1. rewrite transplant_grads by exact Hlen1.
    apply set_grads_grads. exact Hb. }
  assert (Hsd1 : state_dict g1 = state_dict (global_network self)).
  { unfold g1. rewrite transplant_state_dict. apply zero_grad_state_dict. }
  assert (Hlg1 : length (optimizer self) = length g1).
  { rewrite <- (state_dict_length g1), Hsd1, state_dict_length. exact Ho. }
  pose proof (optimizer_step_data OptSlot rmsprop (optimizer self) g1 gs Hlg1 Hg1)
    as Hdata.
  pose proof (optimizer_step_names OptSlot rmsprop (optimizer self) g1) as Hnames.
  destruct (optimizer_step OptSlot rmsprop (optimizer self) g1) as [opt' g2].
  cbv zeta. cbn [fst snd global_network] in *.
  split.
  - rewrite Hdata.
    apply (stepped_data_state_dict OptSlot rmsprop). exact Hsd1.
  - split; [|split].
    + rewrite Hnames, <- !state_dict_names, Hsd1. reflexivity.
    + apply set_grads_state_dict.
    + apply set_grads_grads. exact Hb.
Qed.

Lemma v_targetQ_length g done V br :
  length (v_targetQ g done V br) = length br.
Proof.
  unfold v_targetQ. rewrite v_target_returns_from. apply returns_from_length.
Qed.

Lemma loss_func_returns self s a targets logps :
  (0 < length s)%nat -> length a = length s -> length targets = length s ->
  zip_with log_softmax_at (map (policy_head self) s) a = Ok logps ->
  (exists L, loss_func policy_head value_head log_softmax_at self s a
                       (target_column targets) = Ok L) /\
  (exists L mv mp ma,
      loss_func_conv policy_head value_head log_softmax_at self s a
                     (target_column targets) = Ok (L, mv, mp, ma)).
Proof.
  intros Hpos Ha Ht Hz.
  pose proof (zip_with_length _ _ _ _ Hz) as Hl. rewrite length_map in Hl.
  split.
  - unfold loss_func. loss_steps Ha Ht Hz Hl. eexists; reflexivity.
  - unfold loss_func_conv. loss_steps Ha Ht Hz Hl. do 4 eexists; reflexivity.
Qed.

Lemma push_and_pull_succeeds (self : A3C OptSlot) local bs ba targets :
  same_architecture local (global_network self) ->
  NoDup (names (global_network self)) ->
  (forall slot d g, length g = length d ->
                    length (snd (rmsprop slot d g)) = length d) ->
  map (@length Q) (backward local bs ba targets) = shapes local ->
  exists self' local',
    push_and_pull Obs backward OptSlot rmsprop self local bs ba targets
    = ((self', local'), Ok tt) /\
    state_dict local' = state_dict (global_network self').
Proof.
  intros Harch Hnd Hlen Hback. unfold push_and_pull, push_gradients.
  set (gs := backward local bs ba targets) in *.
  set (g1 := transplant (set_grads local gs) (zero_grad (global_network self))).
  assert (Hsd1 : state_dict g1 = state_dict (global_network self)).
  { unfold g1. rewrite transplant_state_dict. apply zero_grad_state_dict. }
  assert (Hlgs : length gs = length local).
  { apply (f_equal (@length nat)) in Hback. unfold shapes in Hback.
    rewrite !length_map in Hback. exact Hback. }
  assert (Hll : length local = length (global_network self)).
  { destruct Harch as [Hn _]. apply (f_equal (@length string)) in Hn.
    unfold names in Hn. rewrite !length_map in Hn. exact Hn. }
  assert (Hg1 : grads g1 = map Some gs).
  { unfold g1. rewrite transplant_grads.
    - apply set_grads_grads. exact Hlgs.
    - rewrite <- (state_dict_length (set_grads local gs)), set_grads_state_dict,
        state_dict_length. unfold zero_grad. rewrite length_map. exact Hll. }
  assert (Hs1 : map (@length Q) gs = shapes g1).
  { rewrite Hback, (shapes_state_dict g1), Hsd1, <- shapes_state_dict.
    apply Harch. }
  pose proof (optimizer_step_names OptSlot rmsprop (optimizer self) g1) as Hnames.
  pose proof (optimizer_step_shapes OptSlot rmsprop (optimizer self) g1 gs
                Hlen Hg1 Hs1) as Hshapes.
  destruct (optimizer_step OptSlot rmsprop (optimizer self) g1) as [opt' g2].
  cbn [snd] in Hnames, Hshapes.
  assert (Hg2 : same_architecture g2 (global_network self)).
  { apply same_architecture_trans with g1; [split; assumption|].
    apply state_dict_same_architecture. exact Hsd1. }
  destruct (load_same_architecture (set_grads local gs) g2) as (l2 & H1 & H2 & _).
  - apply same_architecture_trans with local.
    + apply state_dict_same_architecture. apply set_grads_state_dict.
    + apply same_architecture_trans with (global_network self);
        [exact Harch|apply same_architecture_sym; exact Hg2].
  - destruct Hg2 as [-> _]. exact Hnd.
  - cbn [global_network]. rewrite H1. do 2 eexists. split; [reflexivity|].
    exact H2.
Qed.

End SyncSucceeds.

(** X12. The protocol cannot fail on a well-formed call: for local and
    shared networks of the same architecture (unique parameter names), an
    optimiser rule that keeps tensor sizes, gradients of the sizes of
    their parameters, and a non-empty trajectory of
    aligned buffers whose actions index their rows of logits, [sync]
    (both variants) returns normally, and the local network then holds
    the shared values. *)
Theorem sync_succeeds
  (Obs : Type) (policy_head : network -> Obs -> list dual)
  (value_head : network -> Obs -> dual)
  (log_softmax_at : list dual -> Z -> result dual)
  (backward : network -> list Obs -> list Z -> list Q -> list (list Q))
  (OptSlot : Type) (rmsprop : OptSlot -> list Q -> list Q -> OptSlot * list Q)
  (self : A3C OptSlot) (local_network : network) (done : bool) (s_ : Obs)
  (bs : list Obs) (ba : list Z) (br : list Q) (logps : list dual) :
  same_architecture local_network (global_network self) ->
  NoDup (names (global_network self)) ->
  (forall slot d g, length g = length d ->
                    length (snd (rmsprop slot d g)) = length d) ->
  (forall targets, map (@length Q) (backward local_network bs ba targets)
                   = shapes local_network) ->
  (0 < length bs)%nat -> length ba = length bs -> length br = length bs ->
  zip_with log_softmax_at (map (policy_head local_network) bs) ba = Ok logps ->
  (exists self' local',
      sync Obs policy_head value_head log_softmax_at backward OptSlot rmsprop
           self local_network done s_ bs ba br = ((self', local'), Ok None) /\
      state_dict local' = state_dict (global_network self')) /\
  (exists self' local' d,
      sync_conv Obs policy_head value_head log_softmax_at backward OptSlot
                rmsprop self local_network done s_ bs ba br
      = ((self', local'), Ok (Some d)) /\
      state_dict local' = state_dict (global_network self')).
Proof.
  intros Harch Hnd Hlen Hback Hpos Ha Hr Hz.
  set (targets := v_targetQ (gamma self) done (val (value_head local_network s_)) br).
  assert (Ht : length targets = length bs).
  { unfold targets. rewrite v_targetQ_length. exact Hr. }
  destruct (loss_func_returns Obs policy_head value_head log_softmax_at
              local_network bs ba targets logps Hpos Ha Ht Hz)
    as [[L HL] (L' & mv & mp & ma & HL')].
  destruct (push_and_pull_succeeds Obs backward OptSlot rmsprop self
              local_network bs ba targets Harch Hnd Hlen (Hback targets))
    as (self' & local' & Hpp & Heq).
  split.
  - exists self', local'. split; [|exact Heq].
    unfold sync. destruct bs as [|b bs]; [simpl in Hpos; lia|].
    destruct ba as [|a ba]; [discriminate|].
    fold targets. rewrite HL, Hpp. reflexivity.
  - exists self', local'. eexists. split; [|exact Heq].
    unfold sync_conv. destruct ba as [|a ba];
      [destruct bs; [simpl in Hpos; lia|discriminate]|].
    fold targets. rewrite HL', Hpp. reflexivity.
Qed.

Lemma sync_succeeds_witness :
  exists self' local',
    sync Z toy_policy toy_value toy_log_softmax toy_backward nat toy_rmsprop
         toy_a3c toy_net false 2 [0; 1] [0; 3] [1; 1]%Q
    = ((self', local'), Ok None) /\
    state_dict local' = state_dict (global_network self').
Proof.
  apply (proj1 (sync_succeeds Z toy_policy toy_value toy_log_softmax
                  toy_backward nat toy_rmsprop toy_a3c toy_net false 2
                  [0; 1] [0; 3] [1; 1]%Q [mkDual (-1) 1; mkDual (-1) 1]
                  ltac:(split; reflexivity)
                  ltac:(repeat constructor; simpl; intuition discriminate)
                  ltac:(intros slot d g Hg; unfold toy_rmsprop; simpl;
                        rewrite map2_length; lia)
                  ltac:(intros targets; reflexivity)
                  ltac:(simpl; lia) eq_refl eq_refl eq_refl)).
Defined.

(** X13. Gradient transplantation: the optimiser step of a
    synchronisation moves the k-th shared parameter from its own current
    value with the k-th gradient that [backward] computed on the local
    network; the shared names stay, the local values are not touched by
    the push, and the local network keeps those gradients. *)
Theorem shared_step_uses_local_gradients
  (Obs : Type)
  (backward : network -> list Obs -> list Z -> list Q -> list (list Q))
  (OptSlot : Type) (rmsprop : OptSlot -> list Q -> list Q -> OptSlot * list Q)
  (self : A3C OptSlot) (local_network : network)
  (bs : list Obs) (ba : list Z) (targets : list Q) :
  length (optimizer self) = length (global_network self) ->
  length local_network = length (global_network self) ->
  length (backward local_network bs ba targets) = length local_network ->
  map snd (state_dict (global_network
                         (fst (push_gradients Obs backward OptSlot rmsprop
                                 self local_network bs ba targets))))
  = stepped_data rmsprop (optimizer self) (global_network self)
                 (backward local_network bs ba targets) /\
  names (global_network (fst (push_gradients Obs backward OptSlot rmsprop
                                self local_network bs ba targets)))
  = names (global_network self) /\
  state_dict (snd (push_gradients Obs backward OptSlot rmsprop
                     self local_network bs ba targets))
  = state_dict local_network /\
  grads (snd (push_gradients Obs backward OptSlot rmsprop
                self local_network bs ba targets))
  = map Some (backward local_network bs ba targets).
Proof.
  intros Ho Hl Hb.
  exact (push_gradients_effect Obs backward OptSlot rmsprop self local_network
           bs ba targets Ho Hl Hb).
Qed.

Lemma shared_step_uses_local_gradients_witness :
  map snd (state_dict (global_network
                         (fst (push_gradients Z toy_backward nat toy_rmsprop
                                 toy_a3c toy_net [0] [1] [1]%Q))))
  = stepped_data toy_rmsprop [O; O] toy_net [[1]; [1; 1]]%Q.
Proof.
  exact (proj1 (shared_step_uses_local_gradients Z toy_backward nat toy_rmsprop
                  toy_a3c toy_net [0] [1] [1]%Q eq_refl eq_refl eq_refl)).
Defined.

(** ** Returns over a trajectory cut in two *)

Section ReturnsCompose.
Context {A : Type} (zero : A) (add mul : A -> A -> A).

Lemma returns_from_app gamma B br1 br2 :
  returns_from add mul gamma B (br1 ++ br2)
  = returns_from add mul gamma
      (hd B (returns_from add mul gamma B br2)) br1
    ++ returns_from add mul gamma B br2.
Proof.
  induction br1 as [|r br1 IH]; [reflexivity|].
  cbn [app returns_from]. cbv zeta. rewrite IH. f_equal.
  destruct br1; reflexivity.
Qed.
End ReturnsCompose.

(** X14. Returns compose over a cut: estimating a trajectory in one pass
    gives the same returns as estimating its later part first and then
    the earlier part as a non-terminal cut bootstrapped from the first
    return of the later part.  This holds on any carrier, rounding
    included, since both sides perform the same operations. *)
Theorem returns_compose_over_cut
  (A : Type) (zero : A) (add mul : A -> A -> A)
  (gamma : A) (done : bool) (V : A) (br1 br2 : list A) :
  v_target zero add mul gamma done V (br1 ++ br2)
  = v_target zero add mul gamma false
      (hd (bootstrap zero done V) (v_target zero add mul gamma done V br2)) br1
    ++ v_target zero add mul gamma done V br2.
Proof.
  rewrite !v_target_returns_from. apply returns_from_app.
Qed.

(** ** More on the loss *)

Lemma bcast_mismatch {X Y Z : Type} (f : X -> Y -> result Z) xs ys :
  length xs <> length ys -> length xs <> 1%nat -> length ys <> 1%nat ->
  bcast f xs ys = Raise RuntimeError.
Proof.
  intros H H1 H2. unfold bcast.
  destruct (Nat.eqb_spec (length xs) (length ys)); [contradiction|].
  destruct xs as [|x [|x' xs]]; destruct ys as [|y [|y' ys]];
    simpl in *; try reflexivity; congruence.
Qed.

(** X15. Shapes that do not broadcast stop [loss_func] (both variants)
    with RuntimeError: a number of targets, or with matching targets a
    number of actions, that differs from the number of states, neither
    being one. *)
Theorem loss_func_rejects_mismatch
  (Net Obs : Type) (policy_head : Net -> Obs -> list dual)
  (value_head : Net -> Obs -> dual)
  (log_softmax_at : list dual -> Z -> result dual)
  (self : Net) (s : list Obs) (a : list Z) (targets : list Q) :
  length s <> 1%nat ->
  (length targets <> length s /\ length targets <> 1%nat) \/
  (length targets = length s /\ length a <> length s /\ length a <> 1%nat) ->
  loss_func policy_head value_head log_softmax_at self s a
            (target_column targets) = Raise RuntimeError /\
  (exists e,
      loss_func_conv policy_head value_head log_softmax_at self s a
                     (target_column targets) = Raise e /\ e = RuntimeError).
Proof.
  intros Hs [[Ht Ht1]|(Ht & Ha & Ha1)].
  - assert (H : lift2 dsub (target_column targets)
                      (column (map (value_head self) s)) = Raise RuntimeError).
    { unfold target_column, column, lift2.
      rewrite bcast_mismatch by (rewrite !length_map; lia). reflexivity. }
    unfold loss_func, loss_func_conv, forward. cbv beta iota zeta.
    rewrite H. split; [reflexivity|]. eexists; split; reflexivity.
  - assert (H : forall (k : tensor -> result dual),
               (m <- log_prob log_softmax_at
                       (T2 (map (policy_head self) s)) a ;; k m)
               = Raise RuntimeError).
    { intros k. unfold log_prob.
      rewrite bcast_mismatch by (rewrite ?length_map; lia). reflexivity. }
    assert (H' : forall (k : tensor -> result (dual * dual * dual * dual)),
               (m <- log_prob log_softmax_at
                       (T2 (map (policy_head self) s)) a ;; k m)
               = Raise RuntimeError).
    { intros k. unfold log_prob.
      rewrite bcast_mismatch by (rewrite ?length_map; lia). reflexivity. }
    unfold loss_func, loss_func_conv, forward, target_column.
    cbv beta iota zeta.
    rewrite lift2_columns by (rewrite !length_map; lia). cbn [bind].
    rewrite H, H'. split; [reflexivity|]. eexists; split; reflexivity.
Qed.

Lemma loss_func_rejects_mismatch_witness :
  loss_func toy_policy toy_value toy_log_softmax toy_net [0; 1] [0; 1]
            (target_column [1; 2; 3]%Q) = Raise RuntimeError.
Proof.
  apply (loss_func_rejects_mismatch network Z toy_policy toy_value
           toy_log_softmax toy_net [0; 1] [0; 1] [1; 2; 3]%Q).
  - simpl; lia.
  - left. simpl; lia.
Defined.

Lemma bcast_expand_l {X Y Z : Type} (f : X -> Y -> result Z) x ys :
  bcast f [x] ys = zip_with f (repeat x (length ys)) ys.
Proof.
  unfold bcast. destruct (Nat.eqb_spec (length [x]) (length ys)) as [E|E].
  - destruct ys as [|y [|y' ys]]; try discriminate. reflexivity.
  - reflexivity.
Qed.

Lemma single_target_column (values : list dual) t :
  lift2 dsub (target_column [t]) (column values)
  = lift2 dsub (target_column (repeat t (length values))) (column values).
Proof.
  unfold target_column, column, lift2. f_equal.
  cbn [map]. rewrite bcast_expand_l.
  rewrite bcast_same by (rewrite !length_map, repeat_length; reflexivity).
  rewrite length_map, !map_repeat. reflexivity.
Qed.

(** X16. Nothing checks that there is one target per state: a single
    target is silently broadcast, and [loss_func] (both variants) gives
    what it gives for that target repeated once per state. *)
Theorem loss_func_broadcasts_single_target
  (Net Obs : Type) (policy_head : Net -> Obs -> list dual)
  (value_head : Net -> Obs -> dual)
  (log_softmax_at : list dual -> Z -> result dual)
  (self : Net) (s : list Obs) (a : list Z) (t : Q) :
  loss_func policy_head value_head log_softmax_at self s a (target_column [t])
  = loss_func policy_head value_head log_softmax_at self s a
              (target_column (repeat t (length s))) /\
  loss_func_conv policy_head value_head log_softmax_at self s a
                 (target_column [t])
  = loss_func_conv policy_head value_head log_softmax_at self s a
                   (target_column (repeat t (length s))).
Proof.
  unfold loss_func, loss_func_conv, forward. cbv beta iota zeta.
  rewrite single_target_column, length_map. split; reflexivity.
Qed.

Lemma val_detached xs : map val (map ddetach xs) = map val xs.
Proof. rewrite map_map. reflexivity. Qed.

Lemma tan_detached xs : (qsum (map tan (map ddetach xs)) == 0)%Q.
Proof.
  induction xs as [|x xs IH]; simpl; [reflexivity|]. rewrite IH. ring.
Qed.

Lemma val_dmean xs : val (dmean xs) = (qsum (map val xs) / nQ (length xs))%Q.
Proof.
  unfold dmean, ddiv_nat; simpl.
  rewrite (phi_dsum val (fun _ _ => eq_refl) eq_refl). reflexivity.
Qed.

Lemma tan_dmean xs : tan (dmean xs) = (qsum (map tan xs) / nQ (length xs))%Q.
Proof.
  unfold dmean, ddiv_nat; simpl.
  rewrite (phi_dsum tan (fun _ _ => eq_refl) eq_refl). reflexivity.
Qed.

Lemma tmean_column xs : tmean (column xs) = dmean xs.
Proof. unfold tmean, column, elements. rewrite concat_singletons. reflexivity. Qed.

Lemma per_sample_lists targets values logps :
  let tds := map2 dsub (map const targets) values in
  tds = map2 advantage_of targets values /\
  map dpow2 tds = map2 value_loss_of targets values /\
  map dneg (map2 dmul logps (map ddetach tds))
  = map2 (fun tv l => policy_loss_of (fst tv) (snd tv) l)
         (combine targets values) logps.
Proof.
  cbv zeta. unfold map2. repeat split.
  - revert values; induction targets as [|t ts IH]; intros [|x xs]; simpl;
      try reflexivity. f_equal. apply IH.
  - revert values; induction targets as [|t ts IH]; intros [|x xs]; simpl;
      try reflexivity. f_equal. apply IH.
  - revert values logps; induction targets as [|t ts IH];
      intros [|x xs] [|l ls]; simpl; try reflexivity.
    f_equal. apply IH.
Qed.

(** X17. The diagnostics of the richer [loss_func] are the detached
    batch means of the advantage, of the value loss and of the policy
    loss of the samples, and they are consistent with the loss it
    returns: the loss equals mean value loss plus mean policy loss. *)
Theorem conv_diagnostics_consistent
  (Net Obs : Type) (policy_head : Net -> Obs -> list dual)
  (value_head : Net -> Obs -> dual)
  (log_softmax_at : list dual -> Z -> result dual)
  (self : Net) (s : list Obs) (a : list Z) (targets : list Q)
  (logps : list dual) :
  (0 < length s)%nat -> length a = length s -> length targets = length s ->
  zip_with log_softmax_at (map (policy_head self) s) a = Ok logps ->
  exists L mv mp ma,
    loss_func_conv policy_head value_head log_softmax_at self s a
                   (target_column targets) = Ok (L, mv, mp, ma) /\
    mv = dmean (map ddetach
                    (map2 value_loss_of targets (map (value_head self) s))) /\
    mp = dmean (map ddetach
                    (map2 (fun tv l => policy_loss_of (fst tv) (snd tv) l)
                          (combine targets (map (value_head self) s)) logps)) /\
    ma = dmean (map ddetach
                    (map2 advantage_of targets (map (value_head self) s))) /\
    (val L == val mv + val mp)%Q /\
    (tan mv == 0)%Q /\ (tan mp == 0)%Q /\ (tan ma == 0)%Q.
Proof.
  intros Hpos Ha Ht Hz.
  pose proof (zip_with_length _ _ _ _ Hz) as Hl. rewrite length_map in Hl.
  unfold loss_func_conv. loss_steps Ha Ht Hz Hl.
  destruct (per_sample_lists targets (map (value_head self) s) logps)
    as (E1 & E2 & E3). cbv zeta in E1, E2, E3.
  do 4 eexists. split; [reflexivity|].
  rewrite !tmean_column. rewrite E3, E2, E1.
  split; [reflexivity|]. split; [reflexivity|]. split; [reflexivity|].
  set (cl := map2 value_loss_of targets (map (value_head self) s)).
  set (al := map2 (fun tv l => policy_loss_of (fst tv) (snd tv) l)
                  (combine targets (map (value_head self) s)) logps).
  assert (Hcl : length cl = length s).
  { unfold cl. rewrite map2_length, length_map. lia. }
  assert (Hal : length al = length s).
  { unfold al, map2. rewrite length_map, !length_combine, length_map. lia. }
  assert (Hnz : ~ (nQ (length s) == 0)%Q) by (apply nQ_nonzero; exact Hpos).
  split; [|split; [|split]].
  - unfold tmean, elements.
    destruct (mean_table cl al ltac:(lia) ltac:(lia)) as [Hv _].
    rewrite Hv, !val_dmean, !val_detached, !length_map.
    rewrite map2_length, Hcl, Hal, Nat.min_id.
    rewrite (qsum_map2 val (fun _ _ => eq_refl) cl al ltac:(lia)).
    field. repeat split; exact Hnz.
  - unfold tmean, elements. rewrite tan_dmean. rewrite tan_detached.
    unfold Qdiv. ring.
  - unfold tmean, elements. rewrite tan_dmean. rewrite tan_detached.
    unfold Qdiv. ring.
  - unfold tmean, elements. rewrite tan_dmean. rewrite tan_detached.
    unfold Qdiv. ring.
Qed.

Lemma conv_diagnostics_consistent_witness :
  exists L mv mp ma,
    loss_func_conv toy_policy toy_value toy_log_softmax toy_net [0; 1] [0; 1]
                   (target_column [3; 4]%Q) = Ok (L, mv, mp, ma) /\
    (val L == val mv + val mp)%Q.
Proof.
  destruct (conv_diagnostics_consistent network Z toy_policy toy_value
              toy_log_softmax toy_net [0; 1] [0; 1] [3; 4]%Q
              [mkDual (-1) 1; mkDual (-1) 1]
              ltac:(simpl; lia) eq_refl eq_refl eq_refl)
    as (L & mv & mp & ma & H1 & _ & _ & _ & H2 & _).
  exists L, mv, mp, ma. split; assumption.
Defined.

(** ** Locks under every schedule *)

Lemma lock_eqb_eq a b : lock_eqb a b = true <-> a = b.
Proof. destruct a, b; simpl; split; congruence. Qed.

Lemma nth_error_set_nth {X : Type} (xs : list X) w w' x y :
  nth_error (set_nth w x xs) w' = Some y ->
  (w' = w /\ y = x) \/ (w' <> w /\ nth_error xs w' = Some y).
Proof.
  revert w w'; induction xs as [|z xs IH]; intros [|w] [|w'] H; simpl in H;
    try discriminate.
  - left. split; congruence.
  - right. split; [discriminate|exact H].
  - right. split; [discriminate|exact H].
  - destruct (IH w w' H) as [[-> ->]|[Hne Hn]]; [left; auto|right].
    split; [congruence|exact Hn].
Qed.

Lemma locks_of_other w w' l' held :
  w' <> w -> locks_of w' ((l', w) :: held) = locks_of w' held.
Proof.
  intros H. unfold locks_of. simpl.
  destruct (Nat.eqb_spec w w'); [congruence|reflexivity].
Qed.

Lemma locks_of_release_other w w' l' held :
  w' <> w ->
  locks_of w' (filter (fun h => negb (lock_eqb (fst h) l' && (snd h =? w)%nat)) held)
  = locks_of w' held.
Proof.
  intros H. unfold locks_of. induction held as [|[l0 w0] held IH]; simpl;
    [reflexivity|].
  destruct (Nat.eqb_spec w0 w) as [->|Hw0]; simpl.
  - destruct (Nat.eqb_spec w w'); [congruence|].
    destruct (lock_eqb l0 l'); simpl.
    + exact IH.
    + destruct (Nat.eqb_spec w w'); [congruence|]. exact IH.
  - rewrite andb_false_r. simpl.
    destruct (w0 =? w')%nat; simpl; rewrite IH; reflexivity.
Qed.

Lemma locks_of_release_self w l' held :
  locks_of w (filter (fun h => negb (lock_eqb (fst h) l' && (snd h =? w)%nat)) held)
  = filter (fun h => negb (lock_eqb h l')) (locks_of w held).
Proof.
  unfold locks_of. induction held as [|[l0 w0] held IH]; simpl; [reflexivity|].
  destruct (Nat.eqb_spec w0 w) as [->|Hw0]; simpl.
  - rewrite andb_true_r. destruct (lock_eqb l0 l'); simpl.
    + exact IH.
    + rewrite Nat.eqb_refl. simpl. rewrite IH. reflexivity.
  - rewrite andb_false_r. simpl.
    destruct (Nat.eqb_spec w0 w); [congruence|]. exact IH.
Qed.

Lemma holds_exclusively l w held :
  (forall l' w1 w2, In (l', w1) held -> In (l', w2) held -> w1 = w2) ->
  existsb (lock_eqb l) (locks_of w held) = true ->
  existsb (fun h => lock_eqb l (fst h) && (snd h =? w)%nat) held
  && forallb (fun h => negb (lock_eqb l (fst h)) || (snd h =? w)%nat) held
  = true.
Proof.
  intros Huniq Hex.
  apply existsb_exists in Hex as (l0 & Hin & Heq).
  apply lock_eqb_eq in Heq. subst l0.
  unfold locks_of in Hin. apply in_map_iff in Hin as ([l1 w1] & Hl & Hin).
  simpl in Hl. subst l1. apply filter_In in Hin as [Hin Hw].
  apply Nat.eqb_eq in Hw. simpl in Hw. subst w1.
  apply andb_true_iff. split.
  - apply existsb_exists. exists (l, w). split; [exact Hin|].
    simpl. rewrite Nat.eqb_refl.
    replace (lock_eqb l l) with true by (destruct l; reflexivity). reflexivity.
  - apply forallb_forall. intros [l2 w2] Hin2. simpl.
    destruct (lock_eqb l l2) eqn:El; [|reflexivity].
    apply lock_eqb_eq in El. subst l2.
    rewrite (Huniq l w2 w Hin2 Hin). simpl. apply Nat.eqb_refl.
Qed.

(** Programs that keep their critical operations under lock [l] run them
    in mutual exclusion, whatever the schedule. *)
Lemma run_schedule_exclusive l crit sched :
  forall held progs t,
    (forall w prog, nth_error progs w = Some prog ->
                    guarded_from (locks_of w held) l crit prog = true) ->
    (forall l' w1 w2, In (l', w1) held -> In (l', w2) held -> w1 = w2) ->
    run_schedule held progs sched = Some t ->
    exclusive_from held l crit t = true.
Proof.
  induction sched as [|w sched IH]; intros held progs t Hg Hu; simpl.
  - destruct (forallb _ progs); [|discriminate]. intros [= <-]. reflexivity.
  - destruct (nth_error progs w) as [[|o prog]|] eqn:Hw; try discriminate.
    destruct (lock_step held w o) as [held'|] eqn:Hls; [|discriminate].
    destruct (run_schedule held' (set_nth w prog progs) sched) as [t'|] eqn:Hr;
      [|discriminate].
    intros [= <-]. cbn [exclusive_from]. rewrite Hls.
    pose proof (Hg w (o :: prog) Hw) as Hgw.
    assert (Hrest : exclusive_from held' l crit t' = true).
    { eapply IH; [| |exact Hr].
      - intros w' prog' Hn.
        apply nth_error_set_nth in Hn as [[-> ->]|[Hne Hn]].
        + destruct o; simpl in Hls, Hgw;
            try (injection Hls as <-;
                 apply andb_true_iff in Hgw as [_ Hgw]; exact Hgw).
          * destruct (existsb _ held); [discriminate|].
            injection Hls as <-.
            unfold locks_of in *. simpl. rewrite Nat.eqb_refl. exact Hgw.
          * injection Hls as <-. rewrite locks_of_release_self. exact Hgw.
        + specialize (Hg w' prog' Hn).
          destruct o; simpl in Hls;
            try (injection Hls as <-; exact Hg).
          * destruct (existsb _ held); [discriminate|].
            injection Hls as <-. rewrite locks_of_other by exact Hne. exact Hg.
          * injection Hls as <-.
            rewrite locks_of_release_other by exact Hne. exact Hg.
      - intros l' w1 w2 H1 H2.
        destruct o; simpl in Hls;
          try solve [injection Hls as <-; eapply Hu; eassumption].
        + destruct (existsb _ held) eqn:Hex; [discriminate|].
          injection Hls as <-.
          assert (Hfree : forall w0, ~ In (l0, w0) held).
          { intros w0 Hin.
            assert (Hc : existsb (fun h : lock * nat => lock_eqb (fst h) l0) held
                         = true).
            { apply existsb_exists. exists (l0, w0). split; [exact Hin|].
              simpl. destruct l0; reflexivity. }
            congruence. }
          destruct H1 as [E1|H1]; destruct H2 as [E2|H2].
          * congruence.
          * exfalso. apply (Hfree w2).
            assert (El : l0 = l') by congruence. rewrite El. exact H2.
          * exfalso. apply (Hfree w1).
            assert (El : l0 = l') by congruence. rewrite El. exact H1.
          * eapply Hu; eauto.
        + injection Hls as <-.
          apply filter_In in H1 as [H1 _]. apply filter_In in H2 as [H2 _].
          eapply Hu; eauto. }
    rewrite Hrest, andb_true_r.
    destruct o; try reflexivity; simpl in Hgw;
      apply andb_true_iff in Hgw as [Hc _];
      (destruct (crit _); [|reflexivity]); simpl in Hc |- *;
      apply holds_exclusively; assumption.
Qed.

Lemma checkpoint_program_guarded n :
  guarded_by CounterLock is_incr (checkpoint_program n) = true /\
  guarded_by RewardLock is_set_reward (checkpoint_program n) = true.
Proof.
  unfold guarded_by, checkpoint_program.
  induction n as [|n [IH1 IH2]]; simpl; split; auto.
Qed.

(** X18. The episode counter and the running reward are updated in
    mutual exclusion: under every schedule of any number of workers that
    each report any number of episodes, whoever increments the counter
    holds the counter's lock alone at that moment, and whoever overwrites
    the reward holds the reward's lock alone. *)
Theorem checkpoint_updates_are_exclusive
  (episodes : list nat) (sched : list nat) (t : list (nat * op)) :
  run_schedule [] (map checkpoint_program episodes) sched = Some t ->
  exclusive_from [] CounterLock is_incr t = true /\
  exclusive_from [] RewardLock is_set_reward t = true.
Proof.
  intros Hrun.
  assert (Hg : forall w prog,
             nth_error (map checkpoint_program episodes) w = Some prog ->
             exists n, prog = checkpoint_program n).
  { intros w prog Hn.
    apply nth_error_In in Hn. apply in_map_iff in Hn as (n & <- & _).
    exists n. reflexivity. }
  split.
  - eapply run_schedule_exclusive; [| |exact Hrun].
    + intros w prog Hn. destruct (Hg w prog Hn) as [n ->].
      exact (proj1 (checkpoint_program_guarded n)).
    + intros l' w1 w2 [].
  - eapply run_schedule_exclusive; [| |exact Hrun].
    + intros w prog Hn. destruct (Hg w prog Hn) as [n ->].
      exact (proj2 (checkpoint_program_guarded n)).
    + intros l' w1 w2 [].
Qed.

Lemma checkpoint_updates_are_exclusive_witness :
  run_schedule [] (map checkpoint_program [1; 1]%nat)
               [0; 0; 0; 1; 0; 1; 0; 1; 0; 1; 0; 1; 1; 1]%nat
  = Some [(0, OpAcquire CounterLock); (0, OpIncrCounter);
          (0, OpRelease CounterLock); (1, OpAcquire CounterLock);
          (0, OpAcquire RewardLock); (1, OpIncrCounter);
          (0, OpSetReward); (1, OpRelease CounterLock);
          (0, OpRelease RewardLock); (1, OpAcquire RewardLock);
          (0, OpPut); (1, OpSetReward); (1, OpRelease RewardLock);
          (1, OpPut)]%nat /\
  exclusive_from [] CounterLock is_incr
    [(0, OpAcquire CounterLock); (0, OpIncrCounter);
     (0, OpRelease CounterLock); (1, OpAcquire CounterLock);
     (0, OpAcquire RewardLock); (1, OpIncrCounter);
     (0, OpSetReward); (1, OpRelease CounterLock);
     (0, OpRelease RewardLock); (1, OpAcquire RewardLock);
     (0, OpPut); (1, OpSetReward); (1, OpRelease RewardLock);
     (1, OpPut)]%nat = true /\
  exclusive_from [] RewardLock is_set_reward
    [(0, OpAcquire CounterLock); (0, OpIncrCounter);
     (0, OpRelease CounterLock); (1, OpAcquire CounterLock);
     (0, OpAcquire RewardLock); (1, OpIncrCounter);
     (0, OpSetReward); (1, OpRelease CounterLock);
     (0, OpRelease RewardLock); (1, OpAcquire RewardLock);
     (0, OpPut); (1, OpSetReward); (1, OpRelease RewardLock);
     (1, OpPut)]%nat = true.
Proof.
  split; [reflexivity|].
  apply (checkpoint_updates_are_exclusive
           [1; 1]%nat [0; 0; 0; 1; 0; 1; 0; 1; 0; 1; 0; 1; 1; 1]%nat).
  reflexivity.
Defined.

(** ** The factories of the constructor *)

Lemma map_result_const {X Y : Type} (r : result Y) (xs : list X) :
  map_result (fun _ => r) xs
  = match xs with
    | [] => Ok []
    | _ :: _ =>
        match r with
        | Ok y => Ok (repeat y (length xs))
        | Raise e => Raise e
        end
    end.
Proof.
  induction xs as [|x xs IH]; [reflexivity|].
  cbn [map_result]. destruct r as [y|e]; [|reflexivity].
  cbn [bind]. rewrite IH. destruct xs; reflexivity.
Qed.

Lemma init_workers_ok {X : Type} (v : variant) (env_factory : factories X)
  (outcomes : list X) (n : nat) :
  match v with
  | Base => worker_factory env_factory
  | Conv => worker_factory_conv env_factory
  end = Ok outcomes ->
  init_workers v env_factory n = Ok (repeat outcomes n).
Proof.
  intros H. unfold init_workers. rewrite map_result_const, H.
  rewrite length_seq. destruct n; reflexivity.
Qed.

Lemma init_workers_raise {X : Type} (v : variant) (env_factory : factories X)
  (e : exn) (n : nat) :
  match v with
  | Base => worker_factory env_factory
  | Conv => worker_factory_conv env_factory
  end = Raise e ->
  init_workers v env_factory (S n) = Raise e.
Proof.
  intros H. unfold init_workers. rewrite map_result_const, H. reflexivity.
Qed.

(** X19. a3c.py, a list of factories that is not empty: the constructor
    takes the temporary environment from the first factory and gives
    every worker a draw whose outcomes are the factories of the list,
    each position once, so each is as likely as any other. *)
Theorem init_draws_from_whole_list {X : Type} (f : X) (rest : list X)
  (n_workers : nat) :
  init_factories Base (Several (f :: rest)) n_workers
  = Ok (f, repeat (f :: rest) n_workers).
Proof.
  unfold init_factories. cbn [temp_factory].
  replace (py_index (f :: rest) 0) with (Ok f) by reflexivity.
  cbn [bind].
  rewrite (init_workers_ok Base (Several (f :: rest)) (f :: rest)).
  - reflexivity.
  - apply worker_factory_uniform. discriminate.
Qed.

(** X20. a3c_conv.py, a list of two or more factories: the constructor
    takes the temporary environment from the first factory, and every
    worker's draw ranges over the list without its last position, which
    no worker is ever given. *)
Theorem init_conv_draws_all_but_last {X : Type} (f g : X) (rest : list X)
  (n_workers : nat) :
  init_factories Conv (Several (f :: g :: rest)) n_workers
  = Ok (f, repeat (removelast (f :: g :: rest)) n_workers) /\
  length (removelast (f :: g :: rest)) = S (length rest).
Proof.
  split.
  - unfold init_factories. cbn [temp_factory].
    replace (py_index (f :: g :: rest) 0) with (Ok f) by reflexivity.
    cbn [bind].
    rewrite (init_workers_ok Conv (Several (f :: g :: rest))
                             (removelast (f :: g :: rest))).
    + reflexivity.
    + apply worker_factory_conv_drops_last. simpl. lia.
  - change (f :: g :: rest) with ([f] ++ g :: rest).
    rewrite removelast_app by discriminate.
    cbn [app length]. f_equal.
    induction rest as [|h rest IH] in g |- *; [reflexivity|].
    change (removelast (g :: h :: rest)) with (g :: removelast (h :: rest)).
    cbn [length]. f_equal. apply IH.
Qed.

(** X21. The constructor on the edge cases of [env_factory].  An empty
    list raises IndexError in both files, before any worker is built.  A
    list of one factory is fine in a3c.py and raises ValueError in
    a3c_conv.py as soon as one worker is asked for (with no worker no
    draw is made).  A factory that is not a list is given to every
    worker as it is. *)
Theorem init_factories_edge_cases {X : Type} (f : X) (v : variant)
  (n_workers : nat) :
  init_factories v (Several (@nil X)) n_workers = Raise IndexError /\
  init_factories Base (Several [f]) n_workers = Ok (f, repeat [f] n_workers) /\
  init_factories Conv (Several [f]) (S n_workers) = Raise ValueError /\
  init_factories Conv (Several [f]) 0 = Ok (f, []) /\
  init_factories v (Single f) n_workers = Ok (f, repeat [f] n_workers).
Proof.
  split; [reflexivity|].
  split.
  { unfold init_factories. cbn [temp_factory].
    replace (py_index [f] 0) with (Ok f) by reflexivity.
    cbn [bind]. rewrite (init_workers_ok Base (Several [f]) [f]); reflexivity. }
  split.
  { unfold init_factories. cbn [temp_factory].
    replace (py_index [f] 0) with (Ok f) by reflexivity.
    cbn [bind].
    rewrite (init_workers_raise Conv (Several [f]) ValueError); reflexivity. }
  split; [reflexivity|].
  unfold init_factories. cbn [temp_factory bind].
  rewrite (init_workers_ok v (Single f) [f]); [reflexivity|].
  destruct v; reflexivity.
Qed.

(** ** What a record carries when reports interleave *)

(** X22. The record is built outside the locks.  Whatever the rewards of
    two workers that each report one episode, the locks allow a schedule
    in which both counter updates and both reward updates come before the
    first put: then both records carry the second worker's reward, and
    (in a3c.py) the same episode number. *)
Theorem record_can_carry_anothers_reward
  (episode_reward : nat -> Q) (c : Z) (r : Q) :
  - 2 ^ 31 <= c -> c + 2 < 2 ^ 31 ->
  exists sched t,
    run_schedule [] (map checkpoint_program [1; 1]%nat) sched = Some t /\
    sh_queue (exec_trace episode_reward t (mkShared c r []))
    = [(0%nat, episode_reward 1%nat, c + 2);
       (1%nat, episode_reward 1%nat, c + 2)].
Proof.
  intros Hlo Hhi.
  exists [0; 0; 0; 1; 1; 1; 0; 0; 0; 1; 1; 1; 0; 1]%nat.
  eexists. split; [reflexivity|].
  unfold exec_trace. cbn [fold_left exec_op snd fst sh_counter sh_reward
                           sh_queue app].
  rewrite (wrap_int32_small (c + 1)) by lia.
  rewrite (wrap_int32_small (c + 1 + 1)) by lia.
  replace (c + 1 + 1) with (c + 2) by lia. reflexivity.
Qed.

Lemma record_can_carry_anothers_reward_witness :
  - 2 ^ 31 <= 0 /\ 0 + 2 < 2 ^ 31 /\
  exists sched t,
    run_schedule [] (map checkpoint_program [1; 1]%nat) sched = Some t /\
    sh_queue (exec_trace (fun w => inject_Z (Z.of_nat w)) t
                         (mkShared 0 0%Q []))
    = [(0%nat, inject_Z (Z.of_nat 1), 0 + 2);
       (1%nat, inject_Z (Z.of_nat 1), 0 + 2)].
Proof.
  split; [lia|]. split; [lia|].
  apply (record_can_carry_anothers_reward
           (fun w => inject_Z (Z.of_nat w)) 0 0%Q); lia.
Defined.

(** ** Episodes that end at the cap, in any environment *)

Section CapReached.
Variables E Obs R OptSlot : Type.
Variable v : variant.
Variable policy_head : network -> Obs -> list dual.
Variable value_head : network -> Obs -> dual.
Variable log_softmax_at : list dual -> Z -> result dual.
Variable backward : network -> list Obs -> list Z -> list Q -> list (list Q).
Variable rmsprop : OptSlot -> list Q -> list Q -> OptSlot * list Q.
Variable env_reset : E -> E * Obs.
Variable env_step : E -> Z -> E * (Obs * Q * bool).
Variable n_actions : Z.
Variable sample : network -> Obs -> R -> nat * R.

Lemma closing_checkpoint (log : list (event Obs)) rep :
  ended_by_done (log ++ [EvCheckpoint rep]) = last_sync_terminal log /\
  synced_at_cap (log ++ [EvCheckpoint rep]) = last_is_sync log.
Proof.
  unfold ended_by_done, synced_at_cap, last_sync_terminal, last_is_sync.
  rewrite rev_app_distr. simpl.
  destruct (rev log) as [|[] ?]; split; reflexivity.
Qed.

Lemma wired_episode_cap name max_length delay ws ws' :
  wired_episode E Obs R OptSlot v policy_head value_head log_softmax_at
                backward rmsprop env_reset env_step n_actions sample
                name max_length delay ws = (ws', Finished) ->
  ended_by_done (w_log ws') = false ->
  (exists record,
      res_queue (w_world ws') = res_queue (w_world ws) ++ [Some record] /\
      episode_length record = Z.max 0 max_length) /\
  w_thread_step ws' = w_thread_step ws + Z.max 0 max_length /\
  (synced_at_cap (w_log ws') = true <->
   0 < max_length /\ (w_thread_step ws + max_length - 1) mod delay = 0).
Proof.
  unfold wired_episode, run_episode.
  destruct (env_reset (w_env ws)) as [env' s0].
  match goal with
  | |- context [episode_loop ?E ?O ?N ?W ?R ?v ?es ?na ?sa ?sy ?ml ?d ?n ?ws0 ?ev0] =>
      pose proof (inner_world E O N W R v es na sa sy ml d _
                    res_queue
                    (fun w net dn s a b c =>
                       proj2 (sync_of_keeps Obs OptSlot v policy_head
                                value_head log_softmax_at backward rmsprop
                                w net dn s a b c))
                    n ws0 ev0) as Hq;
      assert (Hinv : match episode_loop E O N W R v es na sa sy ml d n ws0 ev0
                     with
                     | (ws1, ev1, Finished) =>
                         cap_reached (w_thread_step ws) ml d ws1 ev1
                     | _ => True
                     end);
      [ apply (inner_inv E O N W R v es na sa sy ml d
                 (cap_counted (w_thread_step ws) ml d)
                 (cap_reached (w_thread_step ws) ml d)
                 (fun _ => True))
      | destruct (episode_loop E O N W R v es na sa sy ml d n ws0 ev0)
          as [[ws1 ev1] out] ]
  end.
  - intros ws1 ev1 H1 H2. apply body_cap; assumption.
  - intros ws1 ev1 (Ht & Hr & Hl & Hs) Hge _.
    split; [lia|]. split; [exact Ht|exact Hs].
  - intros; exact I.
  - unfold cap_counted; cbn [w_log w_thread_step episode_step].
    unfold last_sync_terminal, last_is_sync. rewrite !rev_app_distr. simpl.
    repeat split; try lia; try discriminate.
  - simpl in Hq.
    destruct out; try discriminate.
    destruct (checkpoint_args Obs v name ev1) as [rep|e] eqn:Hargs;
      [|discriminate].
    intros [= <-]. cbn [w_world w_log w_thread_step].
    destruct (closing_checkpoint (w_log ws1) rep) as [-> ->].
    intros Hnd. destruct (Hinv Hnd) as (Hes & Ht & Hs).
    pose proof (checkpoint_effect OptSlot (w_world ws1) rep)
      as [_ (record & Hq' & Hl)].
    apply checkpoint_args_length in Hargs.
    split; [exists record; rewrite Hq', Hq; split; [reflexivity|congruence]|].
    split; [lia|].
    rewrite Hs, Ht, Hes.
    destruct (Z.max_spec 0 max_length) as [[Hlt ->]|[Hge ->]].
    + replace (w_thread_step ws + max_length - 1)
        with (w_thread_step ws + max_length - 1) by lia.
      split; intros [H1 H2]; split; auto.
    + split; intros [H1 H2]; lia.
Qed.
End CapReached.

(** C4, amended. Every episode that ends without an exception, at the
    cap or before it, is reported: [checkpoint] adds one to the global
    episode counter and queues a record.  When the episode reaches the
    cap [max_length] without the environment reporting [done], whatever
    the environment, the queued record has that length, the thread's
    step counter has advanced by as much, and no synchronisation is
    forced there: the last step synchronises exactly when the thread's
    step counter is then a multiple of [update_global_delay]. *)
Theorem capped_episode_is_reported
  (E Obs R OptSlot : Type) (v : variant)
  (policy_head : network -> Obs -> list dual)
  (value_head : network -> Obs -> dual)
  (log_softmax_at : list dual -> Z -> result dual)
  (backward : network -> list Obs -> list Z -> list Q -> list (list Q))
  (rmsprop : OptSlot -> list Q -> list Q -> OptSlot * list Q)
  (env_reset : E -> E * Obs) (env_step : E -> Z -> E * (Obs * Q * bool))
  (n_actions : Z) (sample : network -> Obs -> R -> nat * R)
  (name : string) (max_length update_global_delay : Z)
  (ws ws' : wstate E Obs network (A3C OptSlot) R) :
  wired_episode E Obs R OptSlot v policy_head value_head log_softmax_at
                backward rmsprop env_reset env_step n_actions sample
                name max_length update_global_delay ws = (ws', Finished) ->
  (global_ep_counter (w_world ws')
   = wrap_int32 (global_ep_counter (w_world ws) + 1) /\
   exists record,
     res_queue (w_world ws') = res_queue (w_world ws) ++ [Some record]) /\
  (ended_by_done (w_log ws') = false ->
   (exists record,
       res_queue (w_world ws') = res_queue (w_world ws) ++ [Some record] /\
       episode_length record = Z.max 0 max_length) /\
   w_thread_step ws' = w_thread_step ws + Z.max 0 max_length /\
   (synced_at_cap (w_log ws') = true <->
    0 < max_length /\
    (w_thread_step ws + max_length - 1) mod update_global_delay = 0)).
Proof.
  intros H. split.
  - eapply wired_episode_counts; eauto.
  - intros Hnd. eapply wired_episode_cap; eauto.
Qed.

Lemma capped_episode_is_reported_witness :
  snd toy_cut_episode = Finished /\
  ended_by_done (w_log (fst toy_cut_episode)) = false /\
  global_ep_counter (w_world (fst toy_cut_episode)) = 1 /\
  w_thread_step (fst toy_cut_episode) = 1 + Z.max 0 2 /\
  (synced_at_cap (w_log (fst toy_cut_episode)) = true <->
   0 < 2 /\ (1 + 2 - 1) mod 2 = 0).
Proof.
  split; [vm_compute; reflexivity|].
  split; [vm_compute; reflexivity|].
  pose proof (capped_episode_is_reported Z Z nat nat Conv toy_policy toy_value
                toy_log_softmax toy_backward toy_rmsprop endless_reset
                short_step 3 toy_sample "w0" 2 2
                (mkW 0 toy_net toy_a3c O 1 [])
                (fst toy_cut_episode)
                ltac:(vm_compute; reflexivity)) as [[H1 _] H2].
  split; [exact H1|].
  exact (proj2 (H2 ltac:(vm_compute; reflexivity))).
Defined.

(** ** Processes on the shared memory *)

Lemma set_nth_length {X : Type} (xs : list X) w x :
  length (set_nth w x xs) = length xs.
Proof.
  revert w; induction xs as [|y xs IH]; intros [|w]; simpl; try reflexivity.
  rewrite IH. reflexivity.
Qed.

Lemma nth_error_set_nth_same {X : Type} (xs : list X) w x y :
  nth_error xs w = Some y -> nth_error (set_nth w x xs) w = Some x.
Proof.
  revert w; induction xs as [|z xs IH]; intros [|w] H; simpl in *;
    try discriminate; [reflexivity|]. apply IH. exact H.
Qed.

Lemma nth_error_set_nth_other {X : Type} (xs : list X) w w' x :
  w' <> w -> nth_error (set_nth w x xs) w' = nth_error xs w'.
Proof.
  revert w w'; induction xs as [|z xs IH]; intros [|w] [|w'] H; simpl;
    try reflexivity; try congruence.
  apply IH. congruence.
Qed.

Lemma Forall_set_nth {X : Type} (P : X -> Prop) (xs : list X) w x :
  Forall P xs -> P x -> Forall P (set_nth w x xs).
Proof.
  intros H Hx. revert w; induction H as [|y xs Hy Hxs IH]; intros [|w]; simpl;
    constructor; auto.
Qed.

Lemma total_of_finished {X : Type} (p : X -> bool) progs :
  forallb (fun pr : list X => match pr with [] => true | _ => false end) progs
  = true ->
  total_of p progs = O.
Proof.
  induction progs as [|[|o pr] progs IH]; simpl; intros H;
    [reflexivity| |discriminate].
  apply IH. exact H.
Qed.

Lemma total_of_set_nth {X : Type} (p : X -> bool) progs w o pr :
  nth_error progs w = Some (o :: pr) ->
  total_of p progs
  = ((if p o then 1 else 0) + total_of p (set_nth w pr progs))%nat.
Proof.
  revert w; induction progs as [|q progs IH]; intros [|w] H; simpl in *;
    try discriminate.
  - injection H as ->. simpl. destruct (p o); simpl; lia.
  - rewrite (IH w H). lia.
Qed.

(** A merged trace holds every item of every program once, and names
    only workers that have a program. *)
Lemma interleave_count {X : Type} (p : X -> bool) sched :
  forall progs t,
    interleave progs sched = Some t ->
    length (filter (fun wx => p (snd wx)) t) = total_of p progs /\
    Forall (fun wx => (fst wx < length progs)%nat) t.
Proof.
  induction sched as [|w sched IH]; intros progs t; simpl.
  - destruct (forallb _ progs) eqn:Hf; [|discriminate].
    intros [= <-]. rewrite total_of_finished by exact Hf.
    split; [reflexivity|constructor].
  - destruct (nth_error progs w) as [[|o pr]|] eqn:Hw; try discriminate.
    destruct (interleave (set_nth w pr progs) sched) as [t'|] eqn:Hr;
      [|discriminate].
    intros [= <-]. destruct (IH _ _ Hr) as [Hc Hin].
    rewrite set_nth_length in Hin.
    split.
    + rewrite (total_of_set_nth p progs w o pr Hw), <- Hc. simpl.
      destruct (p o); reflexivity.
    + constructor; [|exact Hin]. simpl.
      apply nth_error_Some. congruence.
Qed.

Section MemoryFacts.
Variable Obs : Type.
Variable backward : network -> list Obs -> list Z -> list Q -> list (list Q).
Variable OptSlot : Type.
Variable rmsprop : OptSlot -> list Q -> list Q -> OptSlot * list Q.

Local Abbreviation step1 := (access_step Obs backward OptSlot rmsprop).
Local Abbreviation by1 := (access_by Obs backward OptSlot rmsprop).
Local Abbreviation exec := (exec_accesses Obs backward OptSlot rmsprop).

Lemma exec_app t1 t2 (s : machine OptSlot) :
  exec (t1 ++ t2) s = exec t2 (exec t1 s).
Proof. unfold exec_accesses. apply fold_left_app. Qed.

Lemma exec_cons wa t (s : machine OptSlot) :
  exec (wa :: t) s = exec t (by1 s wa).
Proof. reflexivity. Qed.

Lemma access_by_length (s : machine OptSlot) wa :
  length (snd (by1 s wa)) = length (snd s).
Proof.
  unfold access_by. destruct (nth_error (snd s) (fst wa)) as [p|];
    [|reflexivity].
  destruct (step1 (fst s) p (snd wa)) as [m' p']. simpl.
  apply set_nth_length.
Qed.

Lemma exec_length t (s : machine OptSlot) :
  length (snd (exec t s)) = length (snd s).
Proof.
  revert s; induction t as [|wa t IH]; intros s; [reflexivity|].
  rewrite exec_cons, IH. apply access_by_length.
Qed.

(** Only the write of a step changes the shared memory. *)
Lemma access_keeps_memory (m : memory OptSlot) p a :
  is_write a = false -> fst (step1 m p a) = m.
Proof.
  intros Ha. unfold access_step. destruct (p_status p); [|reflexivity].
  destruct a; try discriminate; try reflexivity.
Qed.

Lemma exec_without_writes t (s : machine OptSlot) :
  writes_in t = O -> fst (exec t s) = fst s.
Proof.
  revert s; induction t as [|[w a] t IH]; intros s H; [reflexivity|].
  unfold writes_in in H. simpl in H.
  destruct (is_write a) eqn:Ha; [discriminate|].
  rewrite exec_cons, IH by exact H.
  unfold access_by. simpl.
  destruct (nth_error (snd s) w) as [p|]; [|reflexivity].
  pose proof (access_keeps_memory (fst s) p a Ha) as Hk.
  destruct (step1 (fst s) p a) as [m' p']. exact Hk.
Qed.

(** A process that has stopped stays as it is. *)
Lemma stopped_stays t (s : machine OptSlot) w p e :
  nth_error (snd s) w = Some p -> p_status p = Raise e ->
  nth_error (snd (exec t s)) w = Some p.
Proof.
  revert s; induction t as [|[w' a] t IH]; intros s Hn Hs; [exact Hn|].
  rewrite exec_cons. apply IH; [|exact Hs].
  unfold access_by. simpl.
  destruct (Nat.eq_dec w' w) as [->|Hne].
  - rewrite Hn. unfold access_step. rewrite Hs. simpl.
    apply (nth_error_set_nth_same _ _ _ p). exact Hn.
  - destruct (nth_error (snd s) w') as [p'|]; [|exact Hn].
    destruct (step1 (fst s) p' a) as [m' p'']. simpl.
    rewrite nth_error_set_nth_other by congruence. exact Hn.
Qed.

Lemma running_at_start t (s : machine OptSlot) w p :
  all_running (snd (exec t s)) ->
  nth_error (snd s) w = Some p -> p_status p = Ok tt.
Proof.
  intros Hall Hn. destruct (p_status p) as [[]|e] eqn:Hs; [reflexivity|].
  pose proof (stopped_stays t s w p e Hn Hs) as Hn'.
  unfold all_running in Hall. rewrite Forall_forall in Hall.
  specialize (Hall p (nth_error_In _ _ Hn')). congruence.
Qed.

(** The counter never runs ahead of the steps completed. *)
Lemma access_updates_below c (s : machine OptSlot) w a :
  updates_below c s ->
  updates_below (c + (if is_write a then 1 else 0)) (by1 s (w, a)).
Proof.
  intros [Hm Hp].
  assert (Hc : c <= c + (if is_write a then 1 else 0))
    by (destruct (is_write a); lia).
  assert (Hmono :
             Forall (fun p : process OptSlot =>
                       match p_read p with
                       | Some r => mem_updates r
                                   <= c + (if is_write a then 1 else 0)
                       | None => True
                       end) (snd s)).
  { eapply Forall_impl; [|exact Hp].
    intros p Hq. cbv beta in Hq |- *. destruct (p_read p); [lia|trivial]. }
  unfold access_by. cbn [fst snd].
  destruct (nth_error (snd s) w) as [p|] eqn:Hn.
  2:{ split; [lia|exact Hmono]. }
  pose proof Hmono as Hp'. rewrite Forall_forall in Hp'.
  specialize (Hp' p (nth_error_In _ _ Hn)). cbv beta in Hp'.
  assert (Hkeep : forall p' : process OptSlot,
             match p_read p' with
             | Some r => mem_updates r <= c + (if is_write a then 1 else 0)
             | None => True
             end ->
             updates_below (c + (if is_write a then 1 else 0))
                           (fst s, set_nth w p' (snd s))).
  { intros p' Hq. split; [cbn [fst]; lia|].
    cbn [snd]. apply Forall_set_nth; [exact Hmono|exact Hq]. }
  unfold access_step. destruct (p_status p) eqn:Hs; [|apply Hkeep; exact Hp'].
  destruct a.
  - apply Hkeep. exact Hp'.
  - apply Hkeep. cbn [step_read p_read]. lia.
  - rewrite Forall_forall in Hp.
    specialize (Hp p (nth_error_In _ _ Hn)). cbv beta in Hp.
    unfold step_write. destruct (p_read p) as [r|] eqn:Hr.
    + destruct (optimizer_step OptSlot rmsprop _ _) as [opt' net'].
      split; [cbn [fst mem_updates is_write] in *; lia|].
      cbn [snd]. apply Forall_set_nth; [exact Hmono|exact I].
    + apply Hkeep. rewrite Hr. exact I.
  - destruct (load_state_dict _ _) as [local' r].
    apply Hkeep. exact Hp'.
Qed.

Lemma exec_updates_below t c (s : machine OptSlot) :
  updates_below c s ->
  updates_below (c + Z.of_nat (writes_in t)) (exec t s).
Proof.
  revert c s; induction t as [|[w a] t IH]; intros c s H.
  - change (exec [] s) with s. change (writes_in (Obs:=Obs) []) with O.
    replace (c + Z.of_nat 0) with c by lia. exact H.
  - rewrite exec_cons.
    apply (access_updates_below c s w a) in H.
    apply IH in H.
    replace (c + Z.of_nat (writes_in ((w, a) :: t)))
      with (c + (if is_write a then 1 else 0) + Z.of_nat (writes_in t)).
    + exact H.
    + unfold writes_in. simpl. destruct (is_write a); simpl; lia.
Qed.

(** Steps that run one at a time are all counted. *)
Lemma exec_steps_apart n :
  forall t (s : machine OptSlot),
    (length t <= n)%nat ->
    steps_apart t = true ->
    Forall (fun wa => (fst wa < length (snd s))%nat) t ->
    all_running (snd (exec t s)) ->
    mem_updates (fst (exec t s))
    = mem_updates (fst s) + Z.of_nat (writes_in t).
Proof.
  induction n as [|n IH]; intros t s Hlen Hap Hin Hrun.
  { destruct t; [|simpl in Hlen; lia]. unfold writes_in. simpl. lia. }
  destruct t as [|[w a] t]; [unfold writes_in; simpl; lia|].
  simpl in Hlen. inversion Hin as [|? ? Hw Hin']; subst. simpl in Hw.
  destruct (nth_error (snd s) w) as [p|] eqn:Hn.
  2:{ apply nth_error_None in Hn. lia. }
  pose proof (running_at_start _ _ _ _ Hrun Hn) as Hs.
  destruct a.
  - (* gradients: memory untouched *)
    simpl in Hap. change (exec ((w, AccGrad bs ba buffer_v_target) :: t) s)
      with (exec t (by1 s (w, AccGrad bs ba buffer_v_target))) in *.
    rewrite IH; try assumption; try lia.
    + unfold access_by, access_step, writes_in. simpl. rewrite Hn, Hs.
      simpl. lia.
    + rewrite access_by_length. exact Hin'.
  - (* a read, then the write of the same process *)
    simpl in Hap. destruct t as [|[w' a'] t2]; [discriminate|].
    destruct a'; try discriminate.
    apply andb_true_iff in Hap as [Hww Hap].
    apply Nat.eqb_eq in Hww. subst w'.
    inversion Hin' as [|? ? _ Hin2]; subst.
    change (exec ((w, AccStepRead) :: (w, AccStepWrite) :: t2) s)
      with (exec t2 (by1 (by1 s (w, AccStepRead)) (w, AccStepWrite))) in *.
    assert (Hstate :
      exists opt' net' ps',
        by1 (by1 s (w, AccStepRead)) (w, AccStepWrite)
        = (mkMem net' opt' (mem_updates (fst s) + 1), ps') /\
        length ps' = length (snd s)).
    { unfold access_by at 2. simpl. rewrite Hn.
      unfold access_step at 1. rewrite Hs. simpl.
      unfold access_by. simpl.
      rewrite (nth_error_set_nth_same _ _ _ p Hn).
      unfold access_step, step_read, step_write. simpl. rewrite Hs. simpl.
      destruct (optimizer_step OptSlot rmsprop _ _) as [opt' net'].
      eexists _, _, _. split; [reflexivity|].
      rewrite !set_nth_length. reflexivity. }
    destruct Hstate as (opt' & net' & ps' & Hst & Hl).
    rewrite Hst in *.
    rewrite IH; try assumption; try (simpl in Hlen |- *; lia).
    + unfold writes_in. simpl. lia.
    + simpl. rewrite Hl. exact Hin2.
  - simpl in Hap. discriminate.
  - (* a load: memory untouched *)
    simpl in Hap. change (exec ((w, AccLoad) :: t) s)
      with (exec t (by1 s (w, AccLoad))) in *.
    rewrite IH; try assumption; try lia.
    + unfold access_by, access_step, writes_in. simpl. rewrite Hn, Hs.
      destruct (load_state_dict (p_local p) (state_dict (mem_net (fst s)))).
      simpl. lia.
    + rewrite access_by_length. exact Hin'.
Qed.

Lemma calls_program_writes (cs : list (list Obs * list Z * list Q)) :
  length (filter is_write (calls_program cs)) = length cs.
Proof.
  unfold calls_program. induction cs as [|[[bs ba] tg] cs IH]; [reflexivity|].
  simpl. rewrite IH. reflexivity.
Qed.

Lemma total_calls_programs M (callss : list (list (list Obs * list Z * list Q))) :
  Forall (fun cs => length cs = M) callss ->
  total_of is_write (map calls_program callss) = (length callss * M)%nat.
Proof.
  induction 1 as [|cs callss Hc _ IH]; [reflexivity|].
  cbn [map total_of fold_right].
  fold (total_of is_write (map calls_program callss)).
  rewrite calls_program_writes, IH, Hc. simpl. lia.
Qed.

(** A call that runs alone is the tail of [sync] as one transition. *)
Lemma lone_call_is_push_and_pull (self : A3C OptSlot) (local : network)
  bs ba buffer_v_target c :
  exec (map (pair O) (call_accesses (bs, ba, buffer_v_target)))
       (mkMem (global_network self) (optimizer self) c,
        [mkProc local None (Ok tt)])
  = let '((self', local'), r) :=
      push_and_pull Obs backward OptSlot rmsprop self local bs ba
                    buffer_v_target in
    (mkMem (global_network self') (optimizer self') (c + 1),
     [mkProc local' None r]).
Proof.
  unfold push_and_pull, push_gradients, call_accesses, exec_accesses.
  cbn [map fold_left].
  unfold access_by, access_step, step_read, step_write.
  cbn [fst snd nth_error set_nth p_status p_local p_read mem_net mem_opt
       mem_updates].
  destruct (optimizer_step OptSlot rmsprop (optimizer self) _) as [opt' net'].
  cbn [fst snd nth_error set_nth p_status p_local p_read mem_net mem_opt
       mem_updates global_network optimizer].
  destruct (load_state_dict _ (state_dict net')) as [local' r]. reflexivity.
Qed.

End MemoryFacts.

(** ** What the missing lock allows *)






